(** * Beach-volley rating: the Elo engine and the group standings

    A shallow embedding of the rating code of the repository
    (src/modules/elo.js, the two tournament pages and the import
    helpers) together with the properties its specification states.

    Conventions of the embedding.
    - A JavaScript number that the code only ever uses as an integer
      (scores, counters, Italian points) is a [Z].  Sums and
      differences of scores in [Z] are those of JavaScript as long as
      they stay within [2^53] in size, where binary64 is exact;
      statements that depend on the exact value of such sums carry
      that bound ([SafeScores]).  A number that goes through division,
      [Math.pow] or [Math.round] (ratings, rating changes, K-factors,
      win rates) is a binary64 [float], with the kernel's IEEE
      operations.
    - A JavaScript [Map] is an insertion-ordered association list; see
      [JsMap].  A plain object used as a dictionary is the list of its
      own properties, read and written as [JsObject] tells.
    - [undefined] is [None]; a [TypeError] is the [None] of a
      computation in [option].
    - A player identifier is a Rocq [string] holding the UTF-8 text;
      the code units JavaScript sees are [utf16] of it. *)

From Stdlib Require Import ZArith Lia Bool List.
From Stdlib Require Import Permutation Sorted.
From Stdlib Require Import Uint63.
From Stdlib Require Import Floats.PrimFloat Floats.FloatOps Floats.SpecFloat.
From Stdlib Require Floats.FloatAxioms.
From stdpp Require Import base decidable option list sorting strings pretty.

Local Open Scope Z_scope.
Local Open Scope list_scope.

(** ** The JavaScript runtime the code relies on *)

Module JS.

(** [Number(z)]: the binary64 value nearest to the integer [z]. *)
Definition number (z : Z) : float :=
  SF2Prim (binary_normalize prec emax z 0 false).

(** Truthiness of a number: [0], [-0] and [NaN] are falsy. *)
Definition falsy (x : float) : bool :=
  PrimFloat.is_zero x || PrimFloat.is_nan x.

(** [v || d] where [v] is a number or [undefined]. *)
Definition or_else (v : option float) (d : float) : float :=
  match v with
  | Some x => if falsy x then d else x
  | None => d
  end.

(** [v || d] where [v] is an integer counter or [undefined]. *)
Definition or_elseZ (v : option Z) (d : Z) : Z :=
  match v with
  | Some x => if x =? 0 then d else x
  | None => d
  end.

(** [Math.round]: the nearest integral number, ties towards
    [+Infinity]; [-0] for arguments in [[-0.5, 0)]; zeros, infinities
    and [NaN] are returned unchanged. *)
Definition Math_round (x : float) : float :=
  match Prim2SF x with
  | S754_finite s m e =>
      if 0 <=? e then x
      else
        let r := ((if s then - Z.pos m else Z.pos m) * 2 + 2 ^ (- e))
                   / 2 ^ (- e + 1) in
        if r =? 0 then (if s then neg_zero else zero)
        else if r <? 0 then PrimFloat.opp (of_uint63 (Uint63.of_Z (- r)))
        else of_uint63 (Uint63.of_Z r)
  | _ => x
  end.

(** A stable sort driven by "the comparator is positive":
    [gt a b = true] stands for [cmp(a, b) > 0], that is, [b] has to
    come before [a].  For a consistent comparator this is what
    [Array.prototype.sort] returns. *)
Section Sort.
Context {A : Type} (gt : A -> A -> bool).

Fixpoint insert (x : A) (l : list A) : list A :=
  match l with
  | [] => [x]
  | y :: l' => if gt x y then y :: insert x l' else x :: y :: l'
  end.

Definition Array_sort (l : list A) : list A :=
  fold_right insert [] l.
End Sort.

(** *** Strings as sequences of UTF-16 code units *)

Definition jsstr : Type := list Z.

Definition bytes (s : string) : list Z :=
  (fun b => Z.of_N (Byte.to_N b)) <$> String.list_byte_of_string s.

(** UTF-8 to UTF-16. *)
Fixpoint decode (bs : list Z) : jsstr :=
  match bs with
  | [] => []
  | b0 :: r0 =>
      if b0 <? 128 then b0 :: decode r0
      else
        match r0 with
        | [] => [65533]
        | b1 :: r1 =>
            if b0 <? 224 then ((b0 mod 32) * 64 + b1 mod 64) :: decode r1
            else
              match r1 with
              | [] => [65533]
              | b2 :: r2 =>
                  if b0 <? 240
                  then ((b0 mod 16) * 4096 + (b1 mod 64) * 64 + b2 mod 64)
                         :: decode r2
                  else
                    match r2 with
                    | [] => [65533]
                    | b3 :: r3 =>
                        let cp := (b0 mod 8) * 262144 + (b1 mod 64) * 4096
                                  + (b2 mod 64) * 64 + b3 mod 64 - 65536 in
                        (55296 + cp / 1024) :: (56320 + cp mod 1024)
                          :: decode r3
                    end
              end
        end
  end.

Definition utf16 (s : string) : jsstr := decode (bytes s).

Definition str_eqb (a b : jsstr) : bool := bool_decide (a = b).

(** [s.split(' ')] for a one-unit separator: never empty. *)
Fixpoint split (sep : Z) (s : jsstr) : list jsstr :=
  match s with
  | [] => [[]]
  | c :: r =>
      if c =? sep then [] :: split sep r
      else
        match split sep r with
        | hd :: tl => (c :: hd) :: tl
        | [] => [[c]]
        end
  end.

(** [s.slice(-n)]: the last [n] code units (all of [s] when it is
    shorter). *)
Definition slice_last (n : nat) (s : jsstr) : jsstr :=
  skipn (length s - n)%nat s.

Definition endsWith (s suffix : jsstr) : bool :=
  (length suffix <=? length s)%nat
  && str_eqb (slice_last (length suffix) s) suffix.

(** [Set.prototype.has] and [Array.prototype.includes] on strings. *)
Definition includes (x : jsstr) (l : list jsstr) : bool :=
  existsb (str_eqb x) l.

(** [toLowerCase], given on the Basic Latin and Cyrillic capitals
    (the alphabets of the tournament data); other code units are
    kept. *)
Definition lower_unit (c : Z) : Z :=
  if (65 <=? c) && (c <=? 90) then c + 32
  else if (1040 <=? c) && (c <=? 1071) then c + 32
  else if (1024 <=? c) && (c <=? 1039) then c + 80
  else c.

Definition toLowerCase (s : jsstr) : jsstr := lower_unit <$> s.

(** UTF-16 to UTF-8; a surrogate without its partner is written as
    U+FFFD. *)
Fixpoint encode (s : jsstr) : list Z :=
  match s with
  | [] => []
  | c :: r =>
      if c <? 128 then c :: encode r
      else if c <? 2048 then (192 + c / 64) :: (128 + c mod 64) :: encode r
      else if (55296 <=? c) && (c <? 56320) then
        match r with
        | d :: r' =>
            if (56320 <=? d) && (d <? 57344) then
              let cp := 65536 + (c - 55296) * 1024 + (d - 56320) in
              (240 + cp / 262144) :: (128 + (cp / 4096) mod 64)
                :: (128 + (cp / 64) mod 64) :: (128 + cp mod 64) :: encode r'
            else 239 :: 191 :: 189 :: encode r
        | [] => [239; 191; 189]
        end
      else if (56320 <=? c) && (c <? 57344) then 239 :: 191 :: 189 :: encode r
      else (224 + c / 4096) :: (128 + (c / 64) mod 64) :: (128 + c mod 64)
             :: encode r
  end.

Definition utf8 (s : jsstr) : string :=
  String.string_of_list_byte
    ((fun b => default Byte.x00 (Byte.of_N (Z.to_N b))) <$> encode s).

(** The class [\s] of a regular expression. *)
Definition isWhiteSpace (c : Z) : bool :=
  ((9 <=? c) && (c <=? 13)) || (c =? 32) || (c =? 160) || (c =? 5760)
  || ((8192 <=? c) && (c <=? 8202)) || (c =? 8232) || (c =? 8233)
  || (c =? 8239) || (c =? 8287) || (c =? 12288) || (c =? 65279).

(** [s.replace(/\s+/g, '-')]; [inRun] tells that the unit before was
    white space. *)
Fixpoint replaceWhiteSpace (inRun : bool) (s : jsstr) : jsstr :=
  match s with
  | [] => []
  | c :: r =>
      if isWhiteSpace c
      then (if inRun then replaceWhiteSpace true r
            else 45 :: replaceWhiteSpace true r)
      else c :: replaceWhiteSpace false r
  end.

(** [String(n)] for an integer below [10^21] in size: the decimal
    digits, after a minus sign for a negative one. *)
Definition Number_toString (n : Z) : string := pretty n.

(** [arr.slice(start, final)] for integral bounds: a negative bound
    counts from the end, and both are clamped to the array. *)
Definition Array_slice {A : Type} (start final : Z) (l : list A) : list A :=
  let len := Z.of_nat (length l) in
  let k := if start <? 0 then Z.max (len + start) 0 else Z.min start len in
  let final := if final <? 0 then Z.max (len + final) 0 else Z.min final len in
  take (Z.to_nat (final - k)) (drop (Z.to_nat k) l).

End JS.

(** ** Insertion-ordered maps with string keys ([Map])

    A [Map] iterates in insertion order, and the order of the [players]
    array and of rows level in the standings comes from it: the maps
    are association lists, in which [set] keeps the place of a key. *)

Module JsMap.
Section Ops.
Context {V : Type}.

Fixpoint get (k : string) (m : list (string * V)) : option V :=
  match m with
  | [] => None
  | (k', v) :: m' => if String.eqb k k' then Some v else get k m'
  end.

Definition has (k : string) (m : list (string * V)) : bool :=
  match get k m with Some _ => true | None => false end.

(** [set] overwrites in place, or appends a new key at the end. *)
Fixpoint set (k : string) (v : V) (m : list (string * V))
  : list (string * V) :=
  match m with
  | [] => [(k, v)]
  | (k', v') :: m' =>
      if String.eqb k k' then (k, v) :: m' else (k', v') :: set k v m'
  end.

Definition keys (m : list (string * V)) : list string := fst <$> m.
Definition values (m : list (string * V)) : list V := snd <$> m.
End Ops.
End JsMap.

(** ** Plain objects used as dictionaries ([{}] and object literals)

    An object is the list of its own properties in the order in which
    [Object.entries] and [Object.keys] list them: the properties whose
    name is an array index first, by ascending index, then the others
    in the order of their creation.  An object created by [{}] or by a
    literal inherits from [Object.prototype]: reading a name it does
    not own finds the member of the prototype of that name, if there
    is one, and assigning a number to [__proto__] runs the setter of
    the prototype, which ignores a value that is neither an object nor
    [null]. *)

Module JsObject.

(** The properties of [Object.prototype] (ECMA-262, 20.1.3 and B.2.2). *)
Definition prototypeMembers : list string :=
  [ "constructor"; "hasOwnProperty"; "isPrototypeOf"; "propertyIsEnumerable";
    "toLocaleString"; "toString"; "valueOf"; "__proto__";
    "__defineGetter__"; "__defineSetter__"; "__lookupGetter__";
    "__lookupSetter__" ]%string.

Definition digit (a : Ascii.ascii) : option Z :=
  let n := Z.of_N (Ascii.N_of_ascii a) in
  if (48 <=? n) && (n <=? 57) then Some (n - 48) else None.

Fixpoint decimal (acc : Z) (s : string) : option Z :=
  match s with
  | EmptyString => Some acc
  | String a s' =>
      match digit a with
      | Some d => decimal (acc * 10 + d) s'
      | None => None
      end
  end.

(** A name is an array index when it is the decimal text, without a
    leading zero, of an integer from 0 to [2^32 - 2]. *)
Definition arrayIndex (k : string) : option Z :=
  match k with
  | EmptyString => None
  | String a rest =>
      match decimal 0 k with
      | Some n =>
          if (negb (Z.of_N (Ascii.N_of_ascii a) =? 48)
              || String.eqb rest EmptyString)
             && (n <? 4294967295)
          then Some n else None
      | None => None
      end
  end.

Section Ops.
Context {V : Type}.

(** What reading [o[k]] finds. *)
Inductive Property :=
  | Own (v : V)
  | Inherited (member : string)
  | Undefined.

Definition get (k : string) (o : list (string * V)) : Property :=
  match JsMap.get k o with
  | Some v => Own v
  | None =>
      if bool_decide (k ∈ prototypeMembers) then Inherited k else Undefined
  end.

(** A new property named by the array index [n] takes its place among
    the array indices. *)
Fixpoint insertIndex (n : Z) (k : string) (v : V) (o : list (string * V))
  : list (string * V) :=
  match o with
  | [] => [(k, v)]
  | (k', v') :: o' =>
      match arrayIndex k' with
      | Some n' =>
          if n' <? n then (k', v') :: insertIndex n k v o' else (k, v) :: o
      | None => (k, v) :: o
      end
  end.

(** [o[k] = v] for a number [v]. *)
Definition set (k : string) (v : V) (o : list (string * V))
  : list (string * V) :=
  if String.eqb k "__proto__" then o
  else if JsMap.has k o then JsMap.set k v o
  else
    match arrayIndex k with
    | Some n => insertIndex n k v o
    | None => JsMap.set k v o
    end.

End Ops.

Arguments Property : clear implicits.

End JsObject.

(** ** Insertion-ordered maps with keys of any type with a decidable
    equality (a [Map] keyed by numbers, an object keyed by a stage) *)

Module OMap.
Section Ops.
Context {K V : Type} `{EqDecision K}.

Fixpoint get (k : K) (m : list (K * V)) : option V :=
  match m with
  | [] => None
  | (k', v) :: m' => if bool_decide (k = k') then Some v else get k m'
  end.

Definition has (k : K) (m : list (K * V)) : bool :=
  match get k m with Some _ => true | None => false end.

Fixpoint set (k : K) (v : V) (m : list (K * V)) : list (K * V) :=
  match m with
  | [] => [(k, v)]
  | (k', v') :: m' =>
      if bool_decide (k = k') then (k, v) :: m' else (k', v') :: set k v m'
  end.

Definition keys (m : list (K * V)) : list K := fst <$> m.
Definition values (m : list (K * V)) : list V := snd <$> m.
End Ops.
End OMap.

(** ** The data model *)

(** A normalised match record. *)
Record Match := {
  id : string;
  date : string;
  team1 : string * string;
  team2 : string * string;
  score : Z * Z;
  winner : Z
}.

(** [[...match.team1, ...match.team2]] *)
Definition participants (m : Match) : list string :=
  [fst (team1 m); snd (team1 m); fst (team2 m); snd (team2 m)].

Inductive Gender := male | female.

Inductive GenderFilter := FilterAll | FilterOnly (g : Gender).

Definition gender_eqb (a b : Gender) : bool :=
  match a, b with male, male | female, female => true | _, _ => false end.

(** A fold that stops at the first exception. *)
Fixpoint foldM {A B : Type} (f : B -> A -> option B) (b : B) (l : list A)
  : option B :=
  match l with
  | [] => Some b
  | x :: l' =>
      match f b x with
      | Some b' => foldM f b' l'
      | None => None
      end
  end.

(** ** src/modules/elo.js *)

Module Elo.

Definition INITIAL_RATING : float := 1500.
Definition K_FACTOR_DEFAULT : float := 32.
Definition K_FACTOR_CALIBRATION : float := 40.
Definition CALIBRATION_GAMES : Z := 15.

Definition getKFactor (gamesPlayed : Z) : float :=
  if gamesPlayed <? CALIBRATION_GAMES
  then K_FACTOR_CALIBRATION else K_FACTOR_DEFAULT.

Definition calculateTeamRating (rating1 rating2 : float) : float :=
  ((rating1 + rating2) / 2)%float.

(** One snapshot of [ratingHistory]; [matchId] is [null] in the
    initial snapshot. *)
Record Snapshot := {
  snap_date : string;
  snap_rating : float;
  snap_matchId : option string;
  snap_change : float
}.

(** [{...match, ratingChanges}]; [ratingChanges] is a plain object
    (see [JsObject]). *)
Record ProcessedMatch := {
  pm_match : Match;
  pm_ratingChanges : list (string * float)
}.

Record Player := {
  player_id : string;
  player_name : string;
  currentRating : float;
  gamesPlayed : option Z;
  isCalibrated : bool;
  ratingHistory : list Snapshot;
  lastChange : float
}.

Record Result := {
  players : list Player;
  matches : list ProcessedMatch
}.

(** The four accumulators of [processAllMatches]. *)
Record State := {
  playerRatings : list (string * float);
  playerGames : list (string * Z);
  playerHistory : list (string * list Snapshot);
  processedMatches : list ProcessedMatch
}.

Definition emptyState : State :=
  {| playerRatings := []; playerGames := []; playerHistory := [];
     processedMatches := [] |}.

(** The rating and the games count [processMatch] reads for a player. *)
Definition ratingOf (playerRatings : list (string * float)) (p : string)
  : float :=
  JS.or_else (JsMap.get p playerRatings) INITIAL_RATING.

Definition gamesOf (playerGames : list (string * Z)) (p : string) : Z :=
  JS.or_elseZ (JsMap.get p playerGames) 0.

Section Engine.

(** [Math.pow] is implementation-approximated: the engine is given for
    any such function. *)
Variable Math_pow : float -> float -> float.

Definition calculateExpectedScore (playerRating opponentRating : float)
  : float :=
  (1 / (1 + Math_pow 10 ((opponentRating - playerRating) / 400)))%float.

Definition calculateRatingChange (playerRating opponentTeamRating : float)
  (isWinner : bool) (gamesPlayed : Z) : float :=
  let expectedScore := calculateExpectedScore playerRating opponentTeamRating in
  let actualScore := if isWinner then 1%float else 0%float in
  let kFactor := getKFactor gamesPlayed in
  JS.Math_round (kFactor * (actualScore - expectedScore))%float.

(** [ratingChanges] is a plain object.  With [{}] nothing is owned;
    each assignment goes through [JsObject.set]. *)
Definition processMatch (m : Match) (playerRatings : list (string * float))
  (playerGames : list (string * Z)) : list (string * float) :=
  let team1Player1Rating := ratingOf playerRatings (fst (team1 m)) in
  let team1Player2Rating := ratingOf playerRatings (snd (team1 m)) in
  let team2Player1Rating := ratingOf playerRatings (fst (team2 m)) in
  let team2Player2Rating := ratingOf playerRatings (snd (team2 m)) in
  let team1AvgRating :=
    calculateTeamRating team1Player1Rating team1Player2Rating in
  let team2AvgRating :=
    calculateTeamRating team2Player1Rating team2Player2Rating in
  let team1Won := winner m =? 1 in
  let ratingChanges := [] in
  let ratingChanges :=
    JsObject.set (fst (team1 m))
      (calculateRatingChange team1Player1Rating team2AvgRating team1Won
         (gamesOf playerGames (fst (team1 m)))) ratingChanges in
  let ratingChanges :=
    JsObject.set (snd (team1 m))
      (calculateRatingChange team1Player2Rating team2AvgRating team1Won
         (gamesOf playerGames (snd (team1 m)))) ratingChanges in
  let ratingChanges :=
    JsObject.set (fst (team2 m))
      (calculateRatingChange team2Player1Rating team1AvgRating
         (negb team1Won) (gamesOf playerGames (fst (team2 m))))
      ratingChanges in
  let ratingChanges :=
    JsObject.set (snd (team2 m))
      (calculateRatingChange team2Player2Rating team1AvgRating
         (negb team1Won) (gamesOf playerGames (snd (team2 m))))
      ratingChanges in
  ratingChanges.

(** First loop of [processAllMatches]: a player not yet known gets the
    initial rating, no games and the initial snapshot. *)
Definition initPlayer (m : Match) (st : State) (playerId : string) : State :=
  if JsMap.has playerId (playerRatings st) then st
  else
    {| playerRatings := JsMap.set playerId INITIAL_RATING (playerRatings st);
       playerGames := JsMap.set playerId 0 (playerGames st);
       playerHistory :=
         JsMap.set playerId
           [ {| snap_date := date m; snap_rating := INITIAL_RATING;
                snap_matchId := None; snap_change := 0 |} ]
           (playerHistory st);
       processedMatches := processedMatches st |}.

Definition initPlayers (ms : list Match) (st : State) : State :=
  fold_left (fun st m => fold_left (initPlayer m) (participants m) st) ms st.

(** Body of [Object.entries(ratingChanges).forEach]: [undefined + change]
    is [NaN]; [history.push] on [undefined] throws. *)
Definition applyChange (m : Match) (st : State) (entry : string * float)
  : option State :=
  let '(playerId, change) := entry in
  let newRating :=
    match JsMap.get playerId (playerRatings st) with
    | Some r => (r + change)%float
    | None => nan
    end in
  match JsMap.get playerId (playerHistory st) with
  | None => None
  | Some history =>
      Some
        {| playerRatings := JsMap.set playerId newRating (playerRatings st);
           playerGames :=
             JsMap.set playerId (gamesOf (playerGames st) playerId + 1)
               (playerGames st);
           playerHistory :=
             JsMap.set playerId
               (history ++
                  [ {| snap_date := date m; snap_rating := newRating;
                       snap_matchId := Some (id m); snap_change := change |} ])
               (playerHistory st);
           processedMatches := processedMatches st |}
  end.

(** Body of the second loop.  [Object.entries(ratingChanges)] is the
    list of the own properties of the object, in the order in which
    [JsObject] keeps them. *)
Definition processOne (st : State) (m : Match) : option State :=
  let ratingChanges := processMatch m (playerRatings st) (playerGames st) in
  match foldM (applyChange m) st ratingChanges with
  | None => None
  | Some st' =>
      Some
        {| playerRatings := playerRatings st';
           playerGames := playerGames st';
           playerHistory := playerHistory st';
           processedMatches :=
             processedMatches st'
               ++ [ {| pm_match := m; pm_ratingChanges := ratingChanges |} ] |}
  end.

Definition runMatches (st : State) (ms : list Match) : option State :=
  foldM processOne st ms.

(** Body of [playerRatings.forEach] that builds the [players] array;
    [history.length] on [undefined] throws. *)
Definition buildPlayer (st : State) (entry : string * float) : option Player :=
  let '(playerId, rating) := entry in
  let gamesPlayed := JsMap.get playerId (playerGames st) in
  match JsMap.get playerId (playerHistory st) with
  | None => None
  | Some history =>
      let lastChange :=
        if (1 <? length history)%nat
        then match last history with
             | Some s => snap_change s
             | None => 0%float
             end
        else 0%float in
      Some
        {| player_id := playerId;
           player_name := playerId;
           currentRating := rating;
           gamesPlayed := gamesPlayed;
           isCalibrated :=
             match gamesPlayed with
             | Some g => CALIBRATION_GAMES <=? g
             | None => false
             end;
           ratingHistory := history;
           lastChange := lastChange |}
  end.

Definition buildPlayers (st : State) : option (list Player) :=
  foldM (fun acc e =>
           match buildPlayer st e with
           | Some p => Some (acc ++ [p])
           | None => None
           end) [] (playerRatings st).

(** [(a, b) => b.currentRating - a.currentRating] is positive. *)
Definition byRatingDesc (a b : Player) : bool :=
  PrimFloat.ltb 0 (currentRating b - currentRating a)%float.

Definition processAllMatches (ms : list Match) : option Result :=
  match runMatches (initPlayers ms emptyState) ms with
  | None => None
  | Some st =>
      match buildPlayers st with
      | None => None
      | Some ps =>
          Some {| players := JS.Array_sort byRatingDesc ps;
                  matches := processedMatches st |}
      end
  end.

End Engine.
End Elo.

(** The first name both gender heuristics look at:
    [parts.length > 1 ? parts[1] : parts[0]] for
    [parts = fullName.split(' ')]. *)
Definition firstNameOf (fullName : JS.jsstr) : JS.jsstr :=
  match JS.split 32 fullName with
  | _ :: second :: _ => second
  | [only] => only
  | [] => []
  end.

(** ** The tournament page with Italian scoring
    (the later [tournamentUI] module, with the gender filter) *)

Module TournamentUI.

Definition FEMALE_NAMES : list JS.jsstr :=
  JS.utf16 <$>
    [ "Мария"; "Анастасия"; "Юлия"; "Светлана"; "Ольга"; "Анна"; "Наталья";
      "Екатерина"; "Елена"; "Ирина"; "Татьяна"; "Дарья"; "Ксения";
      "Евгения"; "Инна"; "Василиса"; "Жанна"; "Нина";
      "Преображенская Ек."; "Неизвестная Ксения" ]%string.

Definition maleExceptions : list JS.jsstr :=
  JS.utf16 <$> [ "Никита"; "Илья"; "Кирилл" ]%string.

Definition getGender (fullName : JS.jsstr) : Gender :=
  if JS.includes fullName FEMALE_NAMES then female
  else
    let firstName := firstNameOf fullName in
    if JS.includes firstName FEMALE_NAMES then female
    else if (JS.endsWith firstName (JS.utf16 "а")
             || JS.endsWith firstName (JS.utf16 "я")
             || JS.endsWith firstName (JS.utf16 "ья"))
            && negb (JS.includes firstName maleExceptions)
    then female
    else male.

Definition getItalianPoints (myScore opponentScore : Z) : Z :=
  let diff := Z.abs (myScore - opponentScore) in
  let isBalanced := diff =? 2 in
  if opponentScore <? myScore
  then (if isBalanced then 2 else 3)
  else (if isBalanced then 1 else 0).

Record MatchDetail := {
  md_id : string;
  md_myScore : Z;
  md_oppScore : Z;
  md_won : bool;
  md_diff : Z;
  md_points : Z
}.

(** The per-player accumulator kept in the [players] map. *)
Record PlayerAcc := {
  name : string;
  gender : Gender;
  games : Z;
  wins : Z;
  losses : Z;
  italianPoints : Z;
  ballsFor : Z;
  ballsAgainst : Z;
  matchDetails : list MatchDetail
}.

(** [{...p, ballsDiff}] *)
Record StandingsRow := {
  row : PlayerAcc;
  ballsDiff : Z
}.

Definition newPlayer (playerName : string) : PlayerAcc :=
  {| name := playerName; gender := getGender (JS.utf16 playerName);
     games := 0; wins := 0; losses := 0; italianPoints := 0;
     ballsFor := 0; ballsAgainst := 0; matchDetails := [] |}.

Definition ensurePlayer (players : list (string * PlayerAcc))
  (playerName : string) : list (string * PlayerAcc) :=
  if JsMap.has playerName players then players
  else JsMap.set playerName (newPlayer playerName) players.

(** What one match adds to the accumulator of a player who scored
    [myScore] against [oppScore].  The scores are integers; see the
    conventions for the range in which [ballsFor] and [ballsAgainst]
    are the sums JavaScript forms. *)
Definition credit (matchId : string) (myScore oppScore : Z) (won : bool)
  (p : PlayerAcc) : PlayerAcc :=
  let pts := getItalianPoints myScore oppScore in
  {| name := name p; gender := gender p;
     games := games p + 1;
     wins := if won then wins p + 1 else wins p;
     losses := if won then losses p else losses p + 1;
     italianPoints := italianPoints p + pts;
     ballsFor := ballsFor p + myScore;
     ballsAgainst := ballsAgainst p + oppScore;
     matchDetails :=
       matchDetails p ++
         [ {| md_id := matchId; md_myScore := myScore; md_oppScore := oppScore;
              md_won := won; md_diff := Z.abs (myScore - oppScore);
              md_points := pts |} ] |}.

(** [const p = players.get(playerName); p.games++; ...]: the object in
    the map is updated in place.  The player was created by the loop
    just before, so the lookup cannot be [undefined]
    (see [creditPlayer_defined]). *)
Definition creditPlayer (matchId : string) (myScore oppScore : Z) (won : bool)
  (players : list (string * PlayerAcc)) (playerName : string)
  : list (string * PlayerAcc) :=
  match JsMap.get playerName players with
  | Some p => JsMap.set playerName (credit matchId myScore oppScore won p) players
  | None => players
  end.

(** Body of [matches.forEach]. *)
Definition addMatch (players : list (string * PlayerAcc)) (m : Match)
  : list (string * PlayerAcc) :=
  if fst (score m) =? snd (score m) then players
  else
    let team1Won := snd (score m) <? fst (score m) in
    let players := fold_left ensurePlayer (participants m) players in
    let players :=
      fold_left (creditPlayer (id m) (fst (score m)) (snd (score m)) team1Won)
        [fst (team1 m); snd (team1 m)] players in
    fold_left
      (creditPlayer (id m) (snd (score m)) (fst (score m)) (negb team1Won))
      [fst (team2 m); snd (team2 m)] players.

Definition aggregate (ms : list Match) : list (string * PlayerAcc) :=
  fold_left addMatch ms [].

Definition passesFilter (currentGenderFilter : GenderFilter) (p : PlayerAcc)
  : bool :=
  match currentGenderFilter with
  | FilterAll => true
  | FilterOnly g => gender_eqb (gender p) g
  end.

Definition withDiff (p : PlayerAcc) : StandingsRow :=
  {| row := p; ballsDiff := ballsFor p - ballsAgainst p |}.

(** The comparator of the final [sort]. *)
Definition compareRows (a b : StandingsRow) : Z :=
  if negb (italianPoints (row b) =? italianPoints (row a))
  then italianPoints (row b) - italianPoints (row a)
  else ballsDiff b - ballsDiff a.

Definition calculateStandings (currentGenderFilter : GenderFilter)
  (ms : list Match) : list StandingsRow :=
  JS.Array_sort (fun a b => 0 <? compareRows a b)
    (withDiff <$>
       filter (passesFilter currentGenderFilter)
         (JsMap.values (aggregate ms))).

(** The [#] column of the rendered table: [i + 1]. *)
Definition ranked (standings : list StandingsRow) : list (Z * StandingsRow) :=
  imap (fun i p => (Z.of_nat i + 1, p)) standings.

End TournamentUI.

(** ** src/modules/tournamentUI.js: the table ranked by wins *)

Module WinsTable.

Record PlayerAcc := {
  name : string;
  games : Z;
  wins : Z;
  losses : Z;
  pointsFor : Z;
  pointsAgainst : Z
}.

(** [{...p, pointsDiff, winRate}] *)
Record StandingsRow := {
  row : PlayerAcc;
  pointsDiff : Z;
  winRate : float
}.

Definition newPlayer (playerName : string) : PlayerAcc :=
  {| name := playerName; games := 0; wins := 0; losses := 0;
     pointsFor := 0; pointsAgainst := 0 |}.

Definition ensurePlayer (players : list (string * PlayerAcc))
  (playerName : string) : list (string * PlayerAcc) :=
  if JsMap.has playerName players then players
  else JsMap.set playerName (newPlayer playerName) players.

Definition credit (myScore oppScore : Z) (won : bool) (p : PlayerAcc)
  : PlayerAcc :=
  {| name := name p;
     games := games p + 1;
     wins := if won then wins p + 1 else wins p;
     losses := if won then losses p else losses p + 1;
     pointsFor := pointsFor p + myScore;
     pointsAgainst := pointsAgainst p + oppScore |}.

Definition creditPlayer (myScore oppScore : Z) (won : bool)
  (players : list (string * PlayerAcc)) (playerName : string)
  : list (string * PlayerAcc) :=
  match JsMap.get playerName players with
  | Some p => JsMap.set playerName (credit myScore oppScore won p) players
  | None => players
  end.

Definition addMatch (players : list (string * PlayerAcc)) (m : Match)
  : list (string * PlayerAcc) :=
  if fst (score m) =? snd (score m) then players
  else
    let team1Won := snd (score m) <? fst (score m) in
    let players := fold_left ensurePlayer (participants m) players in
    let players :=
      fold_left (creditPlayer (fst (score m)) (snd (score m)) team1Won)
        [fst (team1 m); snd (team1 m)] players in
    fold_left (creditPlayer (snd (score m)) (fst (score m)) (negb team1Won))
      [fst (team2 m); snd (team2 m)] players.

Definition aggregate (ms : list Match) : list (string * PlayerAcc) :=
  fold_left addMatch ms [].

Definition withDerived (p : PlayerAcc) : StandingsRow :=
  {| row := p;
     pointsDiff := pointsFor p - pointsAgainst p;
     winRate :=
       if 0 <? games p
       then JS.Math_round
              (JS.number (wins p) / JS.number (games p) * 100)%float
       else 0%float |}.

Definition compareRows (a b : StandingsRow) : Z :=
  if negb (wins (row b) =? wins (row a))
  then wins (row b) - wins (row a)
  else pointsDiff b - pointsDiff a.

Definition calculateStandings (ms : list Match) : list StandingsRow :=
  JS.Array_sort (fun a b => 0 <? compareRows a b)
    (withDerived <$> JsMap.values (aggregate ms)).

End WinsTable.

(** ** The import script: gender of a new player *)

Module ImportScript.

Definition FEMALE_NAMES : list JS.jsstr :=
  JS.utf16 <$>
    [ "Мария"; "Анна"; "Ольга"; "Светлана"; "Юлия"; "Наталья"; "Екатерина";
      "Анастасия"; "Елена"; "Татьяна"; "Ирина"; "Дарья"; "Ксения";
      "Евгения"; "Василиса"; "Инна"; "Жанна"; "Нина" ]%string.

Definition MALE_EXCEPTIONS : list JS.jsstr :=
  JS.utf16 <$> [ "Никита"; "Илья"; "Кирилл" ]%string.

Definition getGender (fullName : JS.jsstr) : Gender :=
  let firstName := firstNameOf fullName in
  if JS.includes firstName FEMALE_NAMES then female
  else if JS.includes firstName MALE_EXCEPTIONS then male
  else
    let lastChar := JS.toLowerCase (JS.slice_last 1 firstName) in
    let lastTwoChars := JS.toLowerCase (JS.slice_last 2 firstName) in
    if JS.str_eqb lastTwoChars (JS.utf16 "ья") then male
    else if JS.str_eqb lastChar (JS.utf16 "а")
            || JS.str_eqb lastChar (JS.utf16 "я")
    then female
    else male.

End ImportScript.

(** ** The database module: Italian points of the season rating *)

Module Db.

Definition getItalianPoints (myScore oppScore : Z) : Z :=
  if myScore =? oppScore then 0
  else
    let diff := Z.abs (myScore - oppScore) in
    let isBalanced := diff =? 2 in
    if oppScore <? myScore
    then (if isBalanced then 2 else 3)
    else (if isBalanced then 1 else 0).

(** *** The season rating

    [getSeasonRating] reads the season, its tournaments and its
    matches from the database; the rows the three queries return are
    parameters here. *)

(** The columns read of a row of [tournaments]. *)
Record Tournament := {
  tournament_id : Z;
  stage_number : option Z;
  tournament_date : string
}.

(** An entry of the [stages] array. *)
Record Stage := {
  stageNumber : option Z;
  stage_name : string;
  tournamentId : option Z;
  stage_date : option string
}.

(** [tournament?.id || null] and [tournament?.date || null] *)
Definition stageOf (stageNumber : option Z) (name : string)
  (tournament : option Tournament) : Stage :=
  {| stageNumber := stageNumber;
     stage_name := name;
     tournamentId :=
       match tournament with
       | Some t => if tournament_id t =? 0 then None else Some (tournament_id t)
       | None => None
       end;
     stage_date :=
       match tournament with
       | Some t =>
           if String.eqb (tournament_date t) EmptyString then None
           else Some (tournament_date t)
       | None => None
       end |}.

(** The ten stages and the final. *)
Definition seasonStages (tournaments : list Tournament) : list Stage :=
  ((fun i =>
      stageOf (Some i) (JS.Number_toString i +:+ " этап")
        (List.find
           (fun t => bool_decide (stage_number t = Some i)) tournaments))
     <$> seqZ 1 10)
  ++ [ stageOf None "Финал"
         (List.find (fun t => bool_decide (stage_number t = None))
            tournaments) ].

(** A player as joined to a match row: [p1_id], [p1_name],
    [p1_gender]. *)
Record PlayerRef := {
  ref_id : Z;
  ref_name : string;
  ref_gender : option Gender
}.

(** A row of the query over the matches of the season. *)
Record MatchRow := {
  row_stage_number : option Z;
  group_stage : string;
  score1 : Z;
  score2 : Z;
  p1 : PlayerRef;
  p2 : PlayerRef;
  p3 : PlayerRef;
  p4 : PlayerRef
}.

(** [match.stage_number || 'final']: the key of a stage in the
    [stages] object of a player.  (The object is read by key only;
    the order of the list is not the order of its properties.) *)
Inductive StageKey := StageNumber (n : Z) | FinalStage.

#[global] Instance StageKey_eq_dec : EqDecision StageKey.
Proof. solve_decision. Defined.

Definition stageKeyOf (stage_number : option Z) : StageKey :=
  match stage_number with
  | Some n => if n =? 0 then FinalStage else StageNumber n
  | None => FinalStage
  end.

(** A line of the matches of a stage. *)
Record StageMatch := {
  sm_partner : string;
  sm_vs : string;
  sm_score : string;
  sm_won : bool;
  sm_diff : Z;
  sm_points : Z;
  sm_stage : string
}.

Record StageData := {
  points : Z;
  stage_matches : list StageMatch
}.

Record SeasonPlayer := {
  sp_id : Z;
  sp_name : string;
  sp_gender : option Gender;
  stages : list (StageKey * StageData);
  total : Z
}.

(** Body of the two [forEach] over the players of a team: the entry of
    the player is created when missing, then the stage, then the line
    is pushed and the points are added to the stage and to the total.
    The two lookups come after the creation, so they find an entry. *)
Definition addLine (stageKey : StageKey) (pts : Z) (line : StageMatch)
  (playersMap : list (Z * SeasonPlayer)) (player : PlayerRef)
  : list (Z * SeasonPlayer) :=
  let playersMap :=
    if OMap.has (ref_id player) playersMap then playersMap
    else
      OMap.set (ref_id player)
        {| sp_id := ref_id player; sp_name := ref_name player;
           sp_gender := ref_gender player; stages := []; total := 0 |}
        playersMap in
  match OMap.get (ref_id player) playersMap with
  | Some p =>
      let stages_p :=
        if OMap.has stageKey (stages p) then stages p
        else OMap.set stageKey {| points := 0; stage_matches := [] |} (stages p) in
      match OMap.get stageKey stages_p with
      | Some sd =>
          OMap.set (ref_id player)
            {| sp_id := sp_id p; sp_name := sp_name p;
               sp_gender := sp_gender p;
               stages :=
                 OMap.set stageKey
                   {| points := points sd + pts;
                      stage_matches := stage_matches sd ++ [line] |}
                   stages_p;
               total := total p + pts |}
            playersMap
      | None => playersMap
      end
  | None => playersMap
  end.

(** Body of [for (const match of allMatches)]. *)
Definition addRow (playersMap : list (Z * SeasonPlayer)) (row : MatchRow)
  : list (Z * SeasonPlayer) :=
  let stageKey := stageKeyOf (row_stage_number row) in
  let team1Won := score2 row <? score1 row in
  let playersMap :=
    fold_left
      (fun playersMap player =>
         let pts := getItalianPoints (score1 row) (score2 row) in
         addLine stageKey pts
           {| sm_partner :=
                if ref_id player =? ref_id (p1 row)
                then ref_name (p2 row) else ref_name (p1 row);
              sm_vs := ref_name (p3 row) +:+ " + " +:+ ref_name (p4 row);
              sm_score :=
                JS.Number_toString (score1 row) +:+ ":"
                  +:+ JS.Number_toString (score2 row);
              sm_won := team1Won;
              sm_diff := Z.abs (score1 row - score2 row);
              sm_points := pts;
              sm_stage := group_stage row |}
           playersMap player)
      [p1 row; p2 row] playersMap in
  fold_left
    (fun playersMap player =>
       let pts := getItalianPoints (score2 row) (score1 row) in
       addLine stageKey pts
         {| sm_partner :=
              if ref_id player =? ref_id (p3 row)
              then ref_name (p4 row) else ref_name (p3 row);
            sm_vs := ref_name (p1 row) +:+ " + " +:+ ref_name (p2 row);
            sm_score :=
              JS.Number_toString (score2 row) +:+ ":"
                +:+ JS.Number_toString (score1 row);
            sm_won := negb team1Won;
            sm_diff := Z.abs (score1 row - score2 row);
            sm_points := pts;
            sm_stage := group_stage row |}
         playersMap player)
    [p3 row; p4 row] playersMap.

(** [(a, b) => b.total - a.total] is positive. *)
Definition byTotalDesc (a b : SeasonPlayer) : bool := 0 <? total b - total a.

Record SeasonRating (Season : Type) := {
  season : Season;
  season_stages : list Stage;
  season_players : list SeasonPlayer
}.

Arguments season {Season} _.
Arguments season_stages {Season} _.
Arguments season_players {Season} _.

Definition getSeasonRating {Season : Type} (season : option Season)
  (tournaments : list Tournament) (allMatches : list MatchRow)
  : option (SeasonRating Season) :=
  match season with
  | None => None
  | Some season =>
      Some
        {| season := season;
           season_stages := seasonStages tournaments;
           season_players :=
             JS.Array_sort byTotalDesc
               (OMap.values (fold_left addRow allMatches [])) |}
  end.

End Db.

(** ** src/modules/dataManager.js *)

Module DataManager.

(** *** Reading the raw tournament data *)

Definition NAME_NORMALIZATIONS : list (string * string) :=
  [ ("Преображенская Ек.", "Преображенская Екатерина");
    ("Подковырина Вас.", "Подковырина Василиса");
    ("Захарченко Вл.", "Захарченко Владимир") ]%string.

(** What [normalizeName] returns: a string, or one of the members of
    [Object.prototype] (a function, or the prototype itself). *)
Inductive PlayerName := Str (s : string) | Member (key : string).

(** [NAME_NORMALIZATIONS[name] || name]: the table is a plain object,
    so that a name it does not own may find an inherited member, which
    is truthy. *)
Definition normalizeName (name : string) : PlayerName :=
  match JsObject.get name NAME_NORMALIZATIONS with
  | JsObject.Own full =>
      if String.eqb full EmptyString then Str name else Str full
  | JsObject.Inherited key => Member key
  | JsObject.Undefined => Str name
  end.

(** [team.map(normalizeName)] on the two names of a team. *)
Definition normalizeTeam (team : string * string) : PlayerName * PlayerName :=
  (normalizeName (fst team), normalizeName (snd team)).

(** [s.toLowerCase().replace(/\s+/g, '-')] *)
Definition slug (s : string) : string :=
  JS.utf8 (JS.replaceWhiteSpace false (JS.toLowerCase (JS.utf16 s))).

Definition generateMatchId (tournament league group : string) (id : Z)
  : string :=
  slug tournament +:+ "_" +:+ slug league +:+ "_" +:+ group +:+ "_"
    +:+ JS.Number_toString id.

(** The raw data: a match of a group or of the playoff, with its
    number within the group. *)
Record RawMatch := {
  raw_id : Z;
  raw_court : option Z;
  raw_round : option string;
  raw_team1 : string * string;
  raw_team2 : string * string;
  raw_score : Z * Z
}.

Record RawGroup := {
  group_name : string;
  group_stage : option string;
  group_matches : list RawMatch
}.

Record RawPlayoff := {
  playoff_matches : option (list RawMatch)
}.

Record RawLeague := {
  league_name : string;
  league_groups : list RawGroup;
  league_playoff : option RawPlayoff
}.

Record RawData := {
  raw_tournament : string;
  raw_date : string;
  raw_leagues : list RawLeague
}.

(** A parsed match. *)
Record ParsedMatch := {
  parsed_id : string;
  parsed_date : string;
  parsed_tournament : string;
  parsed_league : string;
  parsed_group : string;
  parsed_stage : string;
  parsed_court : option Z;
  parsed_round : option string;
  parsed_team1 : PlayerName * PlayerName;
  parsed_team2 : PlayerName * PlayerName;
  parsed_score : Z * Z;
  parsed_winner : Z
}.

(** Body of the two [matches.forEach] loops: a draw is skipped, any
    other match is pushed. *)
Definition parseMatch (tournament date league group stage : string)
  (playoff : bool) (m : RawMatch) : list ParsedMatch :=
  if fst (raw_score m) =? snd (raw_score m) then []
  else
    let winner := if snd (raw_score m) <? fst (raw_score m) then 1 else 2 in
    let team1 := normalizeTeam (raw_team1 m) in
    let team2 := normalizeTeam (raw_team2 m) in
    [ {| parsed_id := generateMatchId tournament league group (raw_id m);
         parsed_date := date;
         parsed_tournament := tournament;
         parsed_league := league;
         parsed_group := group;
         parsed_stage := stage;
         parsed_court := if playoff then None else raw_court m;
         parsed_round := if playoff then raw_round m else None;
         parsed_team1 := team1;
         parsed_team2 := team2;
         parsed_score := raw_score m;
         parsed_winner := winner |} ].

Definition parseGroup (tournament date league : string) (group : RawGroup)
  : list ParsedMatch :=
  let stage :=
    match group_stage group with
    | Some s => if String.eqb s EmptyString then "qualification"%string else s
    | None => "qualification"%string
    end in
  flat_map (parseMatch tournament date league (group_name group) stage false)
    (group_matches group).

Definition parseLeague (tournament date : string) (league : RawLeague)
  : list ParsedMatch :=
  flat_map (parseGroup tournament date (league_name league))
    (league_groups league)
  ++ match league_playoff league with
     | Some {| playoff_matches := Some ms |} =>
         flat_map
           (parseMatch tournament date (league_name league) "playoff"
              "playoff" true) ms
     | _ => []
     end.

Definition parseRawTournamentData (rawData : RawData) : list ParsedMatch :=
  flat_map (parseLeague (raw_tournament rawData) (raw_date rawData))
    (raw_leagues rawData).

(** The rating engine is given for matches between players named by
    strings ([Match]): [core] is the parsed match as the engine reads
    it, when its four players are strings. *)
Definition playerId (n : PlayerName) : option string :=
  match n with
  | Str s => Some s
  | Member _ => None
  end.

Definition core (pm : ParsedMatch) : option Match :=
  match playerId (fst (parsed_team1 pm)), playerId (snd (parsed_team1 pm)),
        playerId (fst (parsed_team2 pm)), playerId (snd (parsed_team2 pm)) with
  | Some a, Some b, Some c, Some d =>
      Some {| id := parsed_id pm; date := parsed_date pm;
              team1 := (a, b); team2 := (c, d);
              score := parsed_score pm; winner := parsed_winner pm |}
  | _, _, _, _ => None
  end.

(** What a call of [loadTournamentData] comes to. *)
Inductive Loaded :=
  | Returns (result : Elo.Result)
  | Throws
  | NotStrings.

(** [processAllMatches(parseRawTournamentData(rawData))].  When a
    team of a parsed match holds a member of [Object.prototype],
    [processMatch] names a property of [ratingChanges] by the text the
    host gives for that member; this case, [NotStrings], is not
    followed further. *)
Definition loadTournamentData (Math_pow : float -> float -> float)
  (rawData : RawData) : Loaded :=
  match mapM core (parseRawTournamentData rawData) with
  | Some matches =>
      match Elo.processAllMatches Math_pow matches with
      | Some result => Returns result
      | None => Throws
      end
  | None => NotStrings
  end.

(** *** Queries on the processed data *)

(** [players.find(p => p.id === playerId) || null] *)
Definition getPlayerById (players : list Elo.Player) (playerId : string)
  : option Elo.Player :=
  List.find (fun p => String.eqb (Elo.player_id p) playerId) players.

(** [team.includes(playerId)] on the two names of a team. *)
Definition teamIncludes (team : string * string) (playerId : string) : bool :=
  String.eqb (fst team) playerId || String.eqb (snd team) playerId.

Definition getPlayerMatches (matches : list Elo.ProcessedMatch)
  (playerId : string) : list Elo.ProcessedMatch :=
  List.filter
    (fun pm =>
       teamIncludes (team1 (Elo.pm_match pm)) playerId
       || teamIncludes (team2 (Elo.pm_match pm)) playerId)
    matches.

(** The object returned by [getMatchDetails]; [partner] is [undefined]
    when both names of the team are the player's; [ratingChange] is
    what reading the object [ratingChanges] under the player's name
    finds. *)
Record MatchDetails := {
  partner : option string;
  opponents : string * string;
  playerWon : bool;
  playerScore : Z;
  opponentScore : Z;
  ratingChange : JsObject.Property float
}.

Definition getMatchDetails (pm : Elo.ProcessedMatch) (playerId : string)
  : MatchDetails :=
  let m := Elo.pm_match pm in
  let isTeam1 := teamIncludes (team1 m) playerId in
  let playerTeam := if isTeam1 then team1 m else team2 m in
  let opponentTeam := if isTeam1 then team2 m else team1 m in
  {| partner :=
       List.find (fun p => negb (String.eqb p playerId))
         [fst playerTeam; snd playerTeam];
     opponents := opponentTeam;
     playerWon :=
       (isTeam1 && (winner m =? 1)) || (negb isTeam1 && (winner m =? 2));
     playerScore := if isTeam1 then fst (score m) else snd (score m);
     opponentScore := if isTeam1 then snd (score m) else fst (score m);
     ratingChange := JsObject.get playerId (Elo.pm_ratingChanges pm) |}.

Record Stats := {
  totalGames : Z;
  totalPlayers : Z;
  avgRating : float;
  calibratedPlayers : Z
}.

Definition calculateStats (players : list Elo.Player)
  (matches : list Elo.ProcessedMatch) : Stats :=
  {| totalGames := Z.of_nat (length matches);
     totalPlayers := Z.of_nat (length players);
     avgRating :=
       JS.Math_round
         (fold_left (fun sum p => sum + Elo.currentRating p) players 0
          / JS.number (Z.of_nat (length players)))%float;
     calibratedPlayers :=
       Z.of_nat (length (List.filter Elo.isCalibrated players)) |}.

End DataManager.

(** ** The playoff bracket of the tournament pages
    ([renderPlayoffSection], the same in both pages)

    The matches of [playoff.matches] are raw matches; a match without
    [round] is a match whose round is [None]. *)

Module Bracket.

Definition roundOrder : list string :=
  ["1/8"; "1/4"; "1/2"; "semifinal"; "3rd_place"; "final"]%string.

(** [roundOrder.indexOf(round)]: -1 for a round that is not listed. *)
Fixpoint indexFrom (i : Z) (round : string) (l : list string) : Z :=
  match l with
  | [] => -1
  | r :: l' => if String.eqb round r then i else indexFrom (i + 1) round l'
  end.

Definition indexOf (round : option string) : Z :=
  match round with
  | Some r => indexFrom 0 r roundOrder
  | None => -1
  end.

(** Body of [playoff.matches.forEach]: the match is pushed to the
    list of its round, created when missing (so the lookup finds it). *)
Definition addToRound
  (rounds : list (option string * list DataManager.RawMatch))
  (m : DataManager.RawMatch)
  : list (option string * list DataManager.RawMatch) :=
  let round := DataManager.raw_round m in
  let rounds :=
    if OMap.has round rounds then rounds else OMap.set round [] rounds in
  match OMap.get round rounds with
  | Some l => OMap.set round (l ++ [m]) rounds
  | None => rounds
  end.

Definition groupByRound (ms : list DataManager.RawMatch)
  : list (option string * list DataManager.RawMatch) :=
  fold_left addToRound ms [].

(** [(a, b) => roundOrder.indexOf(a[0]) - roundOrder.indexOf(b[0])] is
    positive. *)
Definition byRoundOrder (a b : option string * list DataManager.RawMatch)
  : bool :=
  0 <? indexOf (fst a) - indexOf (fst b).

Definition sortedRounds (ms : list DataManager.RawMatch)
  : list (option string * list DataManager.RawMatch) :=
  JS.Array_sort byRoundOrder (groupByRound ms).

(** [['3rd_place', 'final'].includes(round)] *)
Definition isFinalRound (round : option string) : bool :=
  match round with
  | Some r => String.eqb r "3rd_place" || String.eqb r "final"
  | None => false
  end.

(** The rounds of the bracket, and those of the panel below it. *)
Definition mainRounds (ms : list DataManager.RawMatch)
  : list (option string * list DataManager.RawMatch) :=
  List.filter (fun e => negb (isFinalRound (fst e))) (sortedRounds ms).

Definition finalRounds (ms : list DataManager.RawMatch)
  : list (option string * list DataManager.RawMatch) :=
  List.filter (fun e => isFinalRound (fst e)) (sortedRounds ms).

(** The match of the panel for round [r]:
    [finalRounds.find(([round]) => round === r)], then [[1][0]];
    [None] when no panel is drawn for [r]. *)
Definition panelMatch (r : string) (ms : list DataManager.RawMatch)
  : option DataManager.RawMatch :=
  match
    List.find (fun e => bool_decide (fst e = Some r)) (finalRounds ms)
  with
  | Some e => head (snd e)
  | None => None
  end.

Definition finalMatch := panelMatch "final".
Definition thirdPlaceMatch := panelMatch "3rd_place".

End Bracket.

(** ** src/modules/ui.js: the computations of the rating page

    The page keeps [currentData], [filteredPlayers] and [currentPage]
    in module variables; they are parameters here.  What is written to
    the document is left out. *)

Module UI.

Definition ITEMS_PER_PAGE : Z := 15.

(** [renderRatingTable]: [startIndex], and [pageData], the rows of the
    current page. *)
Definition startIndex (currentPage : Z) : Z :=
  (currentPage - 1) * ITEMS_PER_PAGE.

Definition pageData {A : Type} (currentPage : Z) (filteredPlayers : list A)
  : list A :=
  let endIndex := startIndex currentPage + ITEMS_PER_PAGE in
  JS.Array_slice (startIndex currentPage) endIndex filteredPlayers.

(** Each row of the page with its [globalRank]. *)
Definition rankedPage {A : Type} (currentPage : Z) (filteredPlayers : list A)
  : list (Z * A) :=
  imap (fun index player =>
          (startIndex currentPage + Z.of_nat index + 1, player))
    (pageData currentPage filteredPlayers).

(** [Math.ceil(filteredPlayers.length / ITEMS_PER_PAGE)]: an array
    length is below [2^32], where the binary64 quotient has the
    ceiling of the exact one. *)
Definition totalPages {A : Type} (filteredPlayers : list A) : Z :=
  (Z.of_nat (length filteredPlayers) + ITEMS_PER_PAGE - 1) / ITEMS_PER_PAGE.

(** An entry of [pagesToShow]: a page number, or ['...']. *)
Inductive PageEntry := Page (n : Z) | Ellipsis.

(** [for (let i = lo; i <= hi; i++) pagesToShow.push(i)] *)
Definition pushRange (lo hi : Z) : list PageEntry :=
  Page <$> seqZ lo (hi - lo + 1).

(** [renderPagination]: the entries rendered between the two arrow
    buttons.  With at most one page the function returns before it
    builds any control, and there is none. *)
Definition pagesToShow (totalPages currentPage : Z) : list PageEntry :=
  if totalPages <=? 1 then []
  else if totalPages <=? 5 then pushRange 1 totalPages
  else
    [Page 1]
      ++ (if 3 <? currentPage then [Ellipsis] else [])
      ++ pushRange (Z.max 2 (currentPage - 1))
           (Z.min (totalPages - 1) (currentPage + 1))
      ++ (if currentPage <? totalPages - 2 then [Ellipsis] else [])
      ++ [Page totalPages].

Record WinStats := {
  wins : Z;
  total : Z;
  rate : float
}.

Definition calculateWinRate (currentData : option Elo.Result)
  (playerId : string) : WinStats :=
  match currentData with
  | None => {| wins := 0; total := 0; rate := 0 |}
  | Some data =>
      let playerMatches :=
        DataManager.getPlayerMatches (Elo.matches data) playerId in
      let wins :=
        Z.of_nat
          (length
             (List.filter
                (fun m =>
                   DataManager.playerWon
                     (DataManager.getMatchDetails m playerId))
                playerMatches)) in
      let rate :=
        if 0 <? Z.of_nat (length playerMatches)
        then JS.Math_round
               (JS.number wins / JS.number (Z.of_nat (length playerMatches))
                * 100)%float
        else 0%float in
      {| wins := wins; total := Z.of_nat (length playerMatches); rate := rate |}
  end.

(** [openPlayerModal]: [playerMatches.slice(-10).reverse()] *)
Definition recentMatches (playerMatches : list Elo.ProcessedMatch)
  : list Elo.ProcessedMatch :=
  reverse
    (JS.Array_slice (-10) (Z.of_nat (length playerMatches)) playerMatches).

(** A value of the map [ratingByMatch]. *)
Record RatingInfo := {
  info_before : float;
  info_after : float;
  info_change : float
}.

(** [player.ratingHistory.forEach((entry, index) => ...)]; [prev] is
    [player.ratingHistory[index - 1]], absent at index 0.  An entry
    whose [matchId] is [null] or the empty string is passed over. *)
Fixpoint ratingEntries (prev : option Elo.Snapshot)
  (history : list Elo.Snapshot) (ratingByMatch : list (string * RatingInfo))
  : list (string * RatingInfo) :=
  match history with
  | [] => ratingByMatch
  | entry :: rest =>
      let ratingByMatch :=
        match Elo.snap_matchId entry with
        | Some matchId =>
            if String.eqb matchId EmptyString then ratingByMatch
            else
              let prevRating :=
                match prev with
                | Some s => Elo.snap_rating s
                | None => 1500%float
                end in
              JsMap.set matchId
                {| info_before := prevRating;
                   info_after := Elo.snap_rating entry;
                   info_change := Elo.snap_change entry |}
                ratingByMatch
        | None => ratingByMatch
        end in
      ratingEntries (Some entry) rest ratingByMatch
  end.

Definition ratingByMatch (player : Elo.Player) : list (string * RatingInfo) :=
  ratingEntries None (Elo.ratingHistory player) [].

(** [ratingByMatch.get(match.id)]; [None] is the case in which the
    page prints ['?'] for the ratings before and after. *)
Definition ratingInfo (ratingByMatch : list (string * RatingInfo))
  (pm : Elo.ProcessedMatch) : option RatingInfo :=
  JsMap.get (id (Elo.pm_match pm)) ratingByMatch.

End UI.

(** ** One [Math.pow]

    ECMAScript leaves [Math.pow] implementation-approximated, apart
    from special cases such as [x ** ±0 = 1].  [RefPow.pow] is one
    such implementation (logarithm and exponential by series), used
    to run the engine on concrete matches. *)

Module RefPow.

Definition ln2 : float := 0x1.62e42fefa39efp-1%float.

(** [sum_{i < n} t^(2i+1) / (2i+1)], with [pw = t^(2i+1)] and [k = 2i+1] *)
Fixpoint atanh_series (n : nat) (t2 pw k : float) : float :=
  match n with
  | O => 0%float
  | S n' => (pw / k + atanh_series n' t2 (pw * t2) (k + 2))%float
  end.

Definition ln (x : float) : float :=
  let '(m, k) := FloatOps.Z.frexp x in
  let t := ((m - 1) / (m + 1))%float in
  (JS.number k * ln2 + 2 * atanh_series 24 (t * t) t 1)%float.

(** [sum_{i < n} r^i / i!], with [term = r^i / i!] *)
Fixpoint exp_series (n : nat) (r term i : float) : float :=
  match n with
  | O => 0%float
  | S n' => (term + exp_series n' r (term * r / i) (i + 1))%float
  end.

(** The integer value of an integral float. *)
Definition to_Z (x : float) : Z :=
  match Prim2SF x with
  | S754_finite s m e =>
      (if s then -1 else 1)
      * (if 0 <=? e then Z.pos m * 2 ^ e else Z.pos m / 2 ^ (- e))
  | _ => 0
  end.

Definition exp (y : float) : float :=
  let n := to_Z (JS.Math_round (y / ln2)) in
  let r := (y - JS.number n * ln2)%float in
  FloatOps.Z.ldexp (exp_series 24 r 1 1) n.

Definition pow (b e : float) : float :=
  if PrimFloat.is_zero e then 1%float
  else if PrimFloat.is_nan e then nan
  else exp (e * ln b).

End RefPow.

(** ** Vocabulary of the statements *)

(** A match that was played to a result, and a draw. *)
Definition played (m : Match) : Prop := fst (score m) ≠ snd (score m).
Definition drawn (m : Match) : Prop := fst (score m) = snd (score m).

#[global] Instance played_dec m : Decision (played m).
Proof. unfold played. apply _. Defined.

#[global] Instance drawn_dec m : Decision (drawn m).
Proof. unfold drawn. apply _. Defined.

(** Players in the order of their first appearance. *)
Definition addSeen (acc : list string) (x : string) : list string :=
  if bool_decide (x ∈ acc) then acc else acc ++ [x].

Definition firstSeen (l : list string) : list string :=
  fold_left addSeen l [].

Definition encountered (ms : list Match) : list string :=
  firstSeen (flat_map participants ms).

(** The two sort keys of a row. *)
Definition hasKeys (pts diff : Z) (r : TournamentUI.StandingsRow) : Prop :=
  TournamentUI.italianPoints (TournamentUI.row r) = pts
  ∧ TournamentUI.ballsDiff r = diff.

#[global] Instance hasKeys_dec pts diff r : Decision (hasKeys pts diff r).
Proof. unfold hasKeys. apply _. Defined.

(** [a] may stand before [b]: more Italian points, or as many and a
    points difference at least as large. *)
Definition ranksBefore (a b : TournamentUI.StandingsRow) : Prop :=
  TournamentUI.italianPoints (TournamentUI.row a)
    > TournamentUI.italianPoints (TournamentUI.row b)
  ∨ (TournamentUI.italianPoints (TournamentUI.row a)
       = TournamentUI.italianPoints (TournamentUI.row b)
     ∧ TournamentUI.ballsDiff a >= TournamentUI.ballsDiff b).

(** The accumulator of player [p] in a standings list. *)
Definition rowOf (p : string) (rows : list TournamentUI.StandingsRow)
  : option TournamentUI.StandingsRow :=
  head (filter (λ r, TournamentUI.name (TournamentUI.row r) = p) rows).

Definition accOf (currentGenderFilter : GenderFilter) (p : string)
  (ms : list Match) : option TournamentUI.PlayerAcc :=
  TournamentUI.row
    <$> rowOf p (TournamentUI.calculateStandings currentGenderFilter ms).

(** The numeric accumulators of a row: games, wins, losses, Italian
    points, points for, points against. *)
Definition numbers (a : TournamentUI.PlayerAcc) : Z * Z * Z * Z * Z * Z :=
  (TournamentUI.games a, TournamentUI.wins a, TournamentUI.losses a,
   TournamentUI.italianPoints a, TournamentUI.ballsFor a,
   TournamentUI.ballsAgainst a).

(** Merging two accumulators of one player field by field, as the
    specification describes it: the counters are summed (and the match
    details follow each other). *)
Definition mergeAcc (a b : TournamentUI.PlayerAcc) : TournamentUI.PlayerAcc :=
  {| TournamentUI.name := TournamentUI.name a;
     TournamentUI.gender := TournamentUI.gender a;
     TournamentUI.games := TournamentUI.games a + TournamentUI.games b;
     TournamentUI.wins := TournamentUI.wins a + TournamentUI.wins b;
     TournamentUI.losses := TournamentUI.losses a + TournamentUI.losses b;
     TournamentUI.italianPoints :=
       TournamentUI.italianPoints a + TournamentUI.italianPoints b;
     TournamentUI.ballsFor := TournamentUI.ballsFor a + TournamentUI.ballsFor b;
     TournamentUI.ballsAgainst :=
       TournamentUI.ballsAgainst a + TournamentUI.ballsAgainst b;
     TournamentUI.matchDetails :=
       TournamentUI.matchDetails a ++ TournamentUI.matchDetails b |}.

(** A player absent from one part contributes nothing. *)
Definition mergeOpt (x y : option TournamentUI.PlayerAcc)
  : option TournamentUI.PlayerAcc :=
  match x, y with
  | Some a, Some b => Some (mergeAcc a b)
  | Some a, None => Some a
  | None, _ => y
  end.

(** What a played match does to the accumulator of player [p]: one
    [credit] for each place [p] holds in it. *)
Definition creditsOf (m : Match) (p : string) (a : TournamentUI.PlayerAcc)
  : TournamentUI.PlayerAcc :=
  let s1 := fst (score m) in
  let s2 := snd (score m) in
  let w := s2 <? s1 in
  let a := if String.eqb p (fst (team1 m))
           then TournamentUI.credit (id m) s1 s2 w a else a in
  let a := if String.eqb p (snd (team1 m))
           then TournamentUI.credit (id m) s1 s2 w a else a in
  let a := if String.eqb p (fst (team2 m))
           then TournamentUI.credit (id m) s2 s1 (negb w) a else a in
  if String.eqb p (snd (team2 m))
  then TournamentUI.credit (id m) s2 s1 (negb w) a else a.

Definition matchEffect (p : string) (acc : option TournamentUI.PlayerAcc)
  (m : Match) : option TournamentUI.PlayerAcc :=
  if fst (score m) =? snd (score m) then acc
  else if bool_decide (p ∈ participants m)
       then Some (creditsOf m p (default (TournamentUI.newPlayer p) acc))
       else acc.

(** [x] occurs before [y] in [l]. *)
Definition before {A : Type} (x y : A) (l : list A) : Prop :=
  [x; y] `sublist_of` l.

(** Example data. *)
Definition mkMatch (i a b c d : string) (s1 s2 : Z) : Match :=
  {| id := i; date := "2025-01-25"; team1 := (a, b); team2 := (c, d);
     score := (s1, s2); winner := if s2 <? s1 then 1 else 2 |}.

Definition exampleGroup : list Match :=
  [ mkMatch "g1" "A" "B" "C" "D" 21 19;
    mkMatch "g2" "A" "C" "B" "D" 15 21;
    mkMatch "g3" "A" "D" "B" "C" 21 10 ].

(** The end-to-end scenario: A and B beat C and D 21-15. *)
Definition scenarioMatch : Match := mkMatch "m1" "A" "B" "C" "D" 21 15.

(** The same match with a player named [__proto__] in the place of B. *)
Definition protoMatch : Match := mkMatch "m1" "A" "__proto__" "C" "D" 21 15.

(** The rating change of participant [p] computed from the ratings
    [R] and the games counts [G] alone; [onTeam1] tells the side of
    [p].  A rating is what [R] holds for the player, 1500 standing in
    for a missing or falsy one; a games count is what [G] holds, 0 for
    a missing one. *)
Definition frozenDelta (Math_pow : float → float → float) (m : Match)
  (R : list (string * float)) (G : list (string * Z)) (onTeam1 : bool)
  (p : string) : float :=
  let stored q := JS.or_else (JsMap.get q R) 1500 in
  let opp := if onTeam1 then team2 m else team1 m in
  Elo.calculateRatingChange Math_pow (stored p)
    (Elo.calculateTeamRating (stored (fst opp)) (stored (snd opp)))
    (if onTeam1 then winner m =? 1 else negb (winner m =? 1))
    (JS.or_elseZ (JsMap.get p G) 0).

(** Match [m] records a rating change for [p]: [p] takes part in it
    and is not named [__proto__], the one name under which the object
    [ratingChanges] keeps no number. *)
Definition rated (p : string) (m : Match) : Prop :=
  p ≠ "__proto__"%string ∧ p ∈ participants m.

#[global] Instance rated_dec p m : Decision (rated p m).
Proof. unfold rated. apply _. Defined.

(** The synthetic first entry of a rating history. *)
Definition initialSnapshot (s : Elo.Snapshot) : Prop :=
  Elo.snap_rating s = Elo.INITIAL_RATING
  ∧ Elo.snap_matchId s = None
  ∧ Elo.snap_change s = 0%float.

(** [1500 + change_0 + change_1 + ...], summed from the left. *)
Definition sumChanges (h : list Elo.Snapshot) : float :=
  fold_left (λ acc s, (acc + Elo.snap_change s)%float) h Elo.INITIAL_RATING.

(** A rating, a games count and a history that agree. *)
Definition Consistent (r : float) (g : Z) (h : list Elo.Snapshot) : Prop :=
  Z.of_nat (length h) = g + 1
  ∧ (∃ s, head h = Some s ∧ initialSnapshot s)
  ∧ r = sumChanges h.

(** One record of the [players] array agrees with its history. *)
Definition recordConsistent (rec : Elo.Player) : Prop :=
  ∃ g,
    Elo.gamesPlayed rec = Some g
    ∧ Consistent (Elo.currentRating rec) g (Elo.ratingHistory rec)
    ∧ (∃ s, last (Elo.ratingHistory rec) = Some s
            ∧ Elo.lastChange rec = Elo.snap_change s)
    ∧ (length (Elo.ratingHistory rec) = 1%nat → Elo.lastChange rec = 0%float).

(** The snapshot pushed for a player whose rating becomes [r] by the
    change [c] in match [m]. *)
Definition snapshotOf (m : Match) (r c : float) : Elo.Snapshot :=
  {| Elo.snap_date := date m; Elo.snap_rating := r;
     Elo.snap_matchId := Some (id m); Elo.snap_change := c |}.

(** State [st'] is state [st] with the changes [es] applied: a player
    with an entry in [es] has the change added to the rating, one game
    more and one snapshot more; every other player is untouched. *)
Definition appliedTo (m : Match) (es : list (string * float))
  (st st' : Elo.State) : Prop :=
  ∀ p,
    match JsMap.get p es with
    | Some c =>
        ∃ r g h,
          JsMap.get p (Elo.playerRatings st) = Some r
          ∧ JsMap.get p (Elo.playerGames st) = Some g
          ∧ JsMap.get p (Elo.playerHistory st) = Some h
          ∧ JsMap.get p (Elo.playerRatings st') = Some (r + c)%float
          ∧ JsMap.get p (Elo.playerGames st') = Some (g + 1)
          ∧ JsMap.get p (Elo.playerHistory st')
            = Some (h ++ [snapshotOf m (r + c)%float c])
    | None =>
        JsMap.get p (Elo.playerRatings st') = JsMap.get p (Elo.playerRatings st)
        ∧ JsMap.get p (Elo.playerGames st') = JsMap.get p (Elo.playerGames st)
        ∧ JsMap.get p (Elo.playerHistory st')
          = JsMap.get p (Elo.playerHistory st)
    end.

(** A ratings map in which player A, who has twenty games behind, has
    fallen to a rating of 0. *)
Definition ratingsWithZero : list (string * float) :=
  [("A", 0%float); ("B", 1500%float); ("C", 1500%float); ("D", 1500%float)].

Definition twentyGames : list (string * Z) :=
  [("A", 20); ("B", 20); ("C", 20); ("D", 20)].

(** A state of [processAllMatches] with these maps (the histories are
    cut down to their initial snapshot). *)
Definition stateWithZero : Elo.State :=
  {| Elo.playerRatings := ratingsWithZero;
     Elo.playerGames := twentyGames;
     Elo.playerHistory :=
       (λ p, (p, [ {| Elo.snap_date := "2025-01-25";
                      Elo.snap_rating := Elo.INITIAL_RATING;
                      Elo.snap_matchId := None;
                      Elo.snap_change := 0 |} ]))
         <$> ["A"; "B"; "C"; "D"];
     Elo.processedMatches := [] |}.

(** The number of matches of [pre] in which [p] takes part. *)
Definition playedBy (p : string) (pre : list Match) : Z :=
  Z.of_nat (length (filter (λ m, p ∈ participants m) pre)).

(** The number of matches of [pre] that record a change for [p]. *)
Definition ratedCount (p : string) (pre : list Match) : Z :=
  Z.of_nat (length (filter (rated p) pre)).

(** What the three maps of a state hold for a player. *)
Definition view (st : Elo.State) (q : string)
  : option float * option Z * option (list Elo.Snapshot) :=
  (JsMap.get q (Elo.playerRatings st), JsMap.get q (Elo.playerGames st),
   JsMap.get q (Elo.playerHistory st)).

(** The matches of [ms] in which [p] takes part, in their order. *)
Definition matchesOf (p : string) (ms : list Match) : list Match :=
  filter (λ m, p ∈ participants m) ms.

(** The snapshot a player gets when first met, in match [m]. *)
Definition firstSnapshot (m : Match) : Elo.Snapshot :=
  {| Elo.snap_date := date m; Elo.snap_rating := Elo.INITIAL_RATING;
     Elo.snap_matchId := None; Elo.snap_change := 0 |}.

(** Each snapshot holds the rating of the snapshot before it plus its
    own change. *)
Definition Chained (h : list Elo.Snapshot) : Prop :=
  ∀ i s s',
    h !! i = Some s → h !! S i = Some s' →
    Elo.snap_rating s' = (Elo.snap_rating s + Elo.snap_change s')%float.

(** The snapshots [ext] are those of player [p] in the processed
    matches [pms]: one for each match that records a change for [p],
    in order, with the identifier and the date of the match and the
    change the match records for [p]. *)
Definition Logged (p : string) (ext : list Elo.Snapshot)
  (pms : list Elo.ProcessedMatch) : Prop :=
  Forall2
    (λ s pm,
       Elo.snap_matchId s = Some (id (Elo.pm_match pm))
       ∧ Elo.snap_date s = date (Elo.pm_match pm)
       ∧ JsMap.get p (Elo.pm_ratingChanges pm) = Some (Elo.snap_change s))
    ext (filter (λ pm, rated p (Elo.pm_match pm)) pms).

(** A name that is an array index, and the order of two names by
    their indices. *)
Definition isIndex (k : string) : Prop := is_Some (JsObject.arrayIndex k).

Definition indexLe (a b : string) : Prop :=
  default 0 (JsObject.arrayIndex a) <= default 0 (JsObject.arrayIndex b).

(** The names [ks] stand as an object lists its own properties after
    numbers were assigned under the names [l], in that order: first
    the array indices, ascending, then the other names except
    [__proto__], in the order of their first assignment. *)
Definition Enumerated (l ks : list string) : Prop :=
  ∃ idx rest,
    ks = idx ++ rest
    ∧ Forall isIndex idx
    ∧ StronglySorted indexLe idx
    ∧ rest = filter (λ q, ¬ isIndex q ∧ q ≠ "__proto__"%string) (firstSeen l).

(** The rating changes a processed match carries are those of the
    players it rates, one for each, listed as the object lists them. *)
Definition Annotated (pm : Elo.ProcessedMatch) : Prop :=
  NoDup (JsMap.keys (Elo.pm_ratingChanges pm))
  ∧ (∀ q, q ∈ JsMap.keys (Elo.pm_ratingChanges pm)
          ↔ rated q (Elo.pm_match pm))
  ∧ Enumerated (participants (Elo.pm_match pm))
      (JsMap.keys (Elo.pm_ratingChanges pm)).

(** What the record of a player says, against the match list [ms] and
    the processed matches [pms]. *)
Definition Faithful (ms : list Match) (pms : list Elo.ProcessedMatch)
  (rec : Elo.Player) : Prop :=
  let p := Elo.player_id rec in
  Elo.player_name rec = p
  ∧ Elo.gamesPlayed rec = Some (ratedCount p ms)
  ∧ Elo.isCalibrated rec = (Elo.CALIBRATION_GAMES <=? ratedCount p ms)
  ∧ Chained (Elo.ratingHistory rec)
  ∧ (∃ s, last (Elo.ratingHistory rec) = Some s
          ∧ Elo.snap_rating s = Elo.currentRating rec)
  ∧ ∃ m0 ext,
      head (matchesOf p ms) = Some m0
      ∧ Elo.ratingHistory rec = firstSnapshot m0 :: ext
      ∧ Logged p ext pms.

(** Equality of two numbers as values (not the comparison [==], which
    separates [NaN] from itself). *)
#[global] Instance float_eq_dec : EqDecision float.
Proof.
  intros x y. destruct (PrimFloat.Leibniz.eqb x y) eqn:E.
  - left. now apply FloatAxioms.Leibniz.eqb_spec.
  - right. intros H. apply FloatAxioms.Leibniz.eqb_spec in H. congruence.
Defined.


#[global] Instance Gender_eq_dec : EqDecision Gender.
Proof. solve_decision. Defined.

(** A map with a function applied to every value. *)
Definition mapValues {V W : Type} (f : V → W) (M : list (string * V))
  : list (string * W) :=
  (λ e, (fst e, f (snd e))) <$> M.

(** The columns the table ranked by wins shares with the table ranked
    by Italian points. *)
Definition toWinsRow (a : TournamentUI.PlayerAcc) : WinsTable.PlayerAcc :=
  {| WinsTable.name := TournamentUI.name a;
     WinsTable.games := TournamentUI.games a;
     WinsTable.wins := TournamentUI.wins a;
     WinsTable.losses := TournamentUI.losses a;
     WinsTable.pointsFor := TournamentUI.ballsFor a;
     WinsTable.pointsAgainst := TournamentUI.ballsAgainst a |}.


(** The matches of the raw data in the order in which
    [parseRawTournamentData] visits them: league by league, the groups
    of a league before its playoff. *)
Definition rawMatches (rawData : DataManager.RawData)
  : list DataManager.RawMatch :=
  flat_map
    (λ league,
       flat_map DataManager.group_matches (DataManager.league_groups league)
       ++ match DataManager.league_playoff league with
          | Some {| DataManager.playoff_matches := Some ms |} => ms
          | _ => []
          end)
    (DataManager.raw_leagues rawData).

(** The raw matches that are not draws. *)
Definition rawDecided (ms : list DataManager.RawMatch)
  : list DataManager.RawMatch :=
  filter (λ m, fst (DataManager.raw_score m) ≠ snd (DataManager.raw_score m))
    ms.

(** The four names of a raw match. *)
Definition rawNames (m : DataManager.RawMatch) : list string :=
  [ fst (DataManager.raw_team1 m); snd (DataManager.raw_team1 m);
    fst (DataManager.raw_team2 m); snd (DataManager.raw_team2 m) ].

(** What the rating engine reads of a parsed match. *)
Definition engineFields (pm : DataManager.ParsedMatch) :=
  (DataManager.parsed_date pm, DataManager.parsed_team1 pm,
   DataManager.parsed_team2 pm, DataManager.parsed_score pm,
   DataManager.parsed_winner pm).

(** The same fields as the raw match gives them, for a tournament on
    [date]. *)
Definition expectedFields (date : string) (m : DataManager.RawMatch) :=
  (date, DataManager.normalizeTeam (DataManager.raw_team1 m),
   DataManager.normalizeTeam (DataManager.raw_team2 m),
   DataManager.raw_score m,
   if snd (DataManager.raw_score m) <? fst (DataManager.raw_score m)
   then 1 else 2).

(** Example raw data: one group of two matches, the second a draw. *)
Definition exampleRaw : DataManager.RawData :=
  {| DataManager.raw_tournament := "Winter Cup";
     DataManager.raw_date := "2025-01-25";
     DataManager.raw_leagues :=
       [ {| DataManager.league_name := "Top";
            DataManager.league_groups :=
              [ {| DataManager.group_name := "A";
                   DataManager.group_stage := None;
                   DataManager.group_matches :=
                     [ {| DataManager.raw_id := 1;
                          DataManager.raw_court := Some 1;
                          DataManager.raw_round := None;
                          DataManager.raw_team1 := ("A", "Захарченко Вл.");
                          DataManager.raw_team2 := ("C", "D");
                          DataManager.raw_score := (21, 15) |};
                       {| DataManager.raw_id := 2;
                          DataManager.raw_court := Some 1;
                          DataManager.raw_round := None;
                          DataManager.raw_team1 := ("A", "C");
                          DataManager.raw_team2 := ("Захарченко Вл.", "D");
                          DataManager.raw_score := (15, 15) |} ] |} ];
            DataManager.league_playoff := None |} ] |}%string.

(** The sum of a list of integers. *)
Definition sumZ (l : list Z) : Z := fold_right Z.add 0 l.

(** The scores of the matches add up to at most [2^53] in size.  Every
    sum of scores of some of the matches, in any order, and every
    difference of two such sums is then an integer that binary64
    holds, and each addition and subtraction that leads to it is
    exact. *)
Definition SafeScores (ms : list Match) : Prop :=
  sumZ ((λ m, Z.abs (fst (score m)) + Z.abs (snd (score m))) <$> ms) <= 2 ^ 53.

(** The points of a line of the season rating are those the Italian
    system gives for its result and its difference; a line without a
    difference, a draw, has none. *)
Definition LineOK (line : Db.StageMatch) : Prop :=
  Db.sm_points line
  = if Db.sm_diff line =? 0 then 0
    else if Db.sm_won line
         then (if Db.sm_diff line =? 2 then 2 else 3)
         else (if Db.sm_diff line =? 2 then 1 else 0).

(** A stage of a player holds at least one line, and its points are the
    sum of the points of its lines. *)
Definition StageOK (sd : Db.StageData) : Prop :=
  Db.points sd = sumZ (Db.sm_points <$> Db.stage_matches sd)
  ∧ Db.stage_matches sd ≠ []
  ∧ Forall LineOK (Db.stage_matches sd).

(** The total of a player is the sum of the points of the stages. *)
Definition PlayerOK (p : Db.SeasonPlayer) : Prop :=
  Db.total p = sumZ ((Db.points ∘ snd) <$> Db.stages p)
  ∧ Forall (λ e, StageOK (snd e)) (Db.stages p).

(** The invariant of the map of players in [getSeasonRating]. *)
Definition SeasonInv (M : list (Z * Db.SeasonPlayer)) : Prop :=
  NoDup (OMap.keys M)
  ∧ Forall (λ e, Db.sp_id (snd e) = fst e ∧ PlayerOK (snd e)) M.

(** The identifiers of the four players of a row. *)
Definition rowIds (row : Db.MatchRow) : list Z :=
  [Db.ref_id (Db.p1 row); Db.ref_id (Db.p2 row);
   Db.ref_id (Db.p3 row); Db.ref_id (Db.p4 row)].

(** The matches of round [r], in their order. *)
Definition ofRound (r : option string) (ms : list DataManager.RawMatch)
  : list DataManager.RawMatch :=
  filter (λ m, DataManager.raw_round m = r) ms.

(** Predicates on the standings table. *)

Section TableVocabulary.
Import TournamentUI.
Implicit Types (M : list (string * PlayerAcc)) (x : option PlayerAcc) (p : string).

(** Every accumulator sits under its player's name. *)
Definition WellNamed M : Prop := Forall (λ e, name (snd e) = fst e) M.

(** The comparator of [calculateStandings] is positive. *)
Definition rowGt (a b : StandingsRow) : bool := 0 <? compareRows a b.

(** The accumulator of [p] carries the gender computed from [p]. *)
Definition OfPlayer p x : Prop :=
  ∀ a, x = Some a → gender a = getGender (JS.utf16 p).

Definition admits (f : GenderFilter) (g : Gender) : bool :=
  match f with
  | FilterAll => true
  | FilterOnly g' => gender_eqb g g'
  end.

Definition keepIf (f : GenderFilter) x : option PlayerAcc :=
  match x with
  | Some a => if passesFilter f a then Some a else None
  | None => None
  end.

(** Sum of the numeric accumulators, an absent player counting for
    nothing. *)
Definition addNumbers (u v : option (Z * Z * Z * Z * Z * Z))
  : option (Z * Z * Z * Z * Z * Z) :=
  match u, v with
  | Some (g1, w1, l1, i1, f1, a1), Some (g2, w2, l2, i2, f2, a2) =>
      Some (g1 + g2, w1 + w2, l1 + l2, i1 + i2, f1 + f2, a1 + a2)
  | Some n, None => Some n
  | None, _ => v
  end.

End TableVocabulary.

(** Predicates on the state of the Elo engine. *)

Section EloVocabulary.
Import Elo.
Implicit Types (st S T : State) (p q : string).

(** The three maps hold the same players. *)
Definition Coherent st : Prop :=
  NoDup (JsMap.keys (playerRatings st))
  ∧ JsMap.keys (playerGames st) = JsMap.keys (playerRatings st)
  ∧ JsMap.keys (playerHistory st) = JsMap.keys (playerRatings st).

Definition known st p : Prop := p ∈ JsMap.keys (playerRatings st).

(** Every player's rating, games count and history agree. *)
Definition Sound st : Prop :=
  ∀ p r g h,
    JsMap.get p (playerRatings st) = Some r →
    JsMap.get p (playerGames st) = Some g →
    JsMap.get p (playerHistory st) = Some h →
    Consistent r g h.

(** [S] holds for every player of [T] what [T] holds. *)
Definition Agree S T : Prop := ∀ q, known T q → view S q = view T q.

(** Every known player is at the initial rating with no game. *)
Definition AllInitial st : Prop :=
  ∀ q, known st q →
       JsMap.get q (playerRatings st) = Some INITIAL_RATING
       ∧ JsMap.get q (playerGames st) = Some 0.

(** The current rating of every player is the rating of the last
    snapshot of a chained history. *)
Definition Tracked st : Prop :=
  ∀ p r h,
    JsMap.get p (playerRatings st) = Some r →
    JsMap.get p (playerHistory st) = Some h →
    Chained h ∧ ∃ s, last h = Some s ∧ snap_rating s = r.

(** After the first loop over the matches [done]: the players of
    [done] are known, each with the first snapshot of the first match
    the player takes part in. *)
Definition Dated (done : list Match) st : Prop :=
  (∀ q, (∃ m, m ∈ done ∧ q ∈ participants m) → known st q)
  ∧ ∀ q h,
      JsMap.get q (playerHistory st) = Some h →
      ∃ m0, head (matchesOf q done) = Some m0 ∧ h = [firstSnapshot m0].

End EloVocabulary.

(** * Properties *)

(** ** The runtime model on a few values *)

Example Math_round_values :
  JS.Math_round <$> [2.5; (-2.5); 0.5; (-0.5); 17.75; (-17.75); 20; nan]%float
  = [3; (-2); 1; (-0); 18; (-18); 20; nan]%float.
Proof. reflexivity. Qed.

Example or_else_values :
  (λ v, JS.or_else v 1500)
    <$> [None; Some 0%float; Some (-0)%float; Some nan; Some 1480%float]
  = [1500; 1500; 1500; 1500; 1480]%float.
Proof. reflexivity. Qed.

Example utf16_values :
  JS.utf16 "Илья" = [1048; 1083; 1100; 1103]
  ∧ JS.utf16 "Ek." = [69; 107; 46]
  ∧ JS.split 32 (JS.utf16 "a b  c") = [[97]; [98]; []; [99]].
Proof. repeat split. Qed.

(** A plain object lists the names that are array indices first, in
    ascending order, whatever the order of the assignments; it keeps
    nothing under [__proto__]; and reading a name it does not own
    finds the member of the prototype of that name. *)
Example object_values :
  JsObject.set "10" 1 (JsObject.set "B" 2 (JsObject.set "__proto__" 3
    (JsObject.set "9" 4 (JsObject.set "A" 5 (JsObject.set "007" 6 [])))))
  = [("9", 4); ("10", 1); ("007", 6); ("A", 5); ("B", 2)]
  ∧ JsObject.get "A" [("A", 5)] = JsObject.Own 5
  ∧ JsObject.get "toString" [("A", 5)] = JsObject.Inherited "toString"
  ∧ JsObject.get "__proto__" [("A", 5)] = JsObject.Inherited "__proto__"
  ∧ JsObject.get "B" [("A", 5)] = JsObject.Undefined.
Proof. repeat split. Qed.

(** A second match on top of the scenario: A and C (1520 and 1480)
    lose to B and D (1520 and 1480); the favourite B gains 19, the
    underdog D gains 21. *)
Example two_matches :
  (λ out, (λ p, (Elo.player_id p, Elo.currentRating p, Elo.lastChange p))
            <$> Elo.players out)
    <$> Elo.processAllMatches RefPow.pow
          [scenarioMatch; mkMatch "m2" "A" "C" "B" "D" 15 21]
  = Some [ ("B", 1539%float, 19%float); ("D", 1501%float, 21%float);
           ("A", 1499%float, (-21)%float); ("C", 1461%float, (-19)%float) ].
Proof. vm_compute. reflexivity. Qed.

(** ** Insertion-ordered maps *)

Section JsMapFacts.
Context {V : Type}.
Implicit Types (k : string) (v : V) (m : list (string * V)).

Lemma get_set_eq k v m : JsMap.get k (JsMap.set k v m) = Some v.
Proof.
  induction m as [|[k' v'] m IH]; simpl.
  - now rewrite String.eqb_refl.
  - destruct (String.eqb k k') eqn:E; simpl; rewrite ?String.eqb_refl, ?E; auto.
Qed.

Lemma get_set_ne k k' v m :
  k ≠ k' → JsMap.get k (JsMap.set k' v m) = JsMap.get k m.
Proof.
  intros Hne. induction m as [|[k2 v2] m IH]; simpl.
  - apply String.eqb_neq in Hne. now rewrite Hne.
  - destruct (String.eqb k' k2) eqn:E; simpl.
    + apply String.eqb_eq in E. subst k2.
      apply String.eqb_neq in Hne. now rewrite Hne.
    + now rewrite IH.
Qed.

Lemma get_set k k' v m :
  JsMap.get k (JsMap.set k' v m)
  = if String.eqb k k' then Some v else JsMap.get k m.
Proof.
  destruct (String.eqb_spec k k') as [->|Hne].
  - apply get_set_eq.
  - now apply get_set_ne.
Qed.

Lemma get_Some_elem k v m : JsMap.get k m = Some v → (k, v) ∈ m.
Proof.
  induction m as [|[k' v'] m IH]; simpl; [discriminate|].
  destruct (String.eqb_spec k k') as [->|Hne].
  - intros [= ->]. left.
  - intros H. right. auto.
Qed.

Lemma get_None_keys k m : JsMap.get k m = None ↔ k ∉ JsMap.keys m.
Proof.
  unfold JsMap.keys. induction m as [|[k' v'] m IH]; simpl.
  - split; [intros _; apply not_elem_of_nil | reflexivity].
  - rewrite not_elem_of_cons.
    destruct (String.eqb_spec k k') as [->|Hne].
    + split; [discriminate | intros [H _]; congruence].
    + rewrite IH. tauto.
Qed.

Lemma get_Some_keys k v m : JsMap.get k m = Some v → k ∈ JsMap.keys m.
Proof.
  intros H. apply get_Some_elem in H. unfold JsMap.keys.
  apply list_elem_of_fmap. exists (k, v). auto.
Qed.

Lemma keys_get k m : k ∈ JsMap.keys m → ∃ v, JsMap.get k m = Some v.
Proof.
  intros Hin. destruct (JsMap.get k m) eqn:E; [eauto|].
  apply get_None_keys in E. contradiction.
Qed.

Lemma has_true k m : JsMap.has k m = true ↔ k ∈ JsMap.keys m.
Proof.
  unfold JsMap.has. split.
  - destruct (JsMap.get k m) eqn:E; [|discriminate].
    intros _. eapply get_Some_keys; eauto.
  - intros H. destruct (keys_get _ _ H) as [v ->]. reflexivity.
Qed.

Lemma has_false k m : JsMap.has k m = false ↔ k ∉ JsMap.keys m.
Proof.
  rewrite <- has_true. destruct (JsMap.has k m); split; congruence.
Qed.

Lemma set_present k v m :
  k ∈ JsMap.keys m → JsMap.keys (JsMap.set k v m) = JsMap.keys m.
Proof.
  unfold JsMap.keys. induction m as [|[k' v'] m IH]; simpl.
  - intros H. now apply elem_of_nil in H.
  - rewrite elem_of_cons.
    destruct (String.eqb_spec k k') as [->|Hne]; simpl; [reflexivity|].
    intros [E|Hin]; [congruence|]. f_equal. now apply IH.
Qed.

Lemma set_absent k v m : k ∉ JsMap.keys m → JsMap.set k v m = m ++ [(k, v)].
Proof.
  unfold JsMap.keys. induction m as [|[k' v'] m IH]; simpl; [reflexivity|].
  rewrite not_elem_of_cons.
  destruct (String.eqb_spec k k') as [->|Hne]; simpl.
  - intros [H _]. congruence.
  - intros [_ H]. now rewrite IH.
Qed.

Lemma keys_set k v m :
  JsMap.keys (JsMap.set k v m)
  = if JsMap.has k m then JsMap.keys m else JsMap.keys m ++ [k].
Proof.
  destruct (JsMap.has k m) eqn:E.
  - apply set_present. now apply has_true.
  - apply has_false in E. rewrite set_absent by assumption.
    unfold JsMap.keys. now rewrite fmap_app.
Qed.

Lemma elem_of_keys_set k k' v m :
  k ∈ JsMap.keys (JsMap.set k' v m) ↔ k = k' ∨ k ∈ JsMap.keys m.
Proof.
  rewrite keys_set. destruct (JsMap.has k' m) eqn:E.
  - apply has_true in E. split; [tauto | intros [->|H]; assumption].
  - rewrite elem_of_app, list_elem_of_singleton. tauto.
Qed.

Lemma NoDup_keys_set k v m :
  NoDup (JsMap.keys m) → NoDup (JsMap.keys (JsMap.set k v m)).
Proof.
  intros Hnd. rewrite keys_set. destruct (JsMap.has k m) eqn:E; [assumption|].
  apply has_false in E. apply NoDup_app. repeat split; auto.
  - intros x Hx Hk. apply list_elem_of_singleton in Hk. congruence.
  - apply NoDup_singleton.
Qed.

Lemma elem_get k v m : NoDup (JsMap.keys m) → (k, v) ∈ m → JsMap.get k m = Some v.
Proof.
  unfold JsMap.keys. induction m as [|[k' v'] m IH]; simpl.
  - intros _ H. now apply elem_of_nil in H.
  - rewrite NoDup_cons, elem_of_cons.
    intros [Hnotin Hnd] Hin.
    destruct (String.eqb_spec k k') as [->|Hne].
    + destruct Hin as [[= ->]|Hin]; [reflexivity|].
      exfalso. apply Hnotin. apply list_elem_of_fmap. exists (k', v). auto.
    + destruct Hin as [[= -> ->]|Hin]; [congruence|]. auto.
Qed.

End JsMapFacts.

(** ** Plain objects *)

Section JsObjectFacts.
Context {V : Type}.
Implicit Types (k p : string) (v : V) (o : list (string * V)).

Lemma insertIndex_perm n k v o : JsObject.insertIndex n k v o ≡ₚ (k, v) :: o.
Proof.
  induction o as [|[k' v'] o IH]; cbn [JsObject.insertIndex]; [reflexivity|].
  destruct (JsObject.arrayIndex k') as [n'|]; [|reflexivity].
  destruct (n' <? n); [|reflexivity].
  rewrite IH. apply perm_swap.
Qed.

Lemma get_insertIndex p n k v o :
  k ∉ JsMap.keys o →
  JsMap.get p (JsObject.insertIndex n k v o)
  = if String.eqb p k then Some v else JsMap.get p o.
Proof.
  unfold JsMap.keys.
  induction o as [|[k' v'] o IH]; intros Hk; cbn [JsObject.insertIndex];
    [reflexivity|].
  rewrite fmap_cons, not_elem_of_cons in Hk. destruct Hk as [Hne Hk].
  cbn [fst] in Hne.
  destruct (JsObject.arrayIndex k') as [n'|]; [|reflexivity].
  destruct (n' <? n); [|reflexivity].
  cbn [JsMap.get]. rewrite (IH Hk).
  destruct (String.eqb_spec p k') as [->|_]; [|reflexivity].
  apply not_eq_sym, String.eqb_neq in Hne. now rewrite Hne.
Qed.

(** The own property read after an assignment. *)
Lemma obj_get_set p k v o :
  JsMap.get p (JsObject.set k v o)
  = if String.eqb k "__proto__" then JsMap.get p o
    else if String.eqb p k then Some v else JsMap.get p o.
Proof.
  unfold JsObject.set. destruct (String.eqb k "__proto__"); [reflexivity|].
  destruct (JsMap.has k o) eqn:E; [apply get_set|].
  destruct (JsObject.arrayIndex k); [|apply get_set].
  apply get_insertIndex. now apply has_false.
Qed.

Lemma obj_keys_set x k v o :
  x ∈ JsMap.keys (JsObject.set k v o)
  ↔ (x = k ∧ k ≠ "__proto__"%string) ∨ x ∈ JsMap.keys o.
Proof.
  unfold JsObject.set.
  destruct (String.eqb_spec k "__proto__") as [->|Hne]; [tauto|].
  assert (H : x ∈ JsMap.keys (JsMap.set k v o) ↔ x = k ∨ x ∈ JsMap.keys o)
    by apply elem_of_keys_set.
  destruct (JsMap.has k o); [tauto|].
  destruct (JsObject.arrayIndex k); [|tauto].
  unfold JsMap.keys. rewrite insertIndex_perm, fmap_cons, elem_of_cons. tauto.
Qed.

Lemma obj_NoDup_set k v o :
  NoDup (JsMap.keys o) → NoDup (JsMap.keys (JsObject.set k v o)).
Proof.
  intros Hnd. unfold JsObject.set.
  destruct (String.eqb k "__proto__"); [assumption|].
  destruct (JsMap.has k o) eqn:E; [now apply NoDup_keys_set|].
  destruct (JsObject.arrayIndex k); [|now apply NoDup_keys_set].
  unfold JsMap.keys. rewrite insertIndex_perm, fmap_cons.
  apply NoDup_cons. split; [now apply has_false | assumption].
Qed.

End JsObjectFacts.

(** ** Names in the order of their first appearance *)

Lemma NoDup_addSeen acc x : NoDup acc → NoDup (addSeen acc x).
Proof.
  unfold addSeen. intros H. destruct (decide (x ∈ acc)) as [Hin|Hin].
  - now rewrite bool_decide_eq_true_2.
  - rewrite bool_decide_eq_false_2 by assumption.
    apply NoDup_app. repeat split; [assumption| |apply NoDup_singleton].
    intros y Hy Hx. apply list_elem_of_singleton in Hx. congruence.
Qed.

Lemma NoDup_firstSeen l : NoDup (firstSeen l).
Proof.
  unfold firstSeen. assert (H : NoDup (@nil string)) by constructor.
  revert H. generalize (@nil string).
  induction l as [|x l IH]; intros acc H; [assumption|].
  cbn [fold_left]. now apply IH, NoDup_addSeen.
Qed.

Lemma elem_of_firstSeen l x : x ∈ firstSeen l ↔ x ∈ l.
Proof.
  unfold firstSeen.
  assert (H : ∀ acc, x ∈ fold_left addSeen l acc ↔ x ∈ l ∨ x ∈ acc).
  { induction l as [|y l IH]; intros acc; cbn [fold_left].
    - rewrite elem_of_nil. tauto.
    - rewrite IH, elem_of_cons. unfold addSeen.
      destruct (decide (y ∈ acc)) as [Hy|Hy].
      + rewrite bool_decide_eq_true_2 by assumption.
        split; [tauto|]. intros [[->|H]|H]; tauto.
      + rewrite bool_decide_eq_false_2 by assumption.
        rewrite elem_of_app, list_elem_of_singleton. tauto. }
  rewrite H, elem_of_nil. tauto.
Qed.

Lemma firstSeen_snoc l k : firstSeen (l ++ [k]) = addSeen (firstSeen l) k.
Proof. unfold firstSeen. now rewrite fold_left_app. Qed.

(** ** The order in which an object lists its properties *)

Section ObjectOrder.
Context {V : Type}.
Implicit Types (k : string) (v : V) (o : list (string * V)).

Lemma keys_insertIndex n k v :
  JsObject.arrayIndex k = Some n →
  ∀ idx o rest,
    JsMap.keys o = idx ++ rest →
    Forall isIndex idx → StronglySorted indexLe idx →
    Forall (λ q, ¬ isIndex q) rest →
    ∃ idx',
      JsMap.keys (JsObject.insertIndex n k v o) = idx' ++ rest
      ∧ idx' ≡ₚ k :: idx
      ∧ StronglySorted indexLe idx'.
Proof.
  intros Hk. unfold JsMap.keys.
  induction idx as [|a idx IH]; intros o rest Ho Hidx Hs Hrest.
  - exists [k]. split; [|split; [reflexivity | repeat constructor]].
    destruct o as [|[k' v'] o]; [cbn in *; now rewrite <- Ho|].
    cbn [JsObject.insertIndex]. cbn in Ho. rewrite <- Ho in Hrest.
    apply Forall_cons in Hrest as [Hk' _].
    destruct (JsObject.arrayIndex k') as [n'|] eqn:E.
    + exfalso. apply Hk'. unfold isIndex. rewrite E. eauto.
    + cbn. now rewrite <- Ho.
  - destruct o as [|[k' v'] o]; [discriminate|].
    cbn in Ho. injection Ho as -> Ho.
    apply Forall_cons in Hidx as [[n' Ha] Hidx].
    apply StronglySorted_inv in Hs as [Hs Hle].
    cbn [JsObject.insertIndex]. rewrite Ha. destruct (Z.ltb_spec n' n).
    + destruct (IH o rest Ho Hidx Hs Hrest) as (idx' & Hk' & Hp & Hs').
      exists (a :: idx'). split; [cbn; now rewrite Hk'|]. split.
      * rewrite Hp. apply perm_swap.
      * constructor; [assumption|]. rewrite Hp. constructor; [|assumption].
        unfold indexLe. rewrite Ha, Hk. cbn. lia.
    + exists (k :: a :: idx). split; [cbn; now rewrite Ho|].
      split; [reflexivity|].
      constructor; [now constructor|]. constructor.
      * unfold indexLe. rewrite Ha, Hk. cbn. lia.
      * eapply Forall_impl; [exact Hle|]. intros x Hx.
        unfold indexLe in *. rewrite Ha in Hx. rewrite Hk. cbn in *. lia.
Qed.

Lemma obj_set_enumerated k v o l :
  (∀ q, q ∈ JsMap.keys o → q ∈ l) →
  Enumerated l (JsMap.keys o) →
  Enumerated (l ++ [k]) (JsMap.keys (JsObject.set k v o)).
Proof.
  intros Hsub (idx & rest & Ho & Hidx & Hs & Hrest).
  set (P := λ q : string, ¬ isIndex q ∧ q ≠ "__proto__"%string) in *.
  unfold Enumerated. rewrite firstSeen_snoc. fold P.
  assert (Hdrop : ¬ P k → filter P (addSeen (firstSeen l) k) = rest).
  { intros HP. unfold addSeen. destruct (bool_decide (k ∈ firstSeen l));
      [now symmetry|].
    now rewrite filter_app, filter_cons_False, filter_nil, app_nil_r. }
  unfold JsObject.set.
  destruct (String.eqb_spec k "__proto__") as [->|Hne].
  { exists idx, rest. repeat (split; [assumption|]).
    symmetry. apply Hdrop. unfold P. tauto. }
  destruct (JsMap.has k o) eqn:Ehas.
  { apply has_true in Ehas. rewrite set_present by assumption.
    exists idx, rest. repeat (split; [assumption|]).
    unfold addSeen. rewrite bool_decide_eq_true_2; [assumption|].
    apply elem_of_firstSeen. now apply Hsub. }
  apply has_false in Ehas.
  destruct (JsObject.arrayIndex k) as [n|] eqn:Ek.
  - destruct (keys_insertIndex n k v Ek idx o rest Ho Hidx Hs)
      as (idx' & Hk' & Hp & Hs').
    { rewrite Hrest. apply Forall_forall. intros q Hq.
      now apply list_elem_of_filter in Hq as [[Hq _] _]. }
    exists idx', rest. split; [assumption|]. split.
    + rewrite Hp. constructor; [|assumption]. unfold isIndex. rewrite Ek. eauto.
    + split; [assumption|]. symmetry. apply Hdrop. unfold P, isIndex.
      rewrite Ek. intros [H _]. apply H. eauto.
  - assert (HP : P k).
    { split; [|assumption]. unfold isIndex. rewrite Ek. now intros [? [=]]. }
    assert (Hnew : k ∉ firstSeen l).
    { intros Hin. apply Ehas. rewrite Ho, elem_of_app. right. rewrite Hrest.
      now apply list_elem_of_filter. }
    exists idx, (rest ++ [k]). rewrite keys_set.
    rewrite (proj2 (has_false k o) Ehas), Ho, app_assoc.
    repeat (split; [assumption || reflexivity|]).
    unfold addSeen. rewrite bool_decide_eq_false_2 by assumption.
    now rewrite filter_app, filter_cons_True, filter_nil, Hrest.
Qed.

End ObjectOrder.

(** ** The Italian points table and the K-factor *)

(** C1: for non-negative scores [my ≠ opp], both copies of
    [getItalianPoints] return 2 for a win by exactly two points, 3 for
    any other win, 1 for a loss by exactly two points and 0 for any
    other loss. *)
Theorem italian_points_table (my opp : Z) :
  0 <= my → 0 <= opp → my ≠ opp →
  let pts := TournamentUI.getItalianPoints my opp in
  Db.getItalianPoints my opp = pts
  ∧ (my > opp → Z.abs (my - opp) = 2 → pts = 2)
  ∧ (my > opp → Z.abs (my - opp) ≠ 2 → pts = 3)
  ∧ (my < opp → Z.abs (my - opp) = 2 → pts = 1)
  ∧ (my < opp → Z.abs (my - opp) ≠ 2 → pts = 0).
Proof.
  intros Hmy Hopp Hne pts. subst pts.
  unfold Db.getItalianPoints, TournamentUI.getItalianPoints.
  destruct (Z.eqb_spec my opp) as [?|_]; [contradiction|].
  destruct (Z.ltb_spec opp my), (Z.eqb_spec (Z.abs (my - opp)) 2);
    repeat split; intros; lia.
Qed.

Lemma italian_points_table_witness :
  (0 <= 15 ∧ 0 <= 13 ∧ 15 ≠ 13)
  ∧ TournamentUI.getItalianPoints 15 13 = 2
  ∧ Db.getItalianPoints 15 13 = 2.
Proof.
  split; [lia|].
  destruct (italian_points_table 15 13) as (E & H2 & _); [lia..|].
  split; [|rewrite E]; apply H2; [lia | reflexivity | lia | reflexivity].
Defined.

(** C4: [getKFactor] is 40 for 0 to 14 games played and 32 from 15
    games on; in particular 40 at 14 and 32 at 15. *)
Theorem k_factor_calibration (gamesPlayed : Z) :
  0 <= gamesPlayed →
  (gamesPlayed <= 14 → Elo.getKFactor gamesPlayed = 40%float)
  ∧ (15 <= gamesPlayed → Elo.getKFactor gamesPlayed = 32%float)
  ∧ Elo.getKFactor 14 = 40%float
  ∧ Elo.getKFactor 15 = 32%float.
Proof.
  intros _. unfold Elo.getKFactor, Elo.CALIBRATION_GAMES.
  repeat split; try reflexivity; intros H.
  - destruct (Z.ltb_spec gamesPlayed 15); [reflexivity | lia].
  - destruct (Z.ltb_spec gamesPlayed 15); [lia | reflexivity].
Qed.

Lemma k_factor_calibration_witness :
  Elo.getKFactor 0 = 40%float ∧ Elo.getKFactor 20 = 32%float.
Proof.
  split.
  - apply (k_factor_calibration 0); lia.
  - apply (k_factor_calibration 20); lia.
Defined.

(** ** Draws *)

Lemma ui_addMatch_drawn players m :
  drawn m → TournamentUI.addMatch players m = players.
Proof.
  unfold drawn, TournamentUI.addMatch. intros ->. now rewrite Z.eqb_refl.
Qed.

Lemma wins_addMatch_drawn players m :
  drawn m → WinsTable.addMatch players m = players.
Proof.
  unfold drawn, WinsTable.addMatch. intros ->. now rewrite Z.eqb_refl.
Qed.

Section SkipDrawn.
Context {S : Type} (step : S → Match → S).
Hypothesis step_drawn : ∀ s m, drawn m → step s m = s.

Lemma fold_skip_drawn ms s :
  fold_left step ms s = fold_left step (filter played ms) s.
Proof.
  revert s. induction ms as [|m ms IH]; intros s; [reflexivity|].
  destruct (decide (played m)) as [Hp|Hd].
  - rewrite filter_cons_True by assumption. simpl. apply IH.
  - rewrite filter_cons_False by assumption. simpl.
    rewrite step_drawn; [apply IH|].
    unfold played, drawn in *. destruct (decide (fst (score m) = snd (score m))); tauto.
Qed.

Lemma fold_only_drawn ms s : Forall drawn ms → fold_left step ms s = s.
Proof.
  induction 1 as [|m ms Hm _ IH]; simpl; [reflexivity|].
  now rewrite step_drawn.
Qed.
End SkipDrawn.

(** C9: [calculateStandings] (both tables) returns on any match list
    what it returns on the sub-list of matches with unequal scores, so a
    draw adds nothing to any row and creates none; a list of draws only
    gives empty standings. *)
Theorem draws_are_ignored (currentGenderFilter : GenderFilter) (ms : list Match) :
  TournamentUI.calculateStandings currentGenderFilter ms
  = TournamentUI.calculateStandings currentGenderFilter (filter played ms)
  ∧ WinsTable.calculateStandings ms
    = WinsTable.calculateStandings (filter played ms)
  ∧ (Forall drawn ms →
     TournamentUI.calculateStandings currentGenderFilter ms = []
     ∧ WinsTable.calculateStandings ms = []).
Proof.
  unfold TournamentUI.calculateStandings, WinsTable.calculateStandings,
    TournamentUI.aggregate, WinsTable.aggregate.
  split; [|split].
  - now rewrite (fold_skip_drawn _ ui_addMatch_drawn).
  - now rewrite (fold_skip_drawn _ wins_addMatch_drawn).
  - intros Hall.
    rewrite (fold_only_drawn _ ui_addMatch_drawn), (fold_only_drawn _ wins_addMatch_drawn)
      by assumption.
    split; reflexivity.
Qed.

(** ** The gender heuristics *)

(** C10 fails as stated: the page's [getGender] answers [female] for a
    full name listed in its set although the first name has none of the
    endings; the import script's [getGender] answers [male] for a first
    name in "ья", and [female] for an upper-case ending. *)
Lemma gender_suffix_rule_counterexample :
  (JS.includes (firstNameOf (JS.utf16 "Преображенская Ек."))
     TournamentUI.FEMALE_NAMES = false
   ∧ JS.endsWith (firstNameOf (JS.utf16 "Преображенская Ек.")) (JS.utf16 "а")
     || JS.endsWith (firstNameOf (JS.utf16 "Преображенская Ек.")) (JS.utf16 "я")
     || JS.endsWith (firstNameOf (JS.utf16 "Преображенская Ек.")) (JS.utf16 "ья")
     = false
   ∧ TournamentUI.getGender (JS.utf16 "Преображенская Ек.") = female)
  ∧ (JS.includes (firstNameOf (JS.utf16 "Иванова Софья"))
       ImportScript.FEMALE_NAMES = false
     ∧ JS.includes (firstNameOf (JS.utf16 "Иванова Софья"))
         ImportScript.MALE_EXCEPTIONS = false
     ∧ JS.endsWith (firstNameOf (JS.utf16 "Иванова Софья")) (JS.utf16 "ья")
       = true
     ∧ ImportScript.getGender (JS.utf16 "Иванова Софья") = male)
  ∧ (JS.includes (firstNameOf (JS.utf16 "ИВАНОВА ОЛЬГА"))
       ImportScript.FEMALE_NAMES = false
     ∧ JS.endsWith (firstNameOf (JS.utf16 "ИВАНОВА ОЛЬГА")) (JS.utf16 "а")
       || JS.endsWith (firstNameOf (JS.utf16 "ИВАНОВА ОЛЬГА")) (JS.utf16 "я")
       || JS.endsWith (firstNameOf (JS.utf16 "ИВАНОВА ОЛЬГА")) (JS.utf16 "ья")
       = false
     ∧ ImportScript.getGender (JS.utf16 "ИВАНОВА ОЛЬГА") = female).
Proof. vm_compute. repeat split. Qed.

Lemma str_eqb_true (a b : JS.jsstr) : JS.str_eqb a b = true ↔ a = b.
Proof. unfold JS.str_eqb. apply bool_decide_eq_true. Qed.

Lemma str_eqb_false (a b : JS.jsstr) : JS.str_eqb a b = false ↔ a ≠ b.
Proof. unfold JS.str_eqb. apply bool_decide_eq_false. Qed.

(** C10, amended: when the first name is in neither set of female
    names, the page's [getGender] answers [female] exactly when the
    full name itself is listed, or the first name ends in "а", "я" or
    "ья" and is not one of Никита, Илья, Кирилл; the import script's
    [getGender] answers [female] exactly when the first name is not one
    of these three, its last two letters in lower case are not "ья",
    and its last letter in lower case is "а" or "я". *)
Theorem gender_suffix_rule (fullName : JS.jsstr) :
  JS.includes (firstNameOf fullName) TournamentUI.FEMALE_NAMES = false →
  JS.includes (firstNameOf fullName) ImportScript.FEMALE_NAMES = false →
  (TournamentUI.getGender fullName = female
   ↔ JS.includes fullName TournamentUI.FEMALE_NAMES = true
     ∨ (JS.endsWith (firstNameOf fullName) (JS.utf16 "а")
        || JS.endsWith (firstNameOf fullName) (JS.utf16 "я")
        || JS.endsWith (firstNameOf fullName) (JS.utf16 "ья") = true
        ∧ JS.includes (firstNameOf fullName) TournamentUI.maleExceptions
          = false))
  ∧ (ImportScript.getGender fullName = female
     ↔ JS.includes (firstNameOf fullName) ImportScript.MALE_EXCEPTIONS = false
       ∧ JS.toLowerCase (JS.slice_last 2 (firstNameOf fullName))
         ≠ JS.utf16 "ья"
       ∧ (JS.toLowerCase (JS.slice_last 1 (firstNameOf fullName))
          = JS.utf16 "а"
          ∨ JS.toLowerCase (JS.slice_last 1 (firstNameOf fullName))
            = JS.utf16 "я")).
Proof.
  intros Hui Himp. set (firstName := firstNameOf fullName) in *. split.
  - unfold TournamentUI.getGender. fold firstName. rewrite Hui.
    generalize (JS.includes firstName TournamentUI.maleExceptions).
    generalize (JS.endsWith firstName (JS.utf16 "а")
                || JS.endsWith firstName (JS.utf16 "я")
                || JS.endsWith firstName (JS.utf16 "ья"))%bool.
    generalize (JS.includes fullName TournamentUI.FEMALE_NAMES).
    intros [] [] []; simpl; intuition congruence.
  - unfold ImportScript.getGender. fold firstName. rewrite Himp.
    rewrite <- !str_eqb_true.
    generalize (JS.str_eqb (JS.toLowerCase (JS.slice_last 1 firstName))
                  (JS.utf16 "я")).
    generalize (JS.str_eqb (JS.toLowerCase (JS.slice_last 1 firstName))
                  (JS.utf16 "а")).
    generalize (JS.str_eqb (JS.toLowerCase (JS.slice_last 2 firstName))
                  (JS.utf16 "ья")).
    generalize (JS.includes firstName ImportScript.MALE_EXCEPTIONS).
    intros [] [] [] []; simpl; intuition congruence.
Qed.

Lemma gender_suffix_rule_witness :
  TournamentUI.getGender (JS.utf16 "Иванова Софья") = female
  ∧ ImportScript.getGender (JS.utf16 "Петрова Алина") = female.
Proof.
  split.
  - apply (gender_suffix_rule (JS.utf16 "Иванова Софья"));
      [reflexivity | reflexivity |].
    right. split; reflexivity.
  - apply (gender_suffix_rule (JS.utf16 "Петрова Алина"));
      [reflexivity | reflexivity |].
    split; [reflexivity|]. split; [|left; reflexivity].
    apply str_eqb_false. reflexivity.
Defined.

(** ** The stable sort *)

Section SortFacts.
Context {A : Type} (gt : A → A → bool).

Lemma insert_perm x l : JS.insert gt x l ≡ₚ x :: l.
Proof.
  induction l as [|y l IH]; simpl; [reflexivity|].
  destruct (gt x y); [|reflexivity].
  rewrite IH. apply Permutation_swap.
Qed.

Lemma Array_sort_perm l : JS.Array_sort gt l ≡ₚ l.
Proof.
  induction l as [|x l IH]; simpl; [reflexivity|].
  rewrite insert_perm. now apply Permutation_skip.
Qed.

(** A consistent comparator: [gt] is the strict part of a total
    preorder. *)
Hypothesis gt_asym : ∀ x y, gt x y = true → gt y x = false.
Hypothesis gt_trans : ∀ x y z, gt x y = false → gt y z = false → gt x z = false.

Lemma insert_sorted x l :
  StronglySorted (λ a b, gt a b = false) l →
  StronglySorted (λ a b, gt a b = false) (JS.insert gt x l).
Proof.
  induction l as [|y l IH]; simpl; intros Hs.
  - repeat constructor.
  - apply StronglySorted_cons in Hs as [Hy Hs].
    destruct (gt x y) eqn:E.
    + apply StronglySorted_cons. split; [|auto].
      rewrite insert_perm. constructor; [now apply gt_asym | assumption].
    + apply StronglySorted_cons. split.
      * constructor; [assumption|].
        eapply Forall_impl; [exact Hy|]. intros z Hz. eauto.
      * apply StronglySorted_cons. auto.
Qed.

Lemma Array_sort_sorted l :
  StronglySorted (λ a b, gt a b = false) (JS.Array_sort gt l).
Proof.
  induction l as [|x l IH]; simpl; [constructor | now apply insert_sorted].
Qed.

End SortFacts.

Section SortStable.
Context {A : Type} (gt : A → A → bool).
Context (P : A → Prop) `{!∀ x, Decision (P x)}.

(** Two elements of the class [P] compare as equal. *)
Hypothesis P_ties : ∀ x y, P x → P y → gt x y = false.

Lemma insert_stable x l : filter P (JS.insert gt x l) = filter P (x :: l).
Proof.
  induction l as [|y l IH]; simpl; [reflexivity|].
  destruct (gt x y) eqn:E; [|reflexivity].
  rewrite (filter_cons P y), IH, !filter_cons.
  destruct (decide (P x)) as [Hx|Hx], (decide (P y)) as [Hy|Hy];
    try reflexivity.
  rewrite P_ties in E by assumption. discriminate.
Qed.

Lemma Array_sort_stable l : filter P (JS.Array_sort gt l) = filter P l.
Proof.
  induction l as [|x l IH]; simpl; [reflexivity|].
  now rewrite insert_stable, !filter_cons, IH.
Qed.

End SortStable.

Lemma StronglySorted_lookup {A : Type} (R : A → A → Prop) (l : list A) :
  StronglySorted R l →
  ∀ i j a b, (i < j)%nat → l !! i = Some a → l !! j = Some b → R a b.
Proof.
  induction 1 as [|x l Hs IH Hx]; intros i j a b Hij Hi Hj.
  - now rewrite lookup_nil in Hi.
  - destruct j as [|j]; [lia|]. rewrite lookup_cons in Hj.
    destruct i as [|i]; rewrite lookup_cons in Hi.
    + injection Hi as <-. rewrite Forall_forall in Hx. apply Hx.
      eapply list_elem_of_lookup_2; eauto.
    + apply (IH i j); auto. lia.
Qed.

(** ** The standings accumulators, player by player *)

Section Accumulators.
Import TournamentUI.
Implicit Types (M : list (string * PlayerAcc)) (m : Match) (p q : string).

Lemma get_ensurePlayer M q p :
  JsMap.get p (ensurePlayer M q)
  = match JsMap.get p M with
    | Some a => Some a
    | None => if String.eqb p q then Some (newPlayer q) else None
    end.
Proof.
  unfold ensurePlayer, JsMap.has.
  destruct (JsMap.get q M) as [a|] eqn:Hq.
  - destruct (JsMap.get p M) eqn:Hp; [reflexivity|].
    destruct (String.eqb_spec p q) as [->|]; [congruence | reflexivity].
  - rewrite get_set. destruct (String.eqb_spec p q) as [->|].
    + now rewrite Hq.
    + now destruct (JsMap.get p M).
Qed.

Lemma get_ensure_all l M p :
  JsMap.get p (fold_left ensurePlayer l M)
  = match JsMap.get p M with
    | Some a => Some a
    | None => if bool_decide (p ∈ l) then Some (newPlayer p) else None
    end.
Proof.
  revert M. induction l as [|q l IH]; intros M; simpl.
  - now destruct (JsMap.get p M).
  - rewrite IH, get_ensurePlayer.
    destruct (JsMap.get p M); [reflexivity|].
    destruct (String.eqb_spec p q) as [->|Hne].
    + rewrite bool_decide_eq_true_2 by left. reflexivity.
    + destruct (decide (p ∈ l)) as [Hin|Hin].
      * rewrite !bool_decide_eq_true_2; [reflexivity | now right | assumption].
      * rewrite !bool_decide_eq_false_2; [reflexivity | | assumption].
        rewrite not_elem_of_cons. tauto.
Qed.

Lemma get_creditPlayer i s o w M q p :
  JsMap.get p (creditPlayer i s o w M q)
  = if String.eqb p q then credit i s o w <$> JsMap.get p M else JsMap.get p M.
Proof.
  unfold creditPlayer. destruct (JsMap.get q M) as [a|] eqn:Hq.
  - rewrite get_set. destruct (String.eqb_spec p q) as [->|]; [|reflexivity].
    now rewrite Hq.
  - destruct (String.eqb_spec p q) as [->|]; [|reflexivity]. now rewrite Hq.
Qed.

(** The lookup in [creditPlayer] is never [undefined] inside
    [addMatch]. *)
Lemma creditPlayer_defined l M q :
  q ∈ l → ∃ a, JsMap.get q (fold_left ensurePlayer l M) = Some a.
Proof.
  intros Hin. rewrite get_ensure_all.
  destruct (JsMap.get q M); [eauto|].
  rewrite bool_decide_eq_true_2 by assumption. eauto.
Qed.

Lemma get_addMatch M m p :
  JsMap.get p (addMatch M m) = matchEffect p (JsMap.get p M) m.
Proof.
  unfold addMatch, matchEffect.
  destruct (fst (score m) =? snd (score m)); [reflexivity|].
  set (M1 := fold_left ensurePlayer (participants m) M).
  cbn [fold_left]. rewrite !get_creditPlayer. subst M1.
  rewrite get_ensure_all. unfold creditsOf.
  destruct (decide (p ∈ participants m)) as [Hin|Hin].
  - rewrite bool_decide_eq_true_2 by assumption.
    replace (match JsMap.get p M with
             | Some a => Some a
             | None => Some (newPlayer p)
             end)
      with (Some (default (newPlayer p) (JsMap.get p M)))
      by now destruct (JsMap.get p M).
    destruct (String.eqb p (fst (team1 m))), (String.eqb p (snd (team1 m))),
      (String.eqb p (fst (team2 m))), (String.eqb p (snd (team2 m)));
      reflexivity.
  - rewrite bool_decide_eq_false_2 by assumption.
    unfold participants in Hin. rewrite !not_elem_of_cons in Hin.
    destruct Hin as (H1 & H2 & H3 & H4 & _).
    apply String.eqb_neq in H1, H2, H3, H4. rewrite H1, H2, H3, H4.
    now destruct (JsMap.get p M).
Qed.

Lemma get_fold_addMatch ms M p :
  JsMap.get p (fold_left addMatch ms M)
  = fold_left (matchEffect p) ms (JsMap.get p M).
Proof.
  revert M. induction ms as [|m ms IH]; intros M; simpl; [reflexivity|].
  now rewrite IH, get_addMatch.
Qed.

Lemma get_aggregate ms p :
  JsMap.get p (aggregate ms) = fold_left (matchEffect p) ms None.
Proof. unfold aggregate. now rewrite get_fold_addMatch. Qed.

End Accumulators.

(** ** The standings table as a list *)

Lemma Forall_set {V : Type} (P : string * V → Prop) k v (m : list (string * V)) :
  Forall P m → P (k, v) → Forall P (JsMap.set k v m).
Proof.
  intros Hm Hkv. induction Hm as [|[k' v'] m Hx Hm IH]; simpl.
  - repeat constructor. assumption.
  - destruct (String.eqb k k'); constructor; auto.
Qed.

Lemma filter_at_most_one {A B : Type} `{EqDecision B} (f : A → B) (b : B)
  (l : list A) :
  NoDup (f <$> l) → (length (filter (λ x, f x = b) l) <= 1)%nat.
Proof.
  induction l as [|x l IH]; [simpl; lia|].
  rewrite fmap_cons, NoDup_cons. intros [Hx Hnd].
  rewrite filter_cons. destruct (decide (f x = b)) as [<-|Hne]; [|auto].
  replace (filter (λ y, f y = f x) l) with (@nil A); [simpl; lia|].
  symmetry. apply elem_of_nil_inv. intros y Hy.
  apply list_elem_of_filter in Hy as [Hfy Hy].
  apply Hx. rewrite <- Hfy. apply list_elem_of_fmap. eauto.
Qed.

Lemma head_filter_perm {A B : Type} `{EqDecision B} (f : A → B) (b : B)
  (l l' : list A) :
  NoDup (f <$> l) → l ≡ₚ l' →
  head (filter (λ x, f x = b) l) = head (filter (λ x, f x = b) l').
Proof.
  intros Hnd Hp. pose proof (filter_at_most_one f b l Hnd) as Hlen.
  assert (Hf : filter (λ x, f x = b) l ≡ₚ filter (λ x, f x = b) l')
    by now rewrite Hp.
  destruct (filter (λ x, f x = b) l) as [|x [|y k]]; simpl in Hlen; [| |lia].
  - apply Permutation_nil_l in Hf. now rewrite <- Hf.
  - apply Permutation_singleton_l in Hf. now rewrite <- Hf.
Qed.

Lemma NoDup_fmap_filter {A B : Type} (f : A → B) (P : A → Prop)
  `{!∀ x, Decision (P x)} (l : list A) :
  NoDup (f <$> l) → NoDup (f <$> filter P l).
Proof.
  induction l as [|x l IH]; [simpl; auto|].
  rewrite fmap_cons, NoDup_cons. intros [Hx Hnd].
  rewrite filter_cons. destruct (decide (P x)); [|auto].
  rewrite fmap_cons, NoDup_cons. split; [|auto].
  intros Hin. apply Hx. apply list_elem_of_fmap in Hin as (y & -> & Hy).
  apply list_elem_of_filter in Hy as [_ Hy].
  apply list_elem_of_fmap. eauto.
Qed.

Section Table.
Import TournamentUI.
Implicit Types (M : list (string * PlayerAcc)) (m : Match) (p q : string).

Lemma keys_ensurePlayer M q :
  JsMap.keys (ensurePlayer M q) = addSeen (JsMap.keys M) q.
Proof.
  unfold ensurePlayer, addSeen. destruct (JsMap.has q M) eqn:E.
  - apply has_true in E. now rewrite bool_decide_eq_true_2.
  - rewrite keys_set, E. apply has_false in E.
    now rewrite bool_decide_eq_false_2.
Qed.

Lemma keys_creditPlayer i s o w M q :
  JsMap.keys (creditPlayer i s o w M q) = JsMap.keys M.
Proof.
  unfold creditPlayer. destruct (JsMap.get q M) eqn:E; [|reflexivity].
  apply set_present. eapply get_Some_keys; eauto.
Qed.

Lemma keys_ensure_all l M :
  JsMap.keys (fold_left ensurePlayer l M) = fold_left addSeen l (JsMap.keys M).
Proof.
  revert M. induction l as [|q l IH]; intros M; simpl; [reflexivity|].
  now rewrite IH, keys_ensurePlayer.
Qed.

Lemma keys_addMatch M m :
  played m →
  JsMap.keys (addMatch M m) = fold_left addSeen (participants m) (JsMap.keys M).
Proof.
  unfold played, addMatch. intros Hp.
  destruct (Z.eqb_spec (fst (score m)) (snd (score m))); [contradiction|].
  set (M1 := fold_left ensurePlayer (participants m) M).
  cbn [fold_left]. rewrite !keys_creditPlayer. apply keys_ensure_all.
Qed.

Lemma keys_fold_addMatch ms M :
  Forall played ms →
  JsMap.keys (fold_left addMatch ms M)
  = fold_left addSeen (flat_map participants ms) (JsMap.keys M).
Proof.
  intros Hall. revert M.
  induction Hall as [|m ms Hm _ IH]; intros M; [reflexivity|].
  cbn [fold_left flat_map]. rewrite fold_left_app, IH, keys_addMatch; auto.
Qed.

Lemma keys_aggregate ms :
  Forall played ms → JsMap.keys (aggregate ms) = encountered ms.
Proof. intros H. unfold aggregate. now rewrite keys_fold_addMatch. Qed.

Lemma NoDup_ensurePlayer M q :
  NoDup (JsMap.keys M) → NoDup (JsMap.keys (ensurePlayer M q)).
Proof.
  unfold ensurePlayer. destruct (JsMap.has q M); [auto|apply NoDup_keys_set].
Qed.

Lemma WellNamed_ensurePlayer M q : WellNamed M → WellNamed (ensurePlayer M q).
Proof.
  unfold ensurePlayer. destruct (JsMap.has q M); [auto|].
  intros H. now apply Forall_set.
Qed.

Lemma WellNamed_creditPlayer i s o w M q :
  WellNamed M → WellNamed (creditPlayer i s o w M q).
Proof.
  unfold creditPlayer. destruct (JsMap.get q M) as [a|] eqn:E; [|auto].
  intros H. apply Forall_set; [assumption|]. simpl.
  apply get_Some_elem in E. unfold WellNamed in H.
  rewrite Forall_forall in H. apply (H _ E).
Qed.

Lemma table_invariant_addMatch M m :
  NoDup (JsMap.keys M) ∧ WellNamed M →
  NoDup (JsMap.keys (addMatch M m)) ∧ WellNamed (addMatch M m).
Proof.
  intros [Hnd Hwn]. unfold addMatch.
  destruct (fst (score m) =? snd (score m)); [auto|].
  cbn [fold_left participants]. rewrite !keys_creditPlayer.
  split.
  - auto using NoDup_ensurePlayer.
  - auto 10 using WellNamed_creditPlayer, WellNamed_ensurePlayer.
Qed.

Lemma table_invariant ms :
  NoDup (JsMap.keys (aggregate ms)) ∧ WellNamed (aggregate ms).
Proof.
  unfold aggregate.
  assert (H0 : NoDup (JsMap.keys (@nil (string * PlayerAcc))) ∧ WellNamed [])
    by (split; constructor).
  revert H0. generalize (@nil (string * PlayerAcc)).
  induction ms as [|m ms IH]; intros M HM; simpl; [assumption|].
  apply IH. now apply table_invariant_addMatch.
Qed.

Lemma names_values M : WellNamed M → name <$> JsMap.values M = JsMap.keys M.
Proof.
  unfold JsMap.values, JsMap.keys.
  induction 1 as [|[k a] M Hx _ IH]; [reflexivity|].
  rewrite !fmap_cons, IH. simpl in *. now rewrite Hx.
Qed.

End Table.

(** ** The order of the standings *)

Lemma filter_all {A : Type} (P : A → Prop) `{!∀ x, Decision (P x)} (l : list A) :
  (∀ x, P x) → filter P l = l.
Proof.
  intros HP. induction l as [|x l IH]; [reflexivity|].
  rewrite filter_cons_True by auto. now rewrite IH.
Qed.

Lemma filter_mono_sublist {A : Type} (P : A → Prop) `{!∀ x, Decision (P x)}
  (l1 l2 : list A) :
  l1 `sublist_of` l2 → filter P l1 `sublist_of` filter P l2.
Proof.
  induction 1 as [|x l1 l2 _ IH|x l1 l2 _ IH]; [constructor | |].
  - rewrite !filter_cons. destruct (decide (P x)); [now constructor | assumption].
  - rewrite (filter_cons P x l2). destruct (decide (P x)); [now constructor | assumption].
Qed.

Section Order.
Import TournamentUI.

Lemma rowGt_false a b : rowGt a b = false ↔ ranksBefore a b.
Proof.
  unfold rowGt, compareRows, ranksBefore. rewrite Z.ltb_ge.
  destruct (Z.eqb_spec (italianPoints (row b)) (italianPoints (row a)));
    simpl; lia.
Qed.

Lemma rowGt_asym a b : rowGt a b = true → rowGt b a = false.
Proof.
  unfold rowGt, compareRows. rewrite Z.ltb_lt, Z.ltb_ge.
  destruct (Z.eqb_spec (italianPoints (row b)) (italianPoints (row a))),
    (Z.eqb_spec (italianPoints (row a)) (italianPoints (row b)));
    simpl; lia.
Qed.

Lemma rowGt_trans a b c :
  rowGt a b = false → rowGt b c = false → rowGt a c = false.
Proof. rewrite !rowGt_false. unfold ranksBefore. lia. Qed.

Lemma rowGt_ties pts diff a b :
  hasKeys pts diff a → hasKeys pts diff b → rowGt a b = false.
Proof. rewrite rowGt_false. unfold hasKeys, ranksBefore. lia. Qed.

(** C5: for matches with unequal scores and the filter on 'all', a row
    placed earlier has more Italian points than any later row, or as
    many and a points difference at least as large; the points
    difference of a row is its points for minus its points against
    (for scores that add up to at most 2^53 in size, where the
    subtraction is exact); the rows are those of the players
    encountered; two rows equal on both keys stand in the order in
    which their players were first encountered; and the rank shown is
    the position counted from 1. *)
Theorem standings_order (ms : list Match) :
  Forall played ms →
  let rows := calculateStandings FilterAll ms in
  (∀ i j a b,
     (i < j)%nat → rows !! i = Some a → rows !! j = Some b →
     italianPoints (row a) > italianPoints (row b)
     ∨ (italianPoints (row a) = italianPoints (row b)
        ∧ ballsDiff a >= ballsDiff b))
  ∧ (SafeScores ms →
     Forall (λ r, ballsDiff r = ballsFor (row r) - ballsAgainst (row r)) rows)
  ∧ (name ∘ row) <$> rows ≡ₚ encountered ms
  ∧ (∀ a b,
       before a b rows →
       italianPoints (row a) = italianPoints (row b) →
       ballsDiff a = ballsDiff b →
       before (name (row a)) (name (row b)) (encountered ms))
  ∧ (∀ i r, rows !! i = Some r → ranked rows !! i = Some (Z.of_nat i + 1, r)).
Proof.
  intros Hplayed rows.
  destruct (table_invariant ms) as [Hnd Hwn].
  set (table := withDiff <$> JsMap.values (aggregate ms)).
  assert (Hrows : rows = JS.Array_sort rowGt table).
  { unfold rows, calculateStandings, table. rewrite filter_all; [reflexivity|].
    intros x. exact I. }
  assert (Hnames : (name ∘ row) <$> table = encountered ms).
  { unfold table. rewrite <- list_fmap_compose.
    rewrite <- keys_aggregate, <- names_values by assumption.
    apply list_fmap_ext. reflexivity. }
  assert (Hbd : Forall (λ r, ballsDiff r = ballsFor (row r) - ballsAgainst (row r))
                  rows).
  { rewrite Hrows, Array_sort_perm. unfold table.
    apply Forall_fmap, Forall_forall. reflexivity. }
  split; [|split; [|split; [|split]]].
  - intros i j a b Hij Hi Hj.
    pose proof (Array_sort_sorted rowGt rowGt_asym rowGt_trans table) as Hs.
    rewrite <- Hrows in Hs.
    pose proof (StronglySorted_lookup _ rows Hs i j a b Hij Hi Hj) as Hab.
    apply rowGt_false in Hab. exact Hab.
  - intros _. exact Hbd.
  - rewrite Hrows, Array_sort_perm, Hnames. reflexivity.
  - intros a b Hab Hpts Hdiff. unfold before in *.
    set (P := hasKeys (italianPoints (row a)) (ballsDiff a)).
    assert (Ha : P a) by (split; reflexivity).
    assert (Hb : P b) by (split; congruence).
    apply (filter_mono_sublist P) in Hab.
    rewrite filter_cons_True, filter_cons_True in Hab by assumption.
    rewrite Hrows in Hab.
    rewrite (Array_sort_stable rowGt P) in Hab
      by (intros x y; apply rowGt_ties).
    rewrite <- Hnames.
    change [name (row a); name (row b)] with ((name ∘ row) <$> [a; b]).
    apply fmap_sublist. etransitivity; [exact Hab|]. apply sublist_filter.
  - intros i r Hi. unfold ranked. now rewrite list_lookup_imap, Hi.
Qed.

Lemma standings_order_witness :
  Forall played exampleGroup
  ∧ SafeScores exampleGroup
  ∧ (λ r, (name (row r), italianPoints (row r), ballsDiff r))
      <$> calculateStandings FilterAll exampleGroup
    = [("D", 7, 15); ("A", 5, 7); ("B", 5, -3); ("C", 1, -19)]
  ∧ Forall (λ r, ballsDiff r = ballsFor (row r) - ballsAgainst (row r))
      (calculateStandings FilterAll exampleGroup)
  ∧ (name ∘ row) <$> calculateStandings FilterAll exampleGroup
    ≡ₚ encountered exampleGroup.
Proof.
  assert (H : Forall played exampleGroup)
    by (repeat constructor; unfold played; simpl; lia).
  assert (Hs : SafeScores exampleGroup) by (unfold SafeScores; simpl; lia).
  split; [exact H|]. split; [exact Hs|]. split; [reflexivity|].
  split; [exact (proj1 (proj2 (standings_order exampleGroup H)) Hs)|].
  exact (proj1 (proj2 (proj2 (standings_order exampleGroup H)))).
Defined.

(** Players level on both keys stay in the order of their first
    appearance: after the single match A,B v C,D 19-21 the winners C
    and D come first, and each pair keeps its order. *)
Example standings_tie_order :
  (name ∘ row) <$> calculateStandings FilterAll [mkMatch "g1" "A" "B" "C" "D" 19 21]
  = ["C"; "D"; "A"; "B"].
Proof. reflexivity. Qed.

End Order.

(** ** Aggregation is a monoid morphism *)

Section Monoid.
Import TournamentUI.
Implicit Types (a b : PlayerAcc) (x y : option PlayerAcc) (p : string).

Lemma credit_merge i s o w a b :
  credit i s o w (mergeAcc a b) = mergeAcc a (credit i s o w b).
Proof.
  unfold credit, mergeAcc; simpl.
  f_equal; try lia; try (destruct w; lia). now rewrite app_assoc.
Qed.

Lemma creditsOf_merge m p a b :
  creditsOf m p (mergeAcc a b) = mergeAcc a (creditsOf m p b).
Proof.
  unfold creditsOf.
  destruct (String.eqb p (fst (team1 m))), (String.eqb p (snd (team1 m))),
    (String.eqb p (fst (team2 m))), (String.eqb p (snd (team2 m)));
    now rewrite ?credit_merge.
Qed.

Lemma mergeAcc_newPlayer a p : mergeAcc a (newPlayer p) = a.
Proof.
  destruct a. unfold mergeAcc, newPlayer; simpl.
  rewrite !Z.add_0_r, app_nil_r. reflexivity.
Qed.

Lemma matchEffect_merge p x y m :
  matchEffect p (mergeOpt x y) m = mergeOpt x (matchEffect p y m).
Proof.
  unfold matchEffect.
  destruct (fst (score m) =? snd (score m)); [reflexivity|].
  destruct (bool_decide (p ∈ participants m)); [|reflexivity].
  destruct x as [a|], y as [b|]; simpl; try reflexivity.
  - now rewrite creditsOf_merge.
  - now rewrite <- creditsOf_merge, mergeAcc_newPlayer.
Qed.

Lemma mergeOpt_None_r x : mergeOpt x None = x.
Proof. now destruct x. Qed.

Lemma view_from p ms x :
  fold_left (matchEffect p) ms x
  = mergeOpt x (fold_left (matchEffect p) ms None).
Proof.
  induction ms as [|m ms IH] using rev_ind.
  - simpl. now rewrite mergeOpt_None_r.
  - rewrite !fold_left_app. cbn [fold_left]. rewrite IH.
    apply matchEffect_merge.
Qed.

Lemma view_app p l1 l2 :
  fold_left (matchEffect p) (l1 ++ l2) None
  = mergeOpt (fold_left (matchEffect p) l1 None)
      (fold_left (matchEffect p) l2 None).
Proof. now rewrite fold_left_app, view_from. Qed.

Lemma gender_creditsOf m p a : gender (creditsOf m p a) = gender a.
Proof.
  unfold creditsOf.
  destruct (String.eqb p (fst (team1 m))), (String.eqb p (snd (team1 m))),
    (String.eqb p (fst (team2 m))), (String.eqb p (snd (team2 m)));
    reflexivity.
Qed.

Lemma OfPlayer_matchEffect p x m : OfPlayer p x → OfPlayer p (matchEffect p x m).
Proof.
  unfold matchEffect. intros Hx.
  destruct (fst (score m) =? snd (score m)); [assumption|].
  destruct (bool_decide (p ∈ participants m)); [|assumption].
  intros a [= <-]. rewrite gender_creditsOf.
  destruct x as [b|]; simpl; [now apply Hx | reflexivity].
Qed.

Lemma OfPlayer_view p ms : OfPlayer p (fold_left (matchEffect p) ms None).
Proof.
  induction ms as [|m ms IH] using rev_ind.
  - intros a [=].
  - rewrite fold_left_app. simpl. now apply OfPlayer_matchEffect.
Qed.

Lemma keepIf_OfPlayer f p x :
  OfPlayer p x →
  keepIf f x = if admits f (getGender (JS.utf16 p)) then x else None.
Proof.
  intros Hx. destruct x as [a|]; simpl.
  - rewrite <- (Hx a eq_refl). unfold passesFilter, admits. now destruct f.
  - now destruct (admits f _).
Qed.

Lemma rowOf_table f p (M : list (string * PlayerAcc)) :
  NoDup (JsMap.keys M) → WellNamed M →
  rowOf p (withDiff <$> filter (passesFilter f) (JsMap.values M))
  = withDiff <$> keepIf f (JsMap.get p M).
Proof.
  unfold rowOf, JsMap.values, JsMap.keys.
  induction M as [|[k a] M IH]; [reflexivity|].
  rewrite !fmap_cons, NoDup_cons. intros [Hk Hnd] Hwn.
  apply Forall_cons in Hwn as [Hka Hwn]. simpl in Hka.
  specialize (IH Hnd Hwn). cbn [JsMap.get snd fst] in *.
  rewrite filter_cons.
  destruct (String.eqb_spec p k) as [->|Hne].
  - assert (Hnone : JsMap.get k M = None) by now apply get_None_keys.
    rewrite Hnone in IH. simpl in IH. simpl.
    destruct (decide (passesFilter f a)) as [Hf|Hf].
    + rewrite fmap_cons, filter_cons_True by (simpl; assumption).
      apply Is_true_true in Hf. now rewrite Hf.
    + apply Is_true_false in Hf. now rewrite Hf.
  - destruct (decide (passesFilter f a)); [|assumption].
    rewrite fmap_cons, filter_cons_False by (simpl; congruence). assumption.
Qed.

Lemma rowOf_perm p (l l' : list StandingsRow) :
  NoDup ((name ∘ row) <$> l) → l ≡ₚ l' → rowOf p l = rowOf p l'.
Proof. unfold rowOf. apply (head_filter_perm (name ∘ row) p). Qed.

Lemma accOf_view f p ms :
  accOf f p ms = keepIf f (fold_left (matchEffect p) ms None).
Proof.
  unfold accOf, calculateStandings.
  destruct (table_invariant ms) as [Hnd Hwn].
  set (table := withDiff <$> filter (passesFilter f) (JsMap.values (aggregate ms))).
  assert (Hnames : NoDup ((name ∘ row) <$> table)).
  { unfold table. rewrite <- list_fmap_compose.
    change (name ∘ row ∘ withDiff) with name.
    apply NoDup_fmap_filter. now rewrite names_values. }
  rewrite <- (rowOf_perm p table (JS.Array_sort _ table))
    by (assumption || now rewrite Array_sort_perm).
  unfold table. rewrite rowOf_table, get_aggregate by assumption.
  now destruct (keepIf f _).
Qed.

Lemma numbers_mergeOpt x y :
  numbers <$> mergeOpt x y = addNumbers (numbers <$> x) (numbers <$> y).
Proof. destruct x as [a|], y as [b|]; reflexivity. Qed.

Lemma addNumbers_swap u v w :
  addNumbers u (addNumbers v w) = addNumbers v (addNumbers u w).
Proof.
  destruct u as [[[[[[? ?] ?] ?] ?] ?]|], v as [[[[[[? ?] ?] ?] ?] ?]|],
    w as [[[[[[? ?] ?] ?] ?] ?]|]; simpl; try reflexivity;
    f_equal; repeat (apply pair_equal_spec; split); lia.
Qed.

Lemma numbers_view_perm p ms ms' :
  ms ≡ₚ ms' →
  numbers <$> fold_left (matchEffect p) ms None
  = numbers <$> fold_left (matchEffect p) ms' None.
Proof.
  induction 1 as [|m l l' _ IH|m1 m2 l|l1 l2 l3 _ IH1 _ IH2].
  - reflexivity.
  - change (m :: l) with ([m] ++ l). change (m :: l') with ([m] ++ l').
    now rewrite !view_app, !numbers_mergeOpt, IH.
  - change (m2 :: m1 :: l) with ([m2] ++ [m1] ++ l).
    change (m1 :: m2 :: l) with ([m1] ++ [m2] ++ l).
    rewrite !view_app, !numbers_mergeOpt. apply addNumbers_swap.
  - congruence.
Qed.

(** C6, for matches whose scores add up to at most 2^53 in size: the
    accumulator a player gets from one call over [l1 ++ l2] is the
    field-wise merge of the accumulators from a call over [l1] and a
    call over [l2]; hence the numeric accumulators do not depend on the
    order of the matches. *)
Theorem standings_monoid (currentGenderFilter : GenderFilter) (p : string) :
  (∀ l1 l2,
     SafeScores (l1 ++ l2) →
     accOf currentGenderFilter p (l1 ++ l2)
     = mergeOpt (accOf currentGenderFilter p l1)
         (accOf currentGenderFilter p l2))
  ∧ (∀ ms ms',
       SafeScores ms →
       ms ≡ₚ ms' →
       numbers <$> accOf currentGenderFilter p ms
       = numbers <$> accOf currentGenderFilter p ms').
Proof.
  split.
  - intros l1 l2 _. rewrite !accOf_view, view_app.
    pose proof (OfPlayer_view p l1) as H1.
    pose proof (OfPlayer_view p l2) as H2.
    pose proof (OfPlayer_view p (l1 ++ l2)) as H12. rewrite view_app in H12.
    rewrite !(keepIf_OfPlayer _ p) by assumption.
    now destruct (admits currentGenderFilter _).
  - intros ms ms' _ Hp. rewrite !accOf_view.
    rewrite !(keepIf_OfPlayer _ p) by apply OfPlayer_view.
    destruct (admits currentGenderFilter _); [|reflexivity].
    now apply numbers_view_perm.
Qed.

Lemma standings_monoid_witness :
  SafeScores exampleGroup
  ∧ exampleGroup ≡ₚ rev exampleGroup
  ∧ numbers <$> accOf FilterAll "A" (rev exampleGroup) = Some (3, 2, 1, 5, 57, 50).
Proof.
  assert (Hs : SafeScores exampleGroup) by (unfold SafeScores; simpl; lia).
  assert (H : exampleGroup ≡ₚ rev exampleGroup) by apply Permutation_rev.
  split; [exact Hs|]. split; [exact H|].
  rewrite <- (proj2 (standings_monoid FilterAll "A") _ _ Hs H). reflexivity.
Defined.

End Monoid.

(** ** The Elo engine on the end-to-end scenario *)

Section Scenario.
Import Elo.
Variable Math_pow : float → float → float.

(** ECMAScript: a power with exponent [+0] or [-0] is 1. *)
Hypothesis Math_pow_zero : Math_pow 10 0 = 1%float.

Lemma expected_even (r : float) :
  (r - r)%float = 0%float →
  calculateExpectedScore Math_pow r r = 0.5%float.
Proof.
  intros Hr. unfold calculateExpectedScore. rewrite Hr.
  change (0 / 400)%float with 0%float. rewrite Math_pow_zero. reflexivity.
Qed.

Lemma change_even_win :
  calculateRatingChange Math_pow 1500 1500 true 0 = 20%float.
Proof.
  unfold calculateRatingChange. rewrite expected_even by reflexivity.
  reflexivity.
Qed.

Lemma change_even_loss :
  calculateRatingChange Math_pow 1500 1500 false 0 = (-20)%float.
Proof.
  unfold calculateRatingChange. rewrite expected_even by reflexivity.
  reflexivity.
Qed.

Lemma scenario_changes :
  processMatch Math_pow scenarioMatch (playerRatings (initPlayers [scenarioMatch] emptyState))
    (playerGames (initPlayers [scenarioMatch] emptyState))
  = [("A", 20%float); ("B", 20%float); ("C", (-20)%float); ("D", (-20)%float)].
Proof.
  unfold processMatch. cbn -[calculateRatingChange].
  change (calculateTeamRating INITIAL_RATING INITIAL_RATING) with 1500%float.
  change INITIAL_RATING with 1500%float.
  rewrite change_even_win, change_even_loss. reflexivity.
Qed.

(** C2: on the single match A,B beat C,D 21-15 between four unseen
    players, the recorded rating changes are +20 for A and B and -20
    for C and D, the current ratings 1520, 1520, 1480 and 1480, and
    every player has one game played. *)
Theorem scenario_single_match :
  ∃ out,
    processAllMatches Math_pow [scenarioMatch] = Some out
    ∧ matches out
      = [ {| pm_match := scenarioMatch;
             pm_ratingChanges :=
               [("A", 20%float); ("B", 20%float);
                ("C", (-20)%float); ("D", (-20)%float)] |} ]
    ∧ (λ p, (player_id p, currentRating p, gamesPlayed p, lastChange p))
        <$> players out
      = [ ("A", 1520%float, Some 1, 20%float);
          ("B", 1520%float, Some 1, 20%float);
          ("C", 1480%float, Some 1, (-20)%float);
          ("D", 1480%float, Some 1, (-20)%float) ].
Proof.
  unfold processAllMatches, runMatches. cbn [foldM]. unfold processOne.
  rewrite scenario_changes. vm_compute. eexists. repeat split.
Qed.

(** C3 at a match with a participant named [__proto__]: the change of
    this player is computed like the other three, but the object
    [ratingChanges] keeps no entry under that name, so the match
    carries three changes, and the player stays at the rating 1500
    with no game played and the initial snapshot alone, while the
    other three get their change and one game. *)
Theorem proto_player_not_updated :
  ∃ out,
    processAllMatches Math_pow [protoMatch] = Some out
    ∧ matches out
      = [ {| pm_match := protoMatch;
             pm_ratingChanges :=
               [("A", 20%float); ("C", (-20)%float); ("D", (-20)%float)] |} ]
    ∧ (λ p, (player_id p, currentRating p, gamesPlayed p,
             length (ratingHistory p)))
        <$> players out
      = [ ("A", 1520%float, Some 1, 2%nat);
          ("__proto__", 1500%float, Some 0, 1%nat);
          ("C", 1480%float, Some 1, 2%nat);
          ("D", 1480%float, Some 1, 2%nat) ].
Proof.
  assert (Hchanges :
            processMatch Math_pow protoMatch
              (playerRatings (initPlayers [protoMatch] emptyState))
              (playerGames (initPlayers [protoMatch] emptyState))
            = [("A", 20%float); ("C", (-20)%float); ("D", (-20)%float)]).
  { unfold processMatch. cbn -[calculateRatingChange].
    change (calculateTeamRating INITIAL_RATING INITIAL_RATING) with 1500%float.
    change INITIAL_RATING with 1500%float.
    rewrite change_even_win, change_even_loss. reflexivity. }
  unfold processAllMatches, runMatches. cbn [foldM]. unfold processOne.
  rewrite Hchanges. vm_compute. eexists. repeat split.
Qed.

End Scenario.

Lemma proto_player_not_updated_witness :
  RefPow.pow 10 0 = 1%float
  ∧ ∃ out, Elo.processAllMatches RefPow.pow [protoMatch] = Some out
           ∧ Elo.gamesPlayed <$> Elo.players out
             = [Some 1; Some 0; Some 1; Some 1].
Proof.
  split; [reflexivity|].
  destruct (proto_player_not_updated RefPow.pow eq_refl) as (out & Hout & _ & Hp).
  exists out. split; [exact Hout|].
  apply (f_equal (fmap (λ q, snd (fst q)))) in Hp.
  rewrite <- list_fmap_compose in Hp. exact Hp.
Defined.

Lemma scenario_single_match_witness :
  RefPow.pow 10 0 = 1%float
  ∧ ∃ out, Elo.processAllMatches RefPow.pow [scenarioMatch] = Some out
           ∧ Elo.currentRating <$> Elo.players out
             = [1520; 1520; 1480; 1480]%float.
Proof.
  split; [reflexivity|].
  destruct (scenario_single_match RefPow.pow eq_refl) as (out & Hout & _ & Hp).
  exists out. split; [exact Hout|].
  apply (f_equal (fmap (λ q, snd (fst (fst q))))) in Hp.
  rewrite <- list_fmap_compose in Hp. exact Hp.
Defined.

(** ** Invariants of the Elo engine *)

Lemma or_elseZ_0 (v : option Z) : JS.or_elseZ v 0 = default 0 v.
Proof. destruct v as [g|]; simpl; [|reflexivity]. now destruct (Z.eqb_spec g 0). Qed.

Lemma foldM_app {A B : Type} (f : B → A → option B) (l1 l2 : list A) (b : B) :
  foldM f b (l1 ++ l2)
  = match foldM f b l1 with Some b' => foldM f b' l2 | None => None end.
Proof.
  revert b. induction l1 as [|x l1 IH]; intros b; simpl; [reflexivity|].
  destruct (f b x); [apply IH | reflexivity].
Qed.

Section EloInvariants.
Import Elo.
Variable Math_pow : float → float → float.
Implicit Types (st : State) (m : Match) (p q : string).

Lemma Coherent_empty : Coherent emptyState.
Proof. repeat split. constructor. Qed.

Lemma Sound_empty : Sound emptyState.
Proof. intros p r g h [=]. Qed.

Lemma known_lookups st p :
  Coherent st → known st p →
  ∃ r g h,
    JsMap.get p (playerRatings st) = Some r
    ∧ JsMap.get p (playerGames st) = Some g
    ∧ JsMap.get p (playerHistory st) = Some h.
Proof.
  intros (_ & Hg & Hh) Hk. unfold known in Hk.
  destruct (keys_get _ _ Hk) as [r Hr].
  rewrite <- Hg in Hk. destruct (keys_get _ _ Hk) as [g Hgg].
  rewrite Hg, <- Hh in Hk. destruct (keys_get _ _ Hk) as [h Hhh].
  eauto 10.
Qed.

Lemma initPlayer_spec m st p :
  Coherent st → Sound st →
  Coherent (initPlayer m st p) ∧ Sound (initPlayer m st p)
  ∧ (∀ q, known (initPlayer m st p) q ↔ q = p ∨ known st q)
  ∧ processedMatches (initPlayer m st p) = processedMatches st.
Proof.
  intros Hc Hs. unfold initPlayer, known.
  destruct (JsMap.has p (playerRatings st)) eqn:E.
  - apply has_true in E. split; [assumption|]. split; [assumption|].
    split; [|reflexivity].
    intros q. split; [now right | intros [->|Hq]; assumption].
  - destruct Hc as (Hnd & Hg & Hh). unfold Coherent, Sound.
    cbn [playerRatings playerGames playerHistory processedMatches].
    assert (Eg : JsMap.has p (playerGames st) = false)
      by (apply has_false; rewrite Hg; now apply has_false).
    assert (Eh : JsMap.has p (playerHistory st) = false)
      by (apply has_false; rewrite Hh; now apply has_false).
    split; [|split; [|split; [|reflexivity]]].
    + split; [now apply NoDup_keys_set|].
      rewrite !keys_set, E, Eg, Eh. now rewrite Hg, Hh.
    + intros q r g h. rewrite !get_set.
      destruct (String.eqb q p).
      * intros [= <-] [= <-] [= <-]. split; [reflexivity|].
        split; [|reflexivity]. eexists. split; [reflexivity|]. repeat split.
      * apply Hs.
    + intros q. apply elem_of_keys_set.
Qed.

Lemma initPlayers_step m l st :
  Coherent st → Sound st →
  Coherent (fold_left (initPlayer m) l st)
  ∧ Sound (fold_left (initPlayer m) l st)
  ∧ (∀ q, known (fold_left (initPlayer m) l st) q ↔ q ∈ l ∨ known st q)
  ∧ processedMatches (fold_left (initPlayer m) l st) = processedMatches st.
Proof.
  revert st. induction l as [|p l IH]; intros st Hc Hs; simpl.
  - split; [assumption|]. split; [assumption|]. split; [|reflexivity].
    intros q. split; [now right|].
    intros [H|H]; [now apply elem_of_nil in H | assumption].
  - destruct (initPlayer_spec m st p Hc Hs) as (Hc1 & Hs1 & Hk1 & Hp1).
    destruct (IH _ Hc1 Hs1) as (Hc2 & Hs2 & Hk2 & Hp2).
    split; [assumption|]. split; [assumption|]. split; [|congruence].
    intros q. rewrite Hk2, Hk1, elem_of_cons. tauto.
Qed.

Lemma initPlayers_spec ms st :
  Coherent st → Sound st →
  Coherent (initPlayers ms st) ∧ Sound (initPlayers ms st)
  ∧ (∀ q, known (initPlayers ms st) q
          ↔ (∃ m, m ∈ ms ∧ q ∈ participants m) ∨ known st q)
  ∧ processedMatches (initPlayers ms st) = processedMatches st.
Proof.
  unfold initPlayers. revert st.
  induction ms as [|m ms IH]; intros st Hc Hs; cbn [fold_left].
  - split; [assumption|]. split; [assumption|]. split; [|reflexivity].
    intros q. split; [now right|].
    intros [(m & Hm & _)|H]; [now apply elem_of_nil in Hm | assumption].
  - destruct (initPlayers_step m (participants m) st Hc Hs)
      as (Hc1 & Hs1 & Hk1 & Hp1).
    destruct (IH _ Hc1 Hs1) as (Hc2 & Hs2 & Hk2 & Hp2).
    split; [assumption|]. split; [assumption|]. split; [|congruence].
    intros q. rewrite Hk2, Hk1. split.
    + intros [(m' & Hm' & Hq)|[Hq|Hq]].
      * left. exists m'. split; [now right | assumption].
      * left. exists m. split; [left | assumption].
      * now right.
    + intros [(m' & Hm' & Hq)|Hq]; [|tauto].
      apply elem_of_cons in Hm' as [->|Hm']; [tauto|]. left. eauto.
Qed.

Lemma applyChange_known m st p c r g h :
  JsMap.get p (playerRatings st) = Some r →
  JsMap.get p (playerGames st) = Some g →
  JsMap.get p (playerHistory st) = Some h →
  applyChange m st (p, c)
  = Some {| playerRatings := JsMap.set p (r + c)%float (playerRatings st);
            playerGames := JsMap.set p (g + 1) (playerGames st);
            playerHistory :=
              JsMap.set p (h ++ [snapshotOf m (r + c)%float c])
                (playerHistory st);
            processedMatches := processedMatches st |}.
Proof.
  intros Hr Hg Hh. unfold applyChange, gamesOf.
  now rewrite Hr, Hg, Hh, or_elseZ_0.
Qed.

Lemma applyChanges_spec m es :
  ∀ st,
    Coherent st → NoDup (JsMap.keys es) →
    (∀ q, q ∈ JsMap.keys es → known st q) →
    ∃ st',
      foldM (applyChange m) st es = Some st'
      ∧ Coherent st'
      ∧ JsMap.keys (playerRatings st') = JsMap.keys (playerRatings st)
      ∧ processedMatches st' = processedMatches st
      ∧ appliedTo m es st st'.
Proof.
  induction es as [|[q c] es IH]; intros st Hc Hnd Hk.
  - exists st. split; [reflexivity|]. split; [assumption|].
    split; [reflexivity|]. split; [reflexivity|]. intros p. simpl. auto.
  - unfold JsMap.keys in Hnd, Hk. rewrite fmap_cons in Hnd, Hk.
    apply NoDup_cons in Hnd as [Hq Hnd]. simpl in Hq.
    destruct (known_lookups st q Hc) as (r & g & h & Hr & Hg & Hh).
    { apply Hk. left. }
    cbn [foldM]. rewrite (applyChange_known m st q c r g h Hr Hg Hh).
    set (st1 := {| playerRatings := _ |}).
    assert (Hkeys1 : JsMap.keys (playerRatings st1) = JsMap.keys (playerRatings st)).
    { apply set_present. eapply get_Some_keys; eauto. }
    assert (Hc1 : Coherent st1).
    { destruct Hc as (Hn & Hgk & Hhk). unfold Coherent, st1.
      cbn [playerRatings playerGames playerHistory].
      rewrite !set_present by (eapply get_Some_keys; eauto). auto. }
    destruct (IH st1 Hc1 Hnd) as (st' & Hrun & Hc' & Hkeys' & Hpm' & Happ).
    { intros q' Hq'. unfold known. rewrite Hkeys1. apply Hk. now right. }
    exists st'. split; [assumption|]. split; [assumption|].
    split; [congruence|]. split; [assumption|].
    intros p. specialize (Happ p). cbn [JsMap.get].
    destruct (String.eqb_spec p q) as [->|Hne].
    + assert (Hnone : JsMap.get q es = None) by now apply get_None_keys.
      rewrite Hnone in Happ. destruct Happ as (H1 & H2 & H3).
      exists r, g, h. rewrite H1, H2, H3. unfold st1.
      cbn [playerRatings playerGames playerHistory].
      rewrite !get_set_eq. auto 10.
    + unfold st1 in Happ. cbn [playerRatings playerGames playerHistory] in Happ.
      rewrite !(get_set_ne p q) in Happ by assumption. exact Happ.
Qed.

Lemma Consistent_push m r g h c :
  Consistent r g h →
  Consistent (r + c)%float (g + 1) (h ++ [snapshotOf m (r + c)%float c]).
Proof.
  intros (Hlen & (s & Hhead & Hs) & Hsum). split; [|split].
  - rewrite length_app. simpl. lia.
  - exists s. split; [|assumption]. destruct h; [discriminate | assumption].
  - unfold sumChanges in *. rewrite fold_left_app. simpl. now rewrite <- Hsum.
Qed.

Lemma Sound_appliedTo m es st st' : Sound st → appliedTo m es st st' → Sound st'.
Proof.
  intros Hs Happ p r' g' h' Hr' Hg' Hh'. specialize (Happ p).
  destruct (JsMap.get p es) as [c|].
  - destruct Happ as (r & g & h & Hr & Hg & Hh & Er & Eg & Eh).
    rewrite Er in Hr'. rewrite Eg in Hg'. rewrite Eh in Hh'.
    injection Hr' as <-. injection Hg' as <-. injection Hh' as <-.
    apply Consistent_push. now apply (Hs p).
  - destruct Happ as (Er & Eg & Eh). rewrite Er in Hr'. rewrite Eg in Hg'.
    rewrite Eh in Hh'. now apply (Hs p).
Qed.

Lemma processMatch_keys m R G :
  NoDup (JsMap.keys (processMatch Math_pow m R G))
  ∧ ∀ q, q ∈ JsMap.keys (processMatch Math_pow m R G) ↔ rated q m.
Proof.
  unfold processMatch. split.
  - repeat apply obj_NoDup_set. constructor.
  - intros q. rewrite !obj_keys_set. unfold rated, participants.
    rewrite !elem_of_cons. unfold JsMap.keys. simpl. rewrite elem_of_nil.
    split.
    + intros [[-> H]|[[-> H]|[[-> H]|[[-> H]|[]]]]]; tauto.
    + intros [Hne [->|[->|[->|[->|[]]]]]]; tauto.
Qed.

Lemma processMatch_enumerated m R G :
  Enumerated (participants m) (JsMap.keys (processMatch Math_pow m R G)).
Proof.
  unfold processMatch, participants.
  change [fst (team1 m); snd (team1 m); fst (team2 m); snd (team2 m)]
    with (((([] ++ [fst (team1 m)]) ++ [snd (team1 m)]) ++ [fst (team2 m)])
            ++ [snd (team2 m)]).
  repeat (apply obj_set_enumerated;
          [intros q; rewrite ?obj_keys_set, ?elem_of_app,
             ?list_elem_of_singleton; unfold JsMap.keys; simpl;
           rewrite elem_of_nil; tauto|]).
  exists [], []. repeat split; constructor.
Qed.

(** The change [processMatch] records under a name. *)
Lemma processMatch_side m R G p :
  JsMap.get p (processMatch Math_pow m R G)
  = if String.eqb p "__proto__" then None
    else if DataManager.teamIncludes (team2 m) p
         then Some (frozenDelta Math_pow m R G false p)
         else if DataManager.teamIncludes (team1 m) p
              then Some (frozenDelta Math_pow m R G true p)
              else None.
Proof.
  unfold processMatch, DataManager.teamIncludes, frozenDelta, ratingOf, gamesOf,
    INITIAL_RATING.
  rewrite !obj_get_set. cbn [JsMap.get].
  rewrite !(String.eqb_sym p).
  destruct (String.eqb_spec "__proto__" p) as [<-|Hp].
  - rewrite !(String.eqb_sym _ "__proto__").
    repeat match goal with
           | |- context [String.eqb "__proto__" ?k] =>
               destruct (String.eqb "__proto__" k)
           end; reflexivity.
  - destruct (String.eqb_spec (snd (team2 m)) p) as [<-|_].
    { apply not_eq_sym, String.eqb_neq in Hp. rewrite Hp.
      now rewrite orb_true_r. }
    destruct (String.eqb_spec (fst (team2 m)) p) as [<-|_].
    { apply not_eq_sym, String.eqb_neq in Hp. rewrite Hp.
      now destruct (String.eqb (snd (team2 m)) "__proto__"). }
    destruct (String.eqb_spec (snd (team1 m)) p) as [<-|_].
    { apply not_eq_sym, String.eqb_neq in Hp. rewrite Hp. rewrite orb_true_r.
      now destruct (String.eqb (snd (team2 m)) "__proto__"),
        (String.eqb (fst (team2 m)) "__proto__"). }
    destruct (String.eqb_spec (fst (team1 m)) p) as [<-|_].
    { apply not_eq_sym, String.eqb_neq in Hp. rewrite Hp.
      now destruct (String.eqb (snd (team2 m)) "__proto__"),
        (String.eqb (fst (team2 m)) "__proto__"),
        (String.eqb (snd (team1 m)) "__proto__"). }
    now destruct (String.eqb (snd (team2 m)) "__proto__"),
      (String.eqb (fst (team2 m)) "__proto__"),
      (String.eqb (snd (team1 m)) "__proto__"),
      (String.eqb (fst (team1 m)) "__proto__").
Qed.

Lemma processOne_spec m st :
  Coherent st → (∀ q, q ∈ participants m → known st q) →
  ∃ st',
    processOne Math_pow st m = Some st'
    ∧ Coherent st'
    ∧ JsMap.keys (playerRatings st') = JsMap.keys (playerRatings st)
    ∧ processedMatches st'
      = processedMatches st
          ++ [ {| pm_match := m;
                  pm_ratingChanges :=
                    processMatch Math_pow m (playerRatings st) (playerGames st) |} ]
    ∧ appliedTo m (processMatch Math_pow m (playerRatings st) (playerGames st))
        st st'.
Proof.
  intros Hc Hk. unfold processOne.
  destruct (processMatch_keys m (playerRatings st) (playerGames st)) as [Hnd Hin].
  destruct (applyChanges_spec m _ st Hc Hnd) as (st1 & Hrun & Hc1 & Hk1 & Hp1 & Happ).
  { intros q Hq. apply Hk. now apply Hin. }
  rewrite Hrun. eexists. split; [reflexivity|].
  split; [exact Hc1|]. split; [exact Hk1|]. split; [now rewrite Hp1|]. exact Happ.
Qed.

Lemma runMatches_spec ms :
  ∀ st,
    Coherent st → Sound st →
    (∀ m q, m ∈ ms → q ∈ participants m → known st q) →
    ∃ st',
      runMatches Math_pow st ms = Some st'
      ∧ Coherent st' ∧ Sound st'
      ∧ JsMap.keys (playerRatings st') = JsMap.keys (playerRatings st).
Proof.
  unfold runMatches. induction ms as [|m ms IH]; intros st Hc Hs Hk.
  - exists st. auto.
  - destruct (processOne_spec m st Hc) as (st1 & Hone & Hc1 & Hk1 & _ & Happ).
    { intros q Hq. apply (Hk m); [left | assumption]. }
    cbn [foldM]. rewrite Hone.
    destruct (IH st1 Hc1) as (st' & Hrun & Hc' & Hs' & Hk').
    { eapply Sound_appliedTo; eauto. }
    { intros m' q Hm' Hq. unfold known. rewrite Hk1. apply (Hk m'); [now right | assumption]. }
    exists st'. split; [assumption|]. split; [assumption|]. split; [assumption|].
    congruence.
Qed.

Lemma buildPlayer_spec st p r :
  Coherent st → Sound st → (p, r) ∈ playerRatings st →
  ∃ rec, buildPlayer st (p, r) = Some rec
         ∧ recordConsistent rec ∧ player_id rec = p ∧ currentRating rec = r.
Proof.
  intros Hc Hs Hin.
  assert (Hr : JsMap.get p (playerRatings st) = Some r)
    by (apply elem_get; [apply Hc | assumption]).
  destruct (known_lookups st p Hc) as (r' & g & h & Hr' & Hg & Hh).
  { eapply get_Some_keys; eauto. }
  rewrite Hr in Hr'. injection Hr' as <-.
  pose proof (Hs p r g h Hr Hg Hh) as Hcons.
  unfold buildPlayer. rewrite Hg, Hh. eexists. split; [reflexivity|].
  split; [|split; reflexivity].
  exists g. cbn [gamesPlayed currentRating ratingHistory lastChange].
  split; [reflexivity|]. split; [assumption|].
  destruct Hcons as (Hlen & (s0 & Hhead & _ & _ & Hzero) & _).
  destruct h as [|s1 [|s2 h]]; [discriminate| |].
  - injection Hhead as ->. split; [|reflexivity].
    exists s0. split; [reflexivity|]. simpl. now rewrite Hzero.
  - split; [|simpl; discriminate].
    destruct (last (s1 :: s2 :: h)) as [s|] eqn:El.
    + exists s. split; reflexivity.
    + apply last_None in El. discriminate.
Qed.

Lemma buildPlayers_from st l :
  Coherent st → Sound st → (∀ e, e ∈ l → e ∈ playerRatings st) →
  ∀ acc,
    ∃ ps,
      foldM (λ acc e,
               match buildPlayer st e with
               | Some p => Some (acc ++ [p])
               | None => None
               end) acc l = Some (acc ++ ps)
      ∧ Forall recordConsistent ps
      ∧ ∀ e, e ∈ l → ∃ rec, rec ∈ ps ∧ buildPlayer st e = Some rec.
Proof.
  intros Hc Hs. induction l as [|[p r] l IH]; intros Hl acc.
  - exists []. rewrite app_nil_r. split; [reflexivity|]. split; [constructor|].
    intros e He. now apply elem_of_nil in He.
  - destruct (buildPlayer_spec st p r Hc Hs) as (rec & Hrec & Hok & _).
    { apply Hl. left. }
    destruct (IH (λ e He, Hl e (list_elem_of_further _ _ _ He)) (acc ++ [rec]))
      as (ps & Hps & Hall & Hmem).
    exists (rec :: ps). cbn [foldM]. rewrite Hrec, Hps, <- app_assoc.
    split; [reflexivity|]. split; [now constructor|].
    intros e He. apply elem_of_cons in He as [->|He].
    + exists rec. split; [left | assumption].
    + destruct (Hmem e He) as (rec' & Hin & Hb). exists rec'.
      split; [now right | assumption].
Qed.

(** C8: every record of the [players] array has [gamesPlayed + 1]
    history entries, the first of them the initial snapshot (rating
    1500, no match, change 0); its current rating is 1500 plus the
    changes of the history; and [lastChange] is the change of the last
    entry, 0 when the history is the initial snapshot alone. *)
Theorem history_consistent (ms : list Match) :
  ∃ out,
    processAllMatches Math_pow ms = Some out
    ∧ Forall recordConsistent (players out).
Proof.
  destruct (initPlayers_spec ms emptyState Coherent_empty Sound_empty)
    as (Hc0 & Hs0 & Hk0 & _).
  destruct (runMatches_spec ms _ Hc0 Hs0) as (st & Hrun & Hc & Hs & _).
  { intros m q Hm Hq. apply Hk0. left. eauto. }
  destruct (buildPlayers_from st (playerRatings st) Hc Hs (λ e He, He) [])
    as (ps & Hps & Hok & _).
  unfold processAllMatches. rewrite Hrun. unfold buildPlayers. rewrite Hps.
  eexists. split; [reflexivity|]. cbn [players].
  now rewrite Array_sort_perm.
Qed.

(** X27: in a match between four distinct players, none of them
    named [__proto__], the change recorded for each of the four is
    computed from the ratings and the games counts of the state before
    the match, those of the player and of the two opponents, and the
    state after the match has, for each of the four, that change added
    to the rating and one game more.  The match records no other
    change. *)
Theorem rating_changes_frozen (pre post : list Match) (m : Match) :
  NoDup (participants m) →
  "__proto__"%string ∉ participants m →
  ∃ st st' pm,
    runMatches Math_pow (initPlayers (pre ++ m :: post) emptyState) pre
    = Some st
    ∧ runMatches Math_pow (initPlayers (pre ++ m :: post) emptyState)
        (pre ++ [m])
      = Some st'
    ∧ last (processedMatches st') = Some pm
    ∧ pm_match pm = m
    ∧ JsMap.keys (pm_ratingChanges pm) ≡ₚ participants m
    ∧ Forall
        (λ sp,
           ∃ r g,
             JsMap.get (snd sp) (playerRatings st) = Some r
             ∧ JsMap.get (snd sp) (playerGames st) = Some g
             ∧ JsMap.get (snd sp) (pm_ratingChanges pm)
               = Some (frozenDelta Math_pow m (playerRatings st)
                         (playerGames st) (fst sp) (snd sp))
             ∧ JsMap.get (snd sp) (playerRatings st')
               = Some (r + frozenDelta Math_pow m (playerRatings st)
                             (playerGames st) (fst sp) (snd sp))%float
             ∧ JsMap.get (snd sp) (playerGames st') = Some (g + 1))
        [ (true, fst (team1 m)); (true, snd (team1 m));
          (false, fst (team2 m)); (false, snd (team2 m)) ].
Proof.
  intros Hnd Hproto.
  destruct (initPlayers_spec (pre ++ m :: post) emptyState
              Coherent_empty Sound_empty) as (Hc0 & Hs0 & Hk0 & _).
  destruct (runMatches_spec pre _ Hc0 Hs0) as (st & Hrun & Hc & Hs & Hkeys).
  { intros m' q Hm' Hq. apply Hk0. left. exists m'.
    split; [|assumption]. apply elem_of_app. now left. }
  destruct (processOne_spec m st Hc) as (st' & Hone & _ & _ & Hpm & Happ).
  { intros q Hq. unfold known. rewrite Hkeys. apply Hk0. left. exists m.
    split; [|assumption]. apply elem_of_app. right. left. }
  set (es := processMatch Math_pow m (playerRatings st) (playerGames st)) in *.
  exists st, st', {| pm_match := m; pm_ratingChanges := es |}.
  split; [assumption|]. split.
  { unfold runMatches in *. rewrite foldM_app, Hrun. cbn [foldM].
    now rewrite Hone. }
  split; [rewrite Hpm; apply last_snoc|]. split; [reflexivity|].
  cbn [pm_ratingChanges].
  destruct (processMatch_keys m (playerRatings st) (playerGames st))
    as [Hndk Hink]. fold es in Hndk, Hink.
  split.
  { apply NoDup_Permutation; [assumption..|].
    intros q. rewrite Hink. unfold rated. split; [tauto|].
    intros Hq. split; [congruence | assumption]. }
  assert (Hget : ∀ side p,
            p ∈ participants m →
            JsMap.get p es
            = Some (frozenDelta Math_pow m (playerRatings st) (playerGames st)
                      side p) →
            ∃ r g,
              JsMap.get p (playerRatings st) = Some r
              ∧ JsMap.get p (playerGames st) = Some g
              ∧ JsMap.get p es
                = Some (frozenDelta Math_pow m (playerRatings st)
                          (playerGames st) side p)
              ∧ JsMap.get p (playerRatings st')
                = Some (r + frozenDelta Math_pow m (playerRatings st)
                              (playerGames st) side p)%float
              ∧ JsMap.get p (playerGames st') = Some (g + 1)).
  { intros side p Hp Hes. specialize (Happ p). rewrite Hes in Happ.
    destruct Happ as (r & g & h & Hr & Hg & _ & Hr' & Hg' & _). eauto 10. }
  assert (Hside : ∀ p, p ∈ participants m →
            JsMap.get p es
            = if DataManager.teamIncludes (team2 m) p
              then Some (frozenDelta Math_pow m (playerRatings st)
                           (playerGames st) false p)
              else if DataManager.teamIncludes (team1 m) p
                   then Some (frozenDelta Math_pow m (playerRatings st)
                                (playerGames st) true p)
                   else None).
  { intros p Hp. unfold es. rewrite processMatch_side.
    destruct (String.eqb_spec p "__proto__") as [->|_]; [contradiction|].
    reflexivity. }
  unfold participants in Hnd. rewrite !NoDup_cons, !not_elem_of_cons in Hnd.
  destruct Hnd as ((Hab & Hac & Had & _) & (Hbc & Hbd & _) & (Hcd & _) & _).
  apply String.eqb_neq in Hab, Hac, Had, Hbc, Hbd, Hcd.
  pose proof Hab as Hba. pose proof Hac as Hca. pose proof Had as Hda.
  pose proof Hbc as Hcb. pose proof Hbd as Hdb. pose proof Hcd as Hdc.
  rewrite String.eqb_sym in Hba, Hca, Hda, Hcb, Hdb, Hdc.
  repeat (apply Forall_cons; split); [..|constructor]; cbn [fst snd];
    (apply Hget;
     [unfold participants; rewrite !elem_of_cons; tauto|]);
    rewrite Hside by (unfold participants; rewrite !elem_of_cons; tauto);
    unfold DataManager.teamIncludes;
    rewrite ?String.eqb_refl, ?Hab, ?Hac, ?Had, ?Hbc, ?Hbd, ?Hcd,
      ?Hba, ?Hca, ?Hda, ?Hcb, ?Hdb, ?Hdc, ?orb_true_r; reflexivity.
Qed.

End EloInvariants.

Lemma rating_changes_frozen_witness :
  NoDup (participants scenarioMatch)
  ∧ ("__proto__"%string ∉ participants scenarioMatch)
  ∧ ∃ st',
      Elo.runMatches RefPow.pow (Elo.initPlayers [scenarioMatch] Elo.emptyState)
        [scenarioMatch] = Some st'
      ∧ JsMap.get "C" (Elo.playerRatings st') = Some 1480%float.
Proof.
  assert (H : NoDup (participants scenarioMatch)).
  { unfold participants. simpl. repeat (apply NoDup_cons; split);
      [..|constructor]; rewrite ?not_elem_of_cons, ?elem_of_nil;
      repeat split; discriminate || tauto. }
  assert (H' : "__proto__"%string ∉ participants scenarioMatch).
  { unfold participants. simpl. rewrite !not_elem_of_cons, elem_of_nil.
    repeat split; discriminate || tauto. }
  split; [exact H|]. split; [exact H'|].
  destruct (rating_changes_frozen RefPow.pow [] [] scenarioMatch H H')
    as (st & st' & pm & Hst & Hst' & _ & _ & _ & Hall).
  exists st'. split; [exact Hst'|].
  injection Hst as <-.
  apply Forall_cons in Hall as [_ Hall]. apply Forall_cons in Hall as [_ Hall].
  apply Forall_cons in Hall as [(r & g & Hr & _ & _ & Hr' & _) _].
  injection Hr as <-. exact Hr'.
Defined.

(** ** A rating of 0 is read as 1500 *)

(** C7 at a state where a player who has played holds the rating 0:
    [processMatch] reads 1500 for this player, not the current rating,
    and computes the change from 1500. *)
Theorem zero_rating_read_as_initial (Math_pow : float → float → float) :
  JsMap.get "A" ratingsWithZero = Some 0%float
  ∧ JsMap.get "A" twentyGames = Some 20
  ∧ Elo.ratingOf ratingsWithZero "A" = 1500%float
  ∧ Elo.processMatch Math_pow scenarioMatch ratingsWithZero twentyGames
    = [ ("A", Elo.calculateRatingChange Math_pow 1500 1500 true 20);
        ("B", Elo.calculateRatingChange Math_pow 1500 1500 true 20);
        ("C", Elo.calculateRatingChange Math_pow 1500 1500 false 20);
        ("D", Elo.calculateRatingChange Math_pow 1500 1500 false 20) ].
Proof. repeat split. Qed.

(** With [RefPow.pow] the change of A comes out as +16, where the
    current rating 0 against a team at 1500 gives +32; the update then
    adds the +16 to the stored 0. *)
Example zero_rating_numbers :
  JsMap.get "A"
    (Elo.processMatch RefPow.pow scenarioMatch ratingsWithZero twentyGames)
  = Some 16%float
  ∧ Elo.calculateRatingChange RefPow.pow 0 1500 true 20 = 32%float
  ∧ Elo.playerRatings <$> Elo.processOne RefPow.pow stateWithZero scenarioMatch
    = Some [("A", 16%float); ("B", 1516%float);
            ("C", 1484%float); ("D", 1484%float)].
Proof. vm_compute. repeat split. Qed.

(** ** The ratings a match reads are the current ones *)

Section EloLookups.
Import Elo.
Variable Math_pow : float → float → float.
Implicit Types (st S T : State) (m : Match) (p q : string).

Lemma initPlayer_view m st p q :
  known st q → view (initPlayer m st p) q = view st q.
Proof.
  unfold initPlayer, view, known. intros Hq.
  destruct (JsMap.has p (playerRatings st)) eqn:E; [reflexivity|].
  apply has_false in E. assert (q ≠ p) by congruence.
  cbn [playerRatings playerGames playerHistory].
  now rewrite !get_set_ne.
Qed.

Lemma initPlayer_known m st p q : known st q → known (initPlayer m st p) q.
Proof.
  unfold initPlayer, known. intros Hq.
  destruct (JsMap.has p (playerRatings st)); [assumption|].
  cbn [playerRatings]. apply elem_of_keys_set. now right.
Qed.

Lemma initPlayer_initial m st p :
  AllInitial st → AllInitial (initPlayer m st p).
Proof.
  unfold AllInitial, initPlayer, known. intros Hst q.
  destruct (JsMap.has p (playerRatings st)) eqn:E; [apply Hst|].
  cbn [playerRatings playerGames]. rewrite elem_of_keys_set, !get_set.
  destruct (String.eqb_spec q p) as [->|Hne]; [auto|].
  intros [?|Hq]; [contradiction | now apply Hst].
Qed.

Lemma initPlayers_keep ms :
  ∀ st,
    (∀ q, known st q → known (initPlayers ms st) q
                       ∧ view (initPlayers ms st) q = view st q)
    ∧ (AllInitial st → AllInitial (initPlayers ms st)).
Proof.
  unfold initPlayers.
  assert (Hstep : ∀ m l st,
            (∀ q, known st q →
                  known (fold_left (initPlayer m) l st) q
                  ∧ view (fold_left (initPlayer m) l st) q = view st q)
            ∧ (AllInitial st → AllInitial (fold_left (initPlayer m) l st))).
  { intros m l. induction l as [|p l IH]; intros st; cbn [fold_left];
      [split; auto|].
    destruct (IH (initPlayer m st p)) as [Hk Hi]. split.
    - intros q Hq. destruct (Hk q (initPlayer_known m st p q Hq)) as [H1 H2].
      split; [assumption|]. now rewrite H2, initPlayer_view.
    - intros H. apply Hi. now apply initPlayer_initial. }
  induction ms as [|m ms IH]; intros st; cbn [fold_left]; [split; auto|].
  destruct (Hstep m (participants m) st) as [Hk1 Hi1].
  destruct (IH (fold_left (initPlayer m) (participants m) st)) as [Hk2 Hi2].
  split.
  - intros q Hq. destruct (Hk1 q Hq) as [H1 H2].
    destruct (Hk2 q H1) as [H3 H4]. split; [assumption | congruence].
  - auto.
Qed.

Lemma processMatch_ext m R G R' G' :
  (∀ q, q ∈ participants m →
        JsMap.get q R = JsMap.get q R' ∧ JsMap.get q G = JsMap.get q G') →
  processMatch Math_pow m R G = processMatch Math_pow m R' G'.
Proof.
  intros H. unfold participants in H.
  destruct (H (fst (team1 m))) as [Ha1 Ha2]; [rewrite !elem_of_cons; tauto|].
  destruct (H (snd (team1 m))) as [Hb1 Hb2]; [rewrite !elem_of_cons; tauto|].
  destruct (H (fst (team2 m))) as [Hc1 Hc2]; [rewrite !elem_of_cons; tauto|].
  destruct (H (snd (team2 m))) as [Hd1 Hd2]; [rewrite !elem_of_cons; tauto|].
  unfold processMatch, ratingOf, gamesOf.
  now rewrite Ha1, Ha2, Hb1, Hb2, Hc1, Hc2, Hd1, Hd2.
Qed.

Lemma processMatch_get m R G q :
  (rated q m → ∃ c, JsMap.get q (processMatch Math_pow m R G) = Some c)
  ∧ (¬ rated q m → JsMap.get q (processMatch Math_pow m R G) = None).
Proof.
  split.
  - intros Hq. apply keys_get. now apply (processMatch_keys Math_pow m R G).
  - intros Hq. apply get_None_keys. intros Hin. apply Hq.
    now apply (processMatch_keys Math_pow m R G).
Qed.

Lemma known_view_Some st q : Coherent st → known st q ↔ ∃ r, (view st q).1.1 = Some r.
Proof.
  intros Hc. unfold view, known. simpl. split.
  - apply keys_get.
  - intros [r Hr]. eapply get_Some_keys; eauto.
Qed.

Lemma processOne_agree m S T :
  Coherent S → Coherent T → Agree S T →
  (∀ q, q ∈ participants m → known T q) →
  ∃ S' T',
    processOne Math_pow S m = Some S'
    ∧ processOne Math_pow T m = Some T'
    ∧ Coherent S' ∧ Coherent T'
    ∧ JsMap.keys (playerRatings S') = JsMap.keys (playerRatings S)
    ∧ JsMap.keys (playerRatings T') = JsMap.keys (playerRatings T)
    ∧ Agree S' T'
    ∧ (Sound T → Sound T')
    ∧ (∀ q, rated q m →
            ∀ g, JsMap.get q (playerGames S) = Some g →
                 JsMap.get q (playerGames S') = Some (g + 1))
    ∧ (∀ q, ¬ rated q m → view S' q = view S q).
Proof.
  intros HcS HcT Hag HkT.
  assert (HkS : ∀ q, q ∈ participants m → known S q).
  { intros q Hq. apply (known_view_Some S q HcS). rewrite (Hag q (HkT q Hq)).
    now apply (known_view_Some T q HcT), HkT. }
  destruct (processOne_spec Math_pow m S HcS HkS)
    as (S' & HS' & HcS' & HkS' & _ & HappS).
  destruct (processOne_spec Math_pow m T HcT HkT)
    as (T' & HT' & HcT' & HkT' & _ & HappT).
  assert (Hes : processMatch Math_pow m (playerRatings S) (playerGames S)
                = processMatch Math_pow m (playerRatings T) (playerGames T)).
  { apply processMatch_ext. intros q Hq.
    pose proof (Hag q (HkT q Hq)) as Hv. unfold view in Hv.
    injection Hv as -> -> _. auto. }
  rewrite Hes in HappS.
  exists S', T'. repeat (split; [assumption|]).
  split; [|split; [|split]].
  - intros q Hq. unfold known in Hq. rewrite HkT' in Hq.
    pose proof (Hag q Hq) as Hv. unfold view in *.
    specialize (HappS q). specialize (HappT q).
    destruct (JsMap.get q (processMatch Math_pow m _ _)).
    + destruct HappS as (r & g & h & Hr & Hg & Hh & -> & -> & ->).
      destruct HappT as (r' & g' & h' & Hr' & Hg' & Hh' & -> & -> & ->).
      rewrite Hr, Hg, Hh, Hr', Hg', Hh' in Hv. now injection Hv as -> -> ->.
    + destruct HappS as (-> & -> & ->). destruct HappT as (-> & -> & ->).
      assumption.
  - intros Hs. eapply Sound_appliedTo; eauto.
  - intros q Hq g Hg. specialize (HappS q).
    destruct (proj1 (processMatch_get m (playerRatings T) (playerGames T) q) Hq)
      as [c Hc].
    rewrite Hc in HappS. destruct HappS as (r & g' & h & _ & Hg' & _ & _ & E & _).
    congruence.
  - intros q Hq. specialize (HappS q).
    rewrite (proj2 (processMatch_get m (playerRatings T) (playerGames T) q) Hq)
      in HappS.
    destruct HappS as (E1 & E2 & E3). unfold view. now rewrite E1, E2, E3.
Qed.

Lemma ratedCount_cons p m pre :
  ratedCount p (m :: pre)
  = (if bool_decide (rated p m) then 1 else 0) + ratedCount p pre.
Proof.
  unfold ratedCount. rewrite filter_cons.
  destruct (decide (rated p m)).
  - rewrite bool_decide_eq_true_2 by assumption. simpl length. lia.
  - rewrite bool_decide_eq_false_2 by assumption. lia.
Qed.

Lemma ratedCount_nonneg p pre : 0 <= ratedCount p pre.
Proof. unfold ratedCount. lia. Qed.

Lemma rated_filter p ms :
  filter (rated p) ms
  = if bool_decide (p = "__proto__"%string) then [] else matchesOf p ms.
Proof.
  unfold matchesOf. destruct (decide (p = "__proto__"%string)) as [->|Hne].
  - rewrite bool_decide_eq_true_2 by reflexivity.
    apply elem_of_nil_inv. intros m Hm.
    apply list_elem_of_filter in Hm as [[Hm _] _]. now apply Hm.
  - rewrite bool_decide_eq_false_2 by assumption.
    apply list_filter_iff. intros m. unfold rated. tauto.
Qed.

Lemma ratedCount_playedBy p ms :
  ratedCount p ms
  = if bool_decide (p = "__proto__"%string) then 0 else playedBy p ms.
Proof.
  unfold ratedCount, playedBy. rewrite rated_filter.
  now destruct (bool_decide (p = "__proto__"%string)).
Qed.

Lemma runMatches_agree pre :
  ∀ S T,
    Coherent S → Coherent T → Sound T → Agree S T →
    (∀ m q, m ∈ pre → q ∈ participants m → known T q) →
    ∃ S' T',
      runMatches Math_pow S pre = Some S'
      ∧ runMatches Math_pow T pre = Some T'
      ∧ Coherent T' ∧ Sound T'
      ∧ JsMap.keys (playerRatings T') = JsMap.keys (playerRatings T)
      ∧ Agree S' T'
      ∧ (∀ q g, JsMap.get q (playerGames S) = Some g →
                JsMap.get q (playerGames S') = Some (g + ratedCount q pre))
      ∧ (∀ q, ratedCount q pre = 0 → view S' q = view S q).
Proof.
  unfold runMatches.
  induction pre as [|m pre IH]; intros S T HcS HcT HsT Hag Hk.
  - exists S, T. repeat (split; [assumption || reflexivity|]). split.
    + intros q g Hg. unfold ratedCount. simpl. now rewrite Z.add_0_r.
    + reflexivity.
  - destruct (processOne_agree m S T HcS HcT Hag)
      as (S1 & T1 & HS1 & HT1 & HcS1 & HcT1 & _ & HkT1 & Hag1 & HsT1 & Hg1 & Hv1).
    { intros q Hq. apply (Hk m); [left | assumption]. }
    destruct (IH S1 T1 HcS1 HcT1 (HsT1 HsT) Hag1)
      as (S' & T' & HS' & HT' & HcT' & HsT' & HkT' & Hag' & Hg' & Hv').
    { intros m' q Hm' Hq. unfold known. rewrite HkT1.
      apply (Hk m'); [now right | assumption]. }
    exists S', T'. cbn [foldM]. rewrite HS1, HT1.
    split; [assumption|]. split; [assumption|]. split; [assumption|].
    split; [assumption|]. split; [congruence|]. split; [assumption|].
    split.
    + intros q g Hg. rewrite ratedCount_cons.
      destruct (decide (rated q m)) as [Hq|Hq].
      * rewrite bool_decide_eq_true_2 by assumption.
        rewrite (Hg' q (g + 1)) by now apply Hg1. f_equal. lia.
      * rewrite bool_decide_eq_false_2 by assumption.
        pose proof (Hv1 q Hq) as E. unfold view in E.
        injection E as _ E _. rewrite <- E in Hg.
        rewrite (Hg' q g Hg). f_equal.
    + intros q. rewrite ratedCount_cons. pose proof (ratedCount_nonneg q pre).
      destruct (decide (rated q m)) as [Hq|Hq].
      * rewrite bool_decide_eq_true_2 by assumption. lia.
      * rewrite bool_decide_eq_false_2 by assumption. intros H0.
        rewrite Hv' by lia. now apply Hv1.
Qed.

Lemma playedBy_pos p pre :
  playedBy p pre ≠ 0 → ∃ m, m ∈ pre ∧ p ∈ participants m.
Proof.
  unfold playedBy. intros H.
  destruct (filter (λ m, p ∈ participants m) pre) as [|m l] eqn:E;
    [simpl in H; lia|].
  assert (Hm : m ∈ filter (λ m, p ∈ participants m) pre) by (rewrite E; left).
  apply list_elem_of_filter in Hm as [Hp Hm]. eauto.
Qed.

Lemma ratedCount_other p ms :
  p ≠ "__proto__"%string → ratedCount p ms = playedBy p ms.
Proof.
  intros Hp. rewrite ratedCount_playedBy.
  now rewrite bool_decide_eq_false_2.
Qed.

(** X1 (C7 away from the rating 0): the rating and the games count a
    match reads for a participant who is not named [__proto__].  The
    games count is the number of earlier matches of the player; an
    unseen player is read at 1500; a player seen before is read at the
    current rating, the one a run over the earlier matches alone
    reports, passed through [|| INITIAL_RATING]. *)
Theorem lookups_are_current (pre post : list Match) (m : Match) (p : string) :
  p ∈ participants m →
  p ≠ "__proto__"%string →
  ∃ st,
    runMatches Math_pow (initPlayers (pre ++ m :: post) emptyState) pre
    = Some st
    ∧ gamesOf (playerGames st) p = playedBy p pre
    ∧ (playedBy p pre = 0 → ratingOf (playerRatings st) p = INITIAL_RATING)
    ∧ (playedBy p pre ≠ 0 →
       ∃ out rec,
         processAllMatches Math_pow pre = Some out
         ∧ rec ∈ players out
         ∧ player_id rec = p
         ∧ gamesPlayed rec = Some (playedBy p pre)
         ∧ JsMap.get p (playerRatings st) = Some (currentRating rec)
         ∧ ratingOf (playerRatings st) p
           = JS.or_else (Some (currentRating rec)) INITIAL_RATING
         ∧ (JS.falsy (currentRating rec) = false →
            ratingOf (playerRatings st) p = currentRating rec)).
Proof.
  intros Hp Hproto.
  destruct (initPlayers_spec pre emptyState Coherent_empty Sound_empty)
    as (HcT & HsT & HkT & _).
  set (T0 := initPlayers pre emptyState) in *.
  assert (HS0 : initPlayers (pre ++ m :: post) emptyState
                = initPlayers (m :: post) T0).
  { unfold initPlayers, T0. apply fold_left_app. }
  destruct (initPlayers_spec (m :: post) T0 HcT HsT) as (HcS & _ & HkS & _).
  destruct (initPlayers_keep (m :: post) T0) as [Hkeep _].
  destruct (initPlayers_keep (pre ++ m :: post) emptyState) as [_ Hinit].
  assert (Hinit0 : AllInitial (initPlayers (pre ++ m :: post) emptyState)).
  { apply Hinit. intros q Hq. now apply elem_of_nil in Hq. }
  rewrite HS0 in *. set (S0 := initPlayers (m :: post) T0) in *.
  destruct (runMatches_agree pre S0 T0 HcS HcT HsT)
    as (S' & T' & HS' & HT' & HcT' & HsT' & HkT' & Hag & Hgames & Hsame).
  { intros q Hq. now apply Hkeep. }
  { intros m' q Hm' Hq. apply HkT. left. eauto. }
  assert (HpS : known S0 p).
  { apply HkS. left. exists m. split; [left | assumption]. }
  destruct (Hinit0 p HpS) as [Hr0 Hg0].
  pose proof (Hgames p 0 Hg0) as Hg'. rewrite Z.add_0_l in Hg'.
  rewrite (ratedCount_other p pre Hproto) in Hg'.
  assert (Hsame' : playedBy p pre = 0 → view S' p = view S0 p).
  { intros H0. apply Hsame. now rewrite ratedCount_other. }
  exists S'. split; [assumption|]. split; [|split].
  - unfold gamesOf. now rewrite Hg', or_elseZ_0.
  - intros H0. pose proof (Hsame' H0) as E. unfold view in E.
    injection E as E _ _. unfold ratingOf. now rewrite E, Hr0.
  - intros Hn. destruct (playedBy_pos p pre Hn) as (m' & Hm' & Hpm').
    assert (HpT : known T' p).
    { unfold known. rewrite HkT'. apply HkT. left. eauto. }
    pose proof (Hag p HpT) as E. unfold view in E. injection E as Er Eg _.
    destruct (keys_get _ _ HpT) as [r Hr].
    destruct (buildPlayers_from T' (playerRatings T') HcT' HsT' (λ e He, He) [])
      as (ps & Hps & _ & Hmem).
    destruct (Hmem (p, r) (get_Some_elem _ _ _ Hr)) as (rec & Hrec & Hbuild).
    assert (Hfields : player_id rec = p ∧ currentRating rec = r
                      ∧ gamesPlayed rec = JsMap.get p (playerGames T')).
    { unfold buildPlayer in Hbuild.
      destruct (JsMap.get p (playerHistory T')); [|discriminate].
      injection Hbuild as <-. auto. }
    destruct Hfields as (Hid & Hcur & Hgp).
    eexists. exists rec. unfold processAllMatches. fold T0. rewrite HT'.
    unfold buildPlayers. rewrite Hps. split; [reflexivity|]. cbn [players].
    split; [now rewrite Array_sort_perm|]. split; [assumption|].
    split; [now rewrite Hgp, <- Eg|].
    assert (Hrs : JsMap.get p (playerRatings S') = Some (currentRating rec))
      by now rewrite Er, Hcur.
    split; [assumption|]. unfold ratingOf. rewrite Hrs.
    split; [reflexivity|]. intros Hf. simpl. now rewrite Hf.
Qed.

End EloLookups.

Lemma lookups_are_current_witness :
  "A" ∈ participants scenarioMatch
  ∧ "A"%string ≠ "__proto__"%string
  ∧ ∃ st,
      Elo.runMatches RefPow.pow
        (Elo.initPlayers [scenarioMatch; scenarioMatch] Elo.emptyState)
        [scenarioMatch] = Some st
      ∧ Elo.gamesOf (Elo.playerGames st) "A" = 1.
Proof.
  assert (H : "A" ∈ participants scenarioMatch) by left.
  split; [exact H|]. split; [discriminate|].
  destruct (lookups_are_current RefPow.pow [scenarioMatch] [] scenarioMatch "A" H
              ltac:(discriminate))
    as (st & Hst & Hg & _).
  exists st. split; [exact Hst | exact Hg].
Defined.

(** ** What [processAllMatches] returns *)

(** [r - r] is [0] or [NaN], never positive. *)
Lemma ltb_sub_diag (r : float) : PrimFloat.ltb 0 (r - r) = false.
Proof.
  rewrite FloatAxioms.ltb_spec, FloatAxioms.sub_spec.
  destruct (Prim2SF r) as [s|s| |s m e]; try reflexivity.
  - destruct s; reflexivity.
  - destruct s; reflexivity.
  - unfold FloatAxioms.SF64sub, SFsub. rewrite Z.sub_diag. reflexivity.
Qed.

Lemma head_app_Some {A : Type} (l1 l2 : list A) x :
  head l1 = Some x → head (l1 ++ l2) = Some x.
Proof. destruct l1; [discriminate | auto]. Qed.

Lemma matchesOf_app p l1 l2 : matchesOf p (l1 ++ l2) = matchesOf p l1 ++ matchesOf p l2.
Proof. apply filter_app. Qed.

Lemma matchesOf_nil p ms :
  (∀ m, m ∈ ms → p ∉ participants m) → matchesOf p ms = [].
Proof.
  intros H. apply elem_of_nil_inv. intros m Hm.
  apply list_elem_of_filter in Hm as [Hp Hm]. now apply (H m).
Qed.

Lemma Forall2_elem_r {A B : Type} (P : A → B → Prop) l k y :
  Forall2 P l k → y ∈ k → ∃ x, x ∈ l ∧ P x y.
Proof.
  induction 1 as [|x y' l k Hxy _ IH]; intros Hy.
  - now apply elem_of_nil in Hy.
  - apply elem_of_cons in Hy as [->|Hy].
    + exists x. split; [left | assumption].
    + destruct (IH Hy) as (x' & Hx' & HP). exists x'. split; [now right | assumption].
Qed.

Section EloOutcome.
Import Elo.
Variable Math_pow : float → float → float.
Implicit Types (st : State) (m : Match) (p q : string).

Lemma keys_initPlayer m st p :
  JsMap.keys (playerRatings (initPlayer m st p))
  = addSeen (JsMap.keys (playerRatings st)) p.
Proof.
  unfold initPlayer, addSeen. destruct (JsMap.has p (playerRatings st)) eqn:E.
  - apply has_true in E. now rewrite bool_decide_eq_true_2.
  - cbn [playerRatings]. rewrite keys_set, E. apply has_false in E.
    now rewrite bool_decide_eq_false_2.
Qed.

Lemma keys_initPlayers ms st :
  JsMap.keys (playerRatings (initPlayers ms st))
  = fold_left addSeen (flat_map participants ms) (JsMap.keys (playerRatings st)).
Proof.
  unfold initPlayers. revert st.
  induction ms as [|m ms IH]; intros st; [reflexivity|].
  cbn [fold_left flat_map]. rewrite fold_left_app, IH. f_equal.
  generalize (participants m). intros l. revert st.
  induction l as [|p l IHl]; intros st; [reflexivity|].
  cbn [fold_left]. now rewrite IHl, keys_initPlayer.
Qed.

(** *** The rating is the rating of the last snapshot *)

Lemma Chained_push h s0 s :
  Chained h → last h = Some s0 →
  snap_rating s = (snap_rating s0 + snap_change s)%float →
  Chained (h ++ [s]).
Proof.
  intros Hch Hlast Hs i a b Ha Hb.
  destruct (decide (S i < length h)%nat) as [Hlt|Hge].
  - rewrite lookup_app_l in Ha, Hb by lia. eauto.
  - assert (Hi : S i = length h).
    { apply lookup_lt_Some in Hb. rewrite length_app in Hb. simpl in Hb. lia. }
    rewrite lookup_app_l in Ha by lia.
    rewrite lookup_app_r, Hi, Nat.sub_diag in Hb by lia.
    injection Hb as <-.
    rewrite last_lookup, <- Hi in Hlast. simpl in Hlast. congruence.
Qed.

Lemma Tracked_empty : Tracked emptyState.
Proof. intros p r h [=]. Qed.

Lemma Tracked_initPlayer m st p : Tracked st → Tracked (initPlayer m st p).
Proof.
  unfold initPlayer. intros Ht.
  destruct (JsMap.has p (playerRatings st)); [assumption|].
  intros q r h. cbn [playerRatings playerHistory]. rewrite !get_set.
  destruct (String.eqb q p); [|apply Ht].
  intros [= <-] [= <-]. split.
  - intros i a b Ha Hb. destruct i; discriminate.
  - eexists. split; reflexivity.
Qed.

Lemma Tracked_initPlayers ms st : Tracked st → Tracked (initPlayers ms st).
Proof.
  unfold initPlayers. revert st.
  induction ms as [|m ms IH]; intros st Ht; [assumption|].
  cbn [fold_left]. apply IH. revert st Ht.
  induction (participants m) as [|p l IHl]; intros st Ht; [assumption|].
  cbn [fold_left]. apply IHl. now apply Tracked_initPlayer.
Qed.

Lemma Tracked_appliedTo m es st st' :
  Tracked st → appliedTo m es st st' → Tracked st'.
Proof.
  intros Ht Happ p r' h' Hr' Hh'. specialize (Happ p).
  destruct (JsMap.get p es) as [c|].
  - destruct Happ as (r & g & h & Hr & _ & Hh & Er & _ & Eh).
    rewrite Er in Hr'. rewrite Eh in Hh'.
    injection Hr' as <-. injection Hh' as <-.
    destruct (Ht p r h Hr Hh) as (Hch & s0 & Hlast & Hs0). split.
    + apply (Chained_push h s0); [assumption..|]. simpl. now rewrite Hs0.
    + eexists. split; [apply last_snoc | reflexivity].
  - destruct Happ as (Er & _ & Eh). rewrite Er in Hr'. rewrite Eh in Hh'.
    now apply (Ht p).
Qed.

(** *** The histories follow the processed matches *)

Lemma runMatches_log pre :
  ∀ st,
    Coherent st →
    (∀ m q, m ∈ pre → q ∈ participants m → known st q) →
    ∃ st' pms,
      runMatches Math_pow st pre = Some st'
      ∧ processedMatches st' = processedMatches st ++ pms
      ∧ pm_match <$> pms = pre
      ∧ Forall Annotated pms
      ∧ (Tracked st → Tracked st')
      ∧ ∀ q h,
          JsMap.get q (playerHistory st) = Some h →
          ∃ ext, JsMap.get q (playerHistory st') = Some (h ++ ext)
                 ∧ Logged q ext pms.
Proof.
  unfold runMatches. induction pre as [|m pre IH]; intros st Hc Hk.
  - exists st, []. split; [reflexivity|]. split; [now rewrite app_nil_r|].
    split; [reflexivity|]. split; [constructor|]. split; [auto|].
    intros q h Hh. exists []. rewrite app_nil_r.
    split; [assumption | constructor].
  - destruct (processOne_spec Math_pow m st Hc)
      as (st1 & Hone & Hc1 & Hk1 & Hpm1 & Happ).
    { intros q Hq. apply (Hk m); [left | assumption]. }
    destruct (IH st1 Hc1) as (st' & pms & Hrun & Hpm & Hms & Hkeys & Htr & Hlog).
    { intros m' q Hm' Hq. unfold known. rewrite Hk1.
      apply (Hk m'); [now right | assumption]. }
    set (es := processMatch Math_pow m (playerRatings st) (playerGames st)) in *.
    exists st', ({| pm_match := m; pm_ratingChanges := es |} :: pms).
    cbn [foldM]. rewrite Hone. split; [assumption|].
    split; [now rewrite Hpm, Hpm1, <- app_assoc|].
    split; [now rewrite fmap_cons, Hms|].
    split.
    { constructor; [|assumption].
      destruct (processMatch_keys Math_pow m (playerRatings st) (playerGames st))
        as [Hnd Hin].
      split; [exact Hnd|]. split; [exact Hin|].
      apply processMatch_enumerated. }
    split; [intros Ht; apply Htr; eapply Tracked_appliedTo; eauto|].
    intros q h Hh. specialize (Happ q). unfold Logged.
    rewrite filter_cons. cbn [pm_match].
    destruct (processMatch_get Math_pow m (playerRatings st) (playerGames st) q)
      as [Hin Hout]. fold es in Hin, Hout.
    destruct (decide (rated q m)) as [Hq|Hq].
    + destruct (Hin Hq) as [c Hc']. rewrite Hc' in Happ.
      destruct Happ as (r & g & h0 & _ & _ & Hh0 & _ & _ & Hh1).
      rewrite Hh in Hh0. injection Hh0 as <-.
      destruct (Hlog q _ Hh1) as (ext & Hext & Hl).
      exists (snapshotOf m (r + c)%float c :: ext).
      rewrite <- app_assoc in Hext. split; [exact Hext|].
      constructor; [|exact Hl]. cbn. auto.
    + rewrite (Hout Hq) in Happ. destruct Happ as (_ & _ & Hh1).
      rewrite Hh in Hh1. destruct (Hlog q _ Hh1) as (ext & Hext & Hl).
      exists ext. split; assumption.
Qed.

(** *** The first snapshot carries the date of the first match *)

Lemma Dated_inner done m l :
  ∀ st,
    Coherent st → Sound st →
    (∀ p, p ∈ l → p ∈ participants m) →
    (∀ q, (∃ m', m' ∈ done ∧ q ∈ participants m') → known st q) →
    (∀ q h, JsMap.get q (playerHistory st) = Some h →
            ∃ m0, head (matchesOf q (done ++ [m])) = Some m0
                  ∧ h = [firstSnapshot m0]) →
    ∀ q h, JsMap.get q (playerHistory (fold_left (initPlayer m) l st)) = Some h →
           ∃ m0, head (matchesOf q (done ++ [m])) = Some m0
                 ∧ h = [firstSnapshot m0].
Proof.
  induction l as [|p l IH]; intros st Hc Hs Hl Hk Hh; [exact Hh|].
  cbn [fold_left].
  destruct (initPlayer_spec m st p Hc Hs) as (Hc1 & Hs1 & _ & _).
  apply IH; [assumption.. | | |].
  - intros p' Hp'. apply Hl. now right.
  - intros q Hq. apply initPlayer_known. now apply Hk.
  - intros q h. unfold initPlayer.
    destruct (JsMap.has p (playerRatings st)) eqn:E; [apply Hh|].
    cbn [playerHistory]. rewrite get_set.
    destruct (String.eqb_spec q p) as [->|_]; [|apply Hh].
    intros [= <-]. exists m. split; [|reflexivity].
    rewrite matchesOf_app, matchesOf_nil.
    + unfold matchesOf. rewrite filter_cons_True by (apply Hl; left).
      reflexivity.
    + intros m' Hm' Hp. apply has_false in E. apply E. apply Hk. eauto.
Qed.

Lemma Dated_step done m st :
  Coherent st → Sound st → Dated done st →
  Dated (done ++ [m]) (fold_left (initPlayer m) (participants m) st).
Proof.
  intros Hc Hs [Hk Hh].
  destruct (initPlayers_step m (participants m) st Hc Hs) as (_ & _ & Hk1 & _).
  split.
  - intros q (m' & Hm' & Hq). apply Hk1.
    apply elem_of_app in Hm' as [Hm'|Hm'].
    + right. apply Hk. eauto.
    + apply list_elem_of_singleton in Hm'. subst m'. now left.
  - apply (Dated_inner done m); auto.
    intros q h Hq. destruct (Hh q h Hq) as (m0 & Hm0 & ->).
    exists m0. split; [|reflexivity].
    rewrite matchesOf_app. now apply head_app_Some.
Qed.

Lemma Dated_initPlayers ms :
  ∀ done st,
    Coherent st → Sound st → Dated done st →
    Dated (done ++ ms) (initPlayers ms st).
Proof.
  unfold initPlayers.
  induction ms as [|m ms IH]; intros done st Hc Hs Hd.
  - now rewrite app_nil_r.
  - cbn [fold_left]. rewrite cons_middle, app_assoc.
    destruct (initPlayers_step m (participants m) st Hc Hs) as (Hc1 & Hs1 & _).
    apply IH; [assumption..|]. now apply Dated_step.
Qed.

(** *** The [players] array, record by record *)

Lemma buildPlayers_Forall2 st l :
  ∀ acc r,
    foldM (λ acc e,
             match buildPlayer st e with
             | Some p => Some (acc ++ [p])
             | None => None
             end) acc l = Some r →
    ∃ ps, r = acc ++ ps ∧ Forall2 (λ e rec, buildPlayer st e = Some rec) l ps.
Proof.
  induction l as [|e l IH]; intros acc r; cbn [foldM].
  - intros [= <-]. exists []. rewrite app_nil_r. split; [reflexivity | constructor].
  - destruct (buildPlayer st e) as [rec|] eqn:E; [|discriminate].
    intros H. destruct (IH _ _ H) as (ps & -> & Hps).
    exists (rec :: ps). rewrite <- app_assoc. split; [reflexivity|].
    now constructor.
Qed.

Lemma buildPlayer_fields st p r rec :
  buildPlayer st (p, r) = Some rec →
  player_id rec = p ∧ player_name rec = p ∧ currentRating rec = r
  ∧ gamesPlayed rec = JsMap.get p (playerGames st)
  ∧ isCalibrated rec
    = match JsMap.get p (playerGames st) with
      | Some g => CALIBRATION_GAMES <=? g
      | None => false
      end
  ∧ JsMap.get p (playerHistory st) = Some (ratingHistory rec).
Proof.
  unfold buildPlayer. destruct (JsMap.get p (playerHistory st)); [|discriminate].
  intros [= <-]. auto 10.
Qed.

(** Everything the theorems below read off a run of the engine. *)
Lemma engine_outcome (ms : list Match) :
  ∃ st ps,
    processAllMatches Math_pow ms
    = Some {| players := JS.Array_sort byRatingDesc ps;
              matches := processedMatches st |}
    ∧ pm_match <$> processedMatches st = ms
    ∧ Forall Annotated (processedMatches st)
    ∧ player_id <$> ps = encountered ms
    ∧ Forall (Faithful ms (processedMatches st)) ps.
Proof.
  set (S0 := initPlayers ms emptyState).
  destruct (initPlayers_spec ms emptyState Coherent_empty Sound_empty)
    as (Hc0 & Hs0 & Hk0 & Hpm0). fold S0 in Hc0, Hs0, Hk0, Hpm0.
  destruct (initPlayers_keep ms emptyState) as [_ Hinit].
  assert (Hi0 : AllInitial S0).
  { apply Hinit. intros q Hq. now apply elem_of_nil in Hq. }
  assert (Ht0 : Tracked S0) by apply Tracked_initPlayers, Tracked_empty.
  assert (Hd0 : Dated ms S0).
  { apply (Dated_initPlayers ms [] emptyState Coherent_empty Sound_empty).
    split; [intros q (m & Hm & _); now apply elem_of_nil in Hm | intros q h [=]]. }
  assert (Hkn : ∀ m q, m ∈ ms → q ∈ participants m → known S0 q).
  { intros m q Hm Hq. apply Hk0. left. eauto. }
  destruct (runMatches_agree Math_pow ms S0 S0 Hc0 Hc0 Hs0 (λ q _, eq_refl) Hkn)
    as (st & st2 & Hrun & Hrun2 & Hc & Hs & Hkeys & _ & Hgames & _).
  rewrite Hrun in Hrun2. injection Hrun2 as <-.
  destruct (runMatches_log ms S0 Hc0 Hkn)
    as (st3 & pms & Hrun3 & Hpms & Hms & Hes & Htr & Hlog).
  rewrite Hrun in Hrun3. injection Hrun3 as <-.
  cbn [emptyState processedMatches] in Hpm0. rewrite Hpm0 in Hpms.
  cbn [app] in Hpms.
  destruct (buildPlayers_from st (playerRatings st) Hc Hs (λ e He, He) [])
    as (ps & Hps & _ & _).
  destruct (buildPlayers_Forall2 st _ _ _ Hps) as (ps' & E & Hall).
  cbn [app] in E. subst ps'.
  exists st, ps. split; [|split; [|split; [|split]]].
  - unfold processAllMatches. fold S0. rewrite Hrun. unfold buildPlayers.
    now rewrite Hps.
  - now rewrite Hpms.
  - now rewrite Hpms.
  - assert (E : player_id <$> ps = JsMap.keys (playerRatings st)).
    { unfold JsMap.keys. clear -Hall.
      induction Hall as [|[p r] rec l k Hb _ IH]; [reflexivity|].
      rewrite !fmap_cons, IH. f_equal.
      now destruct (buildPlayer_fields _ _ _ _ Hb) as (-> & _). }
    rewrite E, Hkeys. unfold S0. rewrite keys_initPlayers. reflexivity.
  - apply Forall_forall. intros rec Hrec.
    destruct (Forall2_elem_r _ _ _ _ Hall Hrec) as ([p r] & Hin & Hb).
    destruct (buildPlayer_fields _ _ _ _ Hb) as (Hid & Hname & Hcur & Hgp & Hcal & Hh).
    assert (Hp0 : known S0 p).
    { unfold known. rewrite <- Hkeys. apply list_elem_of_fmap. exists (p, r). auto. }
    destruct (Hi0 p Hp0) as [_ Hg0].
    pose proof (Hgames p 0 Hg0) as Hg. rewrite Z.add_0_l in Hg.
    destruct (known_lookups S0 p Hc0 Hp0) as (r0 & g0 & h0 & _ & _ & Hh0).
    destruct (proj2 Hd0 p h0 Hh0) as (m0 & Hm0 & ->).
    destruct (Hlog p _ Hh0) as (ext & Hext & Hlg).
    rewrite Hh in Hext. injection Hext as Hext.
    assert (Hr : JsMap.get p (playerRatings st) = Some r)
      by (apply elem_get; [apply Hc | assumption]).
    destruct (Htr Ht0 p r _ Hr Hh) as (Hch & s & Hlast & Hsr).
    unfold Faithful. rewrite Hid, Hname, Hgp, Hcal, Hg, Hcur, Hpms.
    split; [reflexivity|]. split; [reflexivity|]. split; [reflexivity|].
    split; [assumption|]. split; [eauto|]. exists m0, ext. auto.
Qed.

End EloOutcome.

Lemma elem_of_encountered ms p :
  p ∈ encountered ms ↔ ∃ m, m ∈ ms ∧ p ∈ participants m.
Proof.
  unfold encountered. rewrite elem_of_firstSeen, list_elem_of_In, in_flat_map.
  split; intros (m & Hm & Hp); exists m; rewrite !list_elem_of_In in *;
    split; assumption.
Qed.

Lemma filter_fmap_comm {A B : Type} (f : A → B) (P : B → Prop)
  `{!∀ y, Decision (P y)} (l : list A) :
  f <$> filter (λ x, P (f x)) l = filter P (f <$> l).
Proof.
  induction l as [|x l IH]; [reflexivity|].
  rewrite fmap_cons, !filter_cons.
  destruct (decide (P (f x))); [rewrite fmap_cons|]; now rewrite IH.
Qed.

Lemma teamIncludes_spec (team : string * string) p :
  DataManager.teamIncludes team p = true ↔ p = fst team ∨ p = snd team.
Proof.
  unfold DataManager.teamIncludes. rewrite orb_true_iff, !String.eqb_eq.
  intuition congruence.
Qed.

Lemma takesPart_spec m p :
  DataManager.teamIncludes (team1 m) p || DataManager.teamIncludes (team2 m) p
  = bool_decide (p ∈ participants m).
Proof.
  apply eq_true_iff_eq. rewrite orb_true_iff, !teamIncludes_spec.
  rewrite bool_decide_eq_true. unfold participants.
  rewrite !elem_of_cons, elem_of_nil. tauto.
Qed.

Lemma getPlayerMatches_spec pms p :
  DataManager.getPlayerMatches pms p
  = filter (λ pm, p ∈ participants (Elo.pm_match pm)) pms.
Proof.
  unfold DataManager.getPlayerMatches.
  induction pms as [|pm pms IH]; [reflexivity|].
  cbn [List.filter]. rewrite filter_cons, takesPart_spec, IH.
  destruct (decide (p ∈ participants (Elo.pm_match pm))).
  - now rewrite bool_decide_eq_true_2.
  - now rewrite bool_decide_eq_false_2.
Qed.

Lemma find_player_spec (ps : list Elo.Player) p :
  NoDup (Elo.player_id <$> ps) →
  match DataManager.getPlayerById ps p with
  | Some rec => rec ∈ ps ∧ Elo.player_id rec = p
  | None => p ∉ Elo.player_id <$> ps
  end.
Proof.
  unfold DataManager.getPlayerById. intros _.
  destruct (List.find _ ps) as [rec|] eqn:E.
  - apply List.find_some in E as [Hin Heq].
    apply list_elem_of_In in Hin. apply String.eqb_eq in Heq. auto.
  - intros Hin. apply list_elem_of_fmap in Hin as (rec & -> & Hin).
    apply list_elem_of_In in Hin.
    apply (List.find_none _ _ E) in Hin. simpl in Hin.
    now rewrite String.eqb_refl in Hin.
Qed.

Section EloResults.
Import Elo.
Variable Math_pow : float → float → float.
Implicit Types (m : Match) (p q : string).

(** X2: [processAllMatches] returns every match it was given, the
    drawn ones included, in the order given; the rating changes a
    match carries are listed under the names of its participants, one
    entry for each name, except that a participant named [__proto__]
    has no entry.  The entries stand as [Object.entries] lists them:
    first those whose name is an array index, by ascending index, then
    the others in the order in which the names are first mentioned in
    the match. *)
Theorem matches_are_annotated (ms : list Match) :
  ∃ out,
    processAllMatches Math_pow ms = Some out
    ∧ pm_match <$> matches out = ms
    ∧ Forall
        (λ pm,
           NoDup (JsMap.keys (pm_ratingChanges pm))
           ∧ (∀ q,
                q ∈ JsMap.keys (pm_ratingChanges pm)
                ↔ q ∈ participants (pm_match pm) ∧ q ≠ "__proto__"%string)
           ∧ ∃ idx rest,
               JsMap.keys (pm_ratingChanges pm) = idx ++ rest
               ∧ Forall (λ q, is_Some (JsObject.arrayIndex q)) idx
               ∧ (∀ i j a b,
                    (i < j)%nat → idx !! i = Some a → idx !! j = Some b →
                    ∃ x y,
                      JsObject.arrayIndex a = Some x
                      ∧ JsObject.arrayIndex b = Some y ∧ x <= y)
               ∧ rest
                 = filter
                     (λ q, JsObject.arrayIndex q = None
                           ∧ q ≠ "__proto__"%string)
                     (firstSeen (participants (pm_match pm))))
        (matches out).
Proof.
  destruct (engine_outcome Math_pow ms) as (st & ps & Hout & Hms & Hes & _).
  eexists. split; [exact Hout|]. cbn [matches]. split; [assumption|].
  eapply Forall_impl; [exact Hes|].
  intros pm (Hnd & Hin & idx & rest & Hk & Hidx & Hs & Hrest).
  split; [assumption|]. split.
  { intros q. rewrite Hin. unfold rated. tauto. }
  exists idx, rest. split; [assumption|]. split; [assumption|]. split.
  - intros i j a b Hij Hi Hj.
    pose proof (StronglySorted_lookup _ idx Hs i j a b Hij Hi Hj) as Hab.
    rewrite Forall_forall in Hidx.
    destruct (Hidx a) as [x Hx]; [eapply list_elem_of_lookup_2; eassumption|].
    destruct (Hidx b) as [y Hy]; [eapply list_elem_of_lookup_2; eassumption|].
    exists x, y. unfold indexLe in Hab. rewrite Hx, Hy in Hab. auto.
  - rewrite Hrest. apply list_filter_iff. intros q. unfold isIndex.
    rewrite <- not_eq_None_Some.
    destruct (JsObject.arrayIndex q); intuition congruence.
Qed.

(** X3: the [players] array holds one record for each player
    encountered in the matches and no other, [name] being the
    identifier; players whose current ratings are the same number stand
    in the order in which they were first encountered. *)
Theorem players_are_encountered (ms : list Match) :
  ∃ out,
    processAllMatches Math_pow ms = Some out
    ∧ player_id <$> players out ≡ₚ encountered ms
    ∧ NoDup (player_id <$> players out)
    ∧ Forall (λ rec, player_name rec = player_id rec) (players out)
    ∧ ∀ a b,
        before a b (players out) →
        currentRating a = currentRating b →
        before (player_id a) (player_id b) (encountered ms).
Proof.
  destruct (engine_outcome Math_pow ms) as (st & ps & Hout & _ & _ & Hids & Hall).
  eexists. split; [exact Hout|]. cbn [players].
  assert (Hperm : player_id <$> JS.Array_sort byRatingDesc ps ≡ₚ encountered ms)
    by now rewrite Array_sort_perm, Hids.
  split; [exact Hperm|]. split; [|split].
  - rewrite Hperm. apply NoDup_firstSeen.
  - rewrite Array_sort_perm. eapply Forall_impl; [exact Hall|].
    intros rec Hrec. apply Hrec.
  - intros a b Hab Heq. unfold before in *.
    set (P := λ rec : Player, currentRating rec = currentRating a).
    assert (Ha : P a) by reflexivity.
    assert (Hb : P b) by (unfold P; congruence).
    apply (filter_mono_sublist P) in Hab.
    rewrite filter_cons_True, filter_cons_True in Hab by assumption.
    rewrite (Array_sort_stable byRatingDesc P) in Hab.
    + rewrite <- Hids.
      change [player_id a; player_id b] with (player_id <$> [a; b]).
      apply fmap_sublist. etransitivity; [exact Hab|]. apply sublist_filter.
    + intros x y Hx Hy. unfold byRatingDesc, P in *. rewrite Hx, Hy.
      apply ltb_sub_diag.
Qed.

(** X4: [gamesPlayed] of the record of a player not named [__proto__]
    is the number of matches of the list in which the player takes
    part, which is at least one, and [isCalibrated] says whether this
    number has reached 15.  The record of a player named [__proto__]
    has no game played and is not calibrated, whatever the matches. *)
Theorem games_played_counts_matches (ms : list Match) :
  ∃ out,
    processAllMatches Math_pow ms = Some out
    ∧ Forall
        (λ rec,
           (player_id rec ≠ "__proto__"%string →
            gamesPlayed rec = Some (playedBy (player_id rec) ms)
            ∧ 1 <= playedBy (player_id rec) ms
            ∧ (isCalibrated rec = true ↔ 15 <= playedBy (player_id rec) ms))
           ∧ (player_id rec = "__proto__"%string →
              gamesPlayed rec = Some 0 ∧ isCalibrated rec = false))
        (players out).
Proof.
  destruct (engine_outcome Math_pow ms) as (st & ps & Hout & _ & _ & _ & Hall).
  eexists. split; [exact Hout|]. cbn [players]. rewrite Array_sort_perm.
  eapply Forall_impl; [exact Hall|].
  intros rec (_ & Hg & Hcal & _ & _ & m0 & ext & Hm0 & _).
  rewrite ratedCount_playedBy in Hg, Hcal. split.
  - intros Hp. rewrite bool_decide_eq_false_2 in Hg, Hcal by assumption.
    split; [assumption|]. split.
    + unfold playedBy. fold (matchesOf (player_id rec) ms).
      destruct (matchesOf (player_id rec) ms); [discriminate | simpl; lia].
    + rewrite Hcal. unfold CALIBRATION_GAMES. apply Z.leb_le.
  - intros Hp. rewrite bool_decide_eq_true_2 in Hg, Hcal by assumption.
    split; assumption.
Qed.

Lemma Logged_ids p ext pms :
  Logged p ext pms →
  snap_matchId <$> ext = (Some ∘ id) <$> filter (rated p) (pm_match <$> pms)
  ∧ snap_date <$> ext = date <$> filter (rated p) (pm_match <$> pms).
Proof.
  unfold Logged.
  rewrite <- (filter_fmap_comm pm_match (rated p)).
  induction 1 as [|s pm ext l (Hid & Hd & _) _ [IH1 IH2]]; [split; reflexivity|].
  rewrite !fmap_cons, IH1, IH2, Hid, Hd. split; reflexivity.
Qed.

(** X5: the rating history of a player is the initial snapshot, dated
    as the first match the player takes part in, followed, for a
    player not named [__proto__], by one snapshot for each match of
    the list the player takes part in, in the order of the list, with
    the identifier and the date of that match.  The history of a
    player named [__proto__] is the initial snapshot alone. *)
Theorem history_follows_matches (ms : list Match) :
  ∃ out,
    processAllMatches Math_pow ms = Some out
    ∧ Forall
        (λ rec,
           ∃ m0 ext,
             head (matchesOf (player_id rec) ms) = Some m0
             ∧ ratingHistory rec = firstSnapshot m0 :: ext
             ∧ (player_id rec ≠ "__proto__"%string →
                snap_matchId <$> ext
                = (Some ∘ id) <$> matchesOf (player_id rec) ms
                ∧ snap_date <$> ext = date <$> matchesOf (player_id rec) ms)
             ∧ (player_id rec = "__proto__"%string → ext = []))
        (players out).
Proof.
  destruct (engine_outcome Math_pow ms) as (st & ps & Hout & Hms & _ & _ & Hall).
  eexists. split; [exact Hout|]. cbn [players]. rewrite Array_sort_perm.
  eapply Forall_impl; [exact Hall|].
  intros rec (_ & _ & _ & _ & _ & m0 & ext & Hm0 & Hh & Hlog).
  exists m0, ext. split; [assumption|]. split; [assumption|].
  apply Logged_ids in Hlog. rewrite Hms, rated_filter in Hlog. split.
  - intros Hp. now rewrite bool_decide_eq_false_2 in Hlog.
  - intros Hp. rewrite bool_decide_eq_true_2 in Hlog by assumption.
    destruct Hlog as [Hlog _]. now apply fmap_nil_inv in Hlog.
Qed.

(** X6: in the rating history of every record each snapshot holds the
    rating of the snapshot before it plus its own change, the first
    snapshot holds 1500, and the last one holds the current rating of
    the record. *)
Theorem history_is_running_sum (ms : list Match) :
  ∃ out,
    processAllMatches Math_pow ms = Some out
    ∧ Forall
        (λ rec,
           (∀ i s s',
              ratingHistory rec !! i = Some s →
              ratingHistory rec !! S i = Some s' →
              snap_rating s' = (snap_rating s + snap_change s')%float)
           ∧ (snap_rating <$> head (ratingHistory rec)) = Some INITIAL_RATING
           ∧ snap_rating <$> last (ratingHistory rec)
             = Some (currentRating rec))
        (players out).
Proof.
  destruct (engine_outcome Math_pow ms) as (st & ps & Hout & _ & _ & _ & Hall).
  eexists. split; [exact Hout|]. cbn [players]. rewrite Array_sort_perm.
  eapply Forall_impl; [exact Hall|].
  intros rec (_ & _ & _ & Hch & (s & Hlast & Hs) & m0 & ext & _ & Hh & _).
  split; [exact Hch|]. split.
  - now rewrite Hh.
  - now rewrite Hlast, <- Hs.
Qed.

(** X7: what reading the object [processMatch] returns finds under a
    name, whether or not the four names of the match are distinct.
    Under [__proto__] it finds the prototype, never a number.  A name
    of team 2 finds the change computed for a member of team 2, from
    the ratings and games counts the maps hold, also when it is a name
    of team 1 as well; any other name of team 1 finds the change of a
    member of team 1; any other name finds what the prototype holds
    under it, or nothing. *)
Theorem change_by_side m (R : list (string * float)) (G : list (string * Z)) p :
  JsObject.get p (processMatch Math_pow m R G)
  = if String.eqb p "__proto__" then JsObject.Inherited "__proto__"
    else if DataManager.teamIncludes (team2 m) p
         then JsObject.Own (frozenDelta Math_pow m R G false p)
         else if DataManager.teamIncludes (team1 m) p
              then JsObject.Own (frozenDelta Math_pow m R G true p)
              else if bool_decide (p ∈ JsObject.prototypeMembers)
                   then JsObject.Inherited p
                   else JsObject.Undefined.
Proof.
  unfold JsObject.get. rewrite processMatch_side.
  destruct (String.eqb_spec p "__proto__") as [->|_]; [reflexivity|].
  destruct (DataManager.teamIncludes (team2 m) p); [reflexivity|].
  destruct (DataManager.teamIncludes (team1 m) p); reflexivity.
Qed.

(** X8: on the data [processAllMatches] returns, [getPlayerById] finds
    the record of every player encountered and nothing for any other
    name, and the [gamesPlayed] of the record of a player not named
    [__proto__] is the number of matches [getPlayerMatches] lists for
    the player; for a player named [__proto__] it is 0. *)
Theorem player_lookup (ms : list Match) :
  ∃ out,
    processAllMatches Math_pow ms = Some out
    ∧ (∀ p,
         p ∈ encountered ms →
         ∃ rec,
           DataManager.getPlayerById (players out) p = Some rec
           ∧ player_id rec = p
           ∧ (p ≠ "__proto__"%string →
              gamesPlayed rec
              = Some (Z.of_nat
                        (length
                           (DataManager.getPlayerMatches (matches out) p))))
           ∧ (p = "__proto__"%string → gamesPlayed rec = Some 0))
    ∧ (∀ p,
         p ∉ encountered ms →
         DataManager.getPlayerById (players out) p = None
         ∧ DataManager.getPlayerMatches (matches out) p = []).
Proof.
  destruct (engine_outcome Math_pow ms) as (st & ps & Hout & Hms & _ & Hids & Hall).
  eexists. split; [exact Hout|]. cbn [players matches].
  assert (Hperm : player_id <$> JS.Array_sort byRatingDesc ps ≡ₚ encountered ms)
    by now rewrite Array_sort_perm, Hids.
  assert (Hnd : NoDup (player_id <$> JS.Array_sort byRatingDesc ps))
    by (rewrite Hperm; apply NoDup_firstSeen).
  assert (Hlen : ∀ p, Z.of_nat (length (DataManager.getPlayerMatches
                                          (processedMatches st) p))
                      = playedBy p ms).
  { intros p. rewrite getPlayerMatches_spec. unfold playedBy.
    rewrite <- Hms, <- (filter_fmap_comm pm_match (λ m, p ∈ participants m)).
    now rewrite length_fmap. }
  split.
  - intros p Hp. pose proof (find_player_spec _ p Hnd) as Hf.
    destruct (DataManager.getPlayerById _ p) as [rec|].
    + destruct Hf as [Hin Hid]. exists rec. split; [reflexivity|].
      split; [assumption|]. rewrite Hlen, <- Hid.
      rewrite Array_sort_perm in Hin. rewrite Forall_forall in Hall.
      destruct (Hall rec Hin) as (_ & Hg & _).
      rewrite ratedCount_playedBy in Hg. split; intros Hproto.
      * now rewrite bool_decide_eq_false_2 in Hg.
      * now rewrite bool_decide_eq_true_2 in Hg.
    + exfalso. apply Hf. now rewrite Hperm.
  - intros p Hp. pose proof (find_player_spec _ p Hnd) as Hf.
    destruct (DataManager.getPlayerById _ p) as [rec|].
    + destruct Hf as [Hin Hid]. exfalso. apply Hp. rewrite <- Hperm, <- Hid.
      apply list_elem_of_fmap. eauto.
    + split; [reflexivity|]. rewrite getPlayerMatches_spec.
      apply elem_of_nil_inv. intros pm Hpm.
      apply list_elem_of_filter in Hpm as [Hin Hpm]. apply Hp.
      apply elem_of_encountered. exists (pm_match pm). split; [|assumption].
      rewrite <- Hms. apply list_elem_of_fmap. eauto.
Qed.

(** X9: for a player not named [__proto__] the matches
    [getPlayerMatches] lists are, one for one and in order, the
    matches behind the snapshots that follow the initial one in the
    player's rating history, and the [ratingChange] that
    [getMatchDetails] reads from each match is the change of its
    snapshot.  For a player named [__proto__] no snapshot follows the
    initial one, and the [ratingChange] read from each of the player's
    matches is the prototype of the object, not a number. *)
Theorem match_details_follow_history (ms : list Match) :
  ∃ out,
    processAllMatches Math_pow ms = Some out
    ∧ Forall
        (λ rec,
           (player_id rec ≠ "__proto__"%string →
            Forall2
              (λ s pm,
                 snap_matchId s = Some (id (pm_match pm))
                 ∧ DataManager.ratingChange
                     (DataManager.getMatchDetails pm (player_id rec))
                   = JsObject.Own (snap_change s))
              (tail (ratingHistory rec))
              (DataManager.getPlayerMatches (matches out) (player_id rec)))
           ∧ (player_id rec = "__proto__"%string →
              tail (ratingHistory rec) = []
              ∧ Forall
                  (λ pm,
                     DataManager.ratingChange
                       (DataManager.getMatchDetails pm (player_id rec))
                     = JsObject.Inherited "__proto__")
                  (DataManager.getPlayerMatches (matches out)
                     (player_id rec))))
        (players out).
Proof.
  destruct (engine_outcome Math_pow ms) as (st & ps & Hout & _ & Hes & _ & Hall).
  eexists. split; [exact Hout|]. cbn [players matches]. rewrite Array_sort_perm.
  eapply Forall_impl; [exact Hall|].
  intros rec (_ & _ & _ & _ & _ & m0 & ext & _ & Hh & Hlog).
  rewrite Hh, getPlayerMatches_spec. cbn [tail]. unfold Logged in Hlog. split.
  - intros Hp.
    rewrite (list_filter_iff (λ pm, rated (player_id rec) (pm_match pm))
               (λ pm, player_id rec ∈ participants (pm_match pm))) in Hlog
      by (intros pm; unfold rated; tauto).
    eapply Forall2_impl; [exact Hlog|].
    intros s pm (Hid & _ & Hc). split; [assumption|].
    cbn [DataManager.getMatchDetails DataManager.ratingChange].
    unfold JsObject.get. now rewrite Hc.
  - intros Hp. rewrite Hp in *. split.
    + assert (E : filter (λ pm, rated "__proto__" (pm_match pm))
                    (processedMatches st) = []).
      { apply elem_of_nil_inv. intros pm Hpm.
        apply list_elem_of_filter in Hpm as [[Hpm _] _]. now apply Hpm. }
      rewrite E in Hlog. now inversion Hlog.
    + apply Forall_forall. intros pm Hpm.
      apply list_elem_of_filter in Hpm as [_ Hpm].
      rewrite Forall_forall in Hes. destruct (Hes pm Hpm) as (_ & Hkeys & _).
      cbn [DataManager.getMatchDetails DataManager.ratingChange].
      unfold JsObject.get.
      assert (E : JsMap.get "__proto__" (pm_ratingChanges pm) = None).
      { apply get_None_keys. rewrite Hkeys. unfold rated. tauto. }
      now rewrite E.
Qed.

Lemma count_calibrated ms (pms : list ProcessedMatch) (ps : list Player) :
  Forall (Faithful ms pms) ps →
  length (List.filter isCalibrated ps)
  = length (filter (λ p, p ≠ "__proto__"%string ∧ 15 <= playedBy p ms)
              (player_id <$> ps)).
Proof.
  induction 1 as [|rec ps (_ & _ & Hcal & _) _ IH]; [reflexivity|].
  rewrite fmap_cons, filter_cons. cbn [List.filter]. rewrite Hcal.
  unfold CALIBRATION_GAMES. rewrite ratedCount_playedBy.
  destruct (decide (player_id rec = "__proto__"%string)) as [Hp|Hp].
  - rewrite bool_decide_eq_true_2 by assumption. cbn.
    rewrite decide_False by tauto. exact IH.
  - rewrite bool_decide_eq_false_2 by assumption.
    destruct (decide (15 <= playedBy (player_id rec) ms)) as [Hge|Hlt].
    + rewrite decide_True by tauto.
      apply Z.leb_le in Hge. rewrite Hge. simpl. now rewrite IH.
    + rewrite decide_False by tauto.
      apply Z.leb_nle in Hlt. now rewrite Hlt.
Qed.

Lemma length_filter_perm {A : Type} (f : A → bool) (l l' : list A) :
  l ≡ₚ l' → length (List.filter f l) = length (List.filter f l').
Proof.
  induction 1 as [|x l l' _ IH|x y l|l1 l2 l3 _ IH1 _ IH2]; cbn [List.filter].
  - reflexivity.
  - destruct (f x); simpl; now rewrite IH.
  - destruct (f x), (f y); reflexivity.
  - congruence.
Qed.

(** X10: on the data [processAllMatches] returns, [calculateStats]
    reports the number of matches given as [totalGames], the number of
    players encountered as [totalPlayers], and as [calibratedPlayers]
    the number of them who take part in at least 15 matches of the
    list and are not named [__proto__]; with no match at all the
    average rating is [NaN]. *)
Theorem stats_of_outcome (ms : list Match) :
  ∃ out,
    processAllMatches Math_pow ms = Some out
    ∧ let stats := DataManager.calculateStats (players out) (matches out) in
      DataManager.totalGames stats = Z.of_nat (length ms)
      ∧ DataManager.totalPlayers stats = Z.of_nat (length (encountered ms))
      ∧ DataManager.calibratedPlayers stats
        = Z.of_nat
            (length
               (filter (λ p, p ≠ "__proto__"%string ∧ 15 <= playedBy p ms)
                  (encountered ms)))
      ∧ (ms = [] → DataManager.avgRating stats = nan).
Proof.
  destruct (engine_outcome Math_pow ms) as (st & ps & Hout & Hms & _ & Hids & Hall).
  eexists. split; [exact Hout|]. cbn [players matches].
  unfold DataManager.calculateStats.
  cbn [DataManager.totalGames DataManager.totalPlayers
       DataManager.calibratedPlayers DataManager.avgRating].
  split; [|split; [|split]].
  - now rewrite <- Hms, length_fmap.
  - now rewrite Array_sort_perm, <- Hids, length_fmap.
  - rewrite (length_filter_perm _ _ ps) by apply Array_sort_perm.
    now rewrite (count_calibrated ms _ ps Hall), Hids.
  - intros ->. destruct ps; [reflexivity | discriminate].
Qed.

End EloResults.

(** ** More on the standings tables *)

Lemma filter_ext_in {A : Type} (P Q : A → Prop) `{!∀ x, Decision (P x)}
  `{!∀ x, Decision (Q x)} (l : list A) :
  (∀ x, x ∈ l → P x ↔ Q x) → filter P l = filter Q l.
Proof.
  induction l as [|x l IH]; intros Hl; [reflexivity|].
  rewrite !filter_cons, IH by (intros y Hy; apply Hl; now right).
  destruct (decide (P x)) as [Hp|Hp], (decide (Q x)) as [Hq|Hq];
    try reflexivity; exfalso; apply (Hl x) in Hp || apply (Hl x) in Hq;
    (contradiction || left).
Qed.

Section SortFilter.
Context {A : Type} (gt : A → A → bool).
Context (P : A → Prop) `{!∀ x, Decision (P x)}.
Hypothesis gt_asym : ∀ x y, gt x y = true → gt y x = false.
Hypothesis gt_trans : ∀ x y z, gt x y = false → gt y z = false → gt x z = false.

Lemma insert_head x l :
  (∀ z, head l = Some z → gt x z = false) → JS.insert gt x l = x :: l.
Proof.
  destruct l as [|y l]; [reflexivity|]. intros Hhd. simpl.
  now rewrite (Hhd y eq_refl).
Qed.

Lemma insert_filter x l :
  StronglySorted (λ a b, gt a b = false) l →
  filter P (JS.insert gt x l)
  = if decide (P x) then JS.insert gt x (filter P l) else filter P l.
Proof.
  induction l as [|y l IH]; intros Hs.
  - simpl. rewrite filter_cons, filter_nil. now destruct (decide (P x)).
  - apply StronglySorted_cons in Hs as [Hy Hs]. cbn [JS.insert].
    destruct (gt x y) eqn:E.
    + rewrite !(filter_cons P y), (IH Hs).
      destruct (decide (P x)), (decide (P y)); try reflexivity.
      cbn [JS.insert]. now rewrite E.
    + rewrite (filter_cons P x). destruct (decide (P x)); [|reflexivity].
      symmetry. apply insert_head. intros z Hz.
      assert (Hin : z ∈ filter P (y :: l)).
      { destruct (filter P (y :: l)); [discriminate|].
        injection Hz as ->. left. }
      apply list_elem_of_filter in Hin as [_ Hin].
      apply elem_of_cons in Hin as [->|Hin]; [assumption|].
      rewrite Forall_forall in Hy. eauto.
Qed.

(** Filtering commutes with the sort. *)
Lemma Array_sort_filter l :
  filter P (JS.Array_sort gt l) = JS.Array_sort gt (filter P l).
Proof.
  induction l as [|x l IH]; [reflexivity|].
  cbn [JS.Array_sort fold_right].
  rewrite insert_filter by now apply Array_sort_sorted.
  fold (JS.Array_sort gt l). rewrite IH, filter_cons.
  now destruct (decide (P x)).
Qed.

End SortFilter.

Section ValueMap.
Context {V W : Type} (f : V → W).
Implicit Types (k : string) (M : list (string * V)).

Lemma get_vmap k M : JsMap.get k (mapValues f M) = f <$> JsMap.get k M.
Proof.
  unfold mapValues. induction M as [|[k' v] M IH]; [reflexivity|].
  rewrite fmap_cons. cbn [JsMap.get fst snd].
  now destruct (String.eqb k k').
Qed.

Lemma has_vmap k M : JsMap.has k (mapValues f M) = JsMap.has k M.
Proof. unfold JsMap.has. rewrite get_vmap. now destruct (JsMap.get k M). Qed.

Lemma set_vmap k v M :
  JsMap.set k (f v) (mapValues f M) = mapValues f (JsMap.set k v M).
Proof.
  unfold mapValues. induction M as [|[k' v'] M IH]; [reflexivity|].
  rewrite fmap_cons. cbn [JsMap.set fst snd].
  destruct (String.eqb k k'); [reflexivity|].
  now rewrite fmap_cons, IH.
Qed.

Lemma values_vmap M : JsMap.values (mapValues f M) = f <$> JsMap.values M.
Proof.
  unfold JsMap.values, mapValues. rewrite <- !list_fmap_compose.
  apply list_fmap_ext. intros i e. reflexivity.
Qed.

End ValueMap.

Section TwoTables.
Import TournamentUI.
Implicit Types (M : list (string * PlayerAcc)) (m : Match) (p q : string).

Lemma wins_ensurePlayer M q :
  WinsTable.ensurePlayer (mapValues toWinsRow M) q
  = mapValues toWinsRow (ensurePlayer M q).
Proof.
  unfold WinsTable.ensurePlayer, ensurePlayer. rewrite has_vmap.
  destruct (JsMap.has q M); [reflexivity|].
  now rewrite <- set_vmap.
Qed.

Lemma wins_creditPlayer i s o w M q :
  WinsTable.creditPlayer s o w (mapValues toWinsRow M) q
  = mapValues toWinsRow (creditPlayer i s o w M q).
Proof.
  unfold WinsTable.creditPlayer, creditPlayer. rewrite get_vmap.
  destruct (JsMap.get q M) as [a|]; [|reflexivity].
  cbn [fmap option_fmap option_map]. now rewrite <- set_vmap.
Qed.

Lemma wins_fold_ensure l M :
  fold_left WinsTable.ensurePlayer l (mapValues toWinsRow M)
  = mapValues toWinsRow (fold_left ensurePlayer l M).
Proof.
  revert M. induction l as [|q l IH]; intros M; [reflexivity|].
  cbn [fold_left]. now rewrite wins_ensurePlayer, IH.
Qed.

Lemma wins_addMatch M m :
  WinsTable.addMatch (mapValues toWinsRow M) m
  = mapValues toWinsRow (addMatch M m).
Proof.
  unfold WinsTable.addMatch, addMatch.
  destruct (fst (score m) =? snd (score m)); [reflexivity|].
  rewrite wins_fold_ensure.
  set (M1 := fold_left ensurePlayer (participants m) M).
  cbn [fold_left]. now rewrite !(wins_creditPlayer (id m)).
Qed.

Lemma wins_aggregate ms :
  WinsTable.aggregate ms = mapValues toWinsRow (aggregate ms).
Proof.
  unfold WinsTable.aggregate, aggregate.
  change (@nil (string * WinsTable.PlayerAcc))
    with (mapValues toWinsRow (@nil (string * PlayerAcc))).
  generalize (@nil (string * PlayerAcc)).
  induction ms as [|m ms IH]; intros M; [reflexivity|].
  cbn [fold_left]. now rewrite wins_addMatch, IH.
Qed.

(** X11: the table ranked by wins and the table ranked by Italian
    points (filter on 'all') are built from the same accumulators: they
    list the same players, each with the same games, wins, losses and
    points for and against; only the order of the rows may differ. *)
Theorem tables_share_counters (ms : list Match) :
  WinsTable.row <$> WinsTable.calculateStandings ms
  ≡ₚ (toWinsRow ∘ row) <$> calculateStandings FilterAll ms.
Proof.
  unfold WinsTable.calculateStandings, calculateStandings.
  rewrite !Array_sort_perm, wins_aggregate, values_vmap.
  rewrite filter_all by (intros x; exact I).
  rewrite <- !list_fmap_compose. reflexivity.
Qed.





Lemma passes_withDiff f (l : list PlayerAcc) :
  withDiff <$> filter (passesFilter f) l
  = filter (λ r, passesFilter f (row r)) (withDiff <$> l).
Proof.
  induction l as [|a l IH]; [reflexivity|].
  rewrite fmap_cons, !filter_cons. cbn [row withDiff].
  destruct (decide (passesFilter f a)); [rewrite fmap_cons|]; now rewrite IH.
Qed.

(** X12: the table of one gender is the table of all players with the
    rows of the other gender taken out: the rows left keep their order
    and their numbers, and the gender of a row is the one [getGender]
    gives for the player's name. *)
Theorem gender_filter_selects (g : Gender) (ms : list Match) :
  calculateStandings (FilterOnly g) ms
  = filter (λ r, getGender (JS.utf16 (name (row r))) = g)
      (calculateStandings FilterAll ms).
Proof.
  unfold calculateStandings.
  rewrite (filter_all (passesFilter FilterAll)) by (intros x; exact I).
  rewrite passes_withDiff.
  rewrite <- (Array_sort_filter rowGt _ rowGt_asym rowGt_trans).
  apply filter_ext_in. intros r Hr.
  rewrite Array_sort_perm in Hr. apply list_elem_of_fmap in Hr as (a & -> & Ha).
  cbn [row withDiff passesFilter].
  destruct (table_invariant ms) as [Hnd Hwn].
  unfold JsMap.values in Ha. apply list_elem_of_fmap in Ha as ([k a'] & -> & Hin).
  cbn [snd]. pose proof Hin as Hk. unfold WellNamed in Hwn.
  rewrite Forall_forall in Hwn. apply Hwn in Hk. cbn [fst snd] in Hk.
  apply (elem_get _ _ _ Hnd) in Hin. rewrite get_aggregate in Hin.
  pose proof (OfPlayer_view k ms a' Hin) as Hgen. rewrite Hk, <- Hgen.
  destruct (gender a'), g; simpl; split; (congruence || tauto || auto).
Qed.


End TwoTables.

(** ** The rating page: pages and page buttons *)

Lemma Array_slice_nonneg {A : Type} (a b : nat) (l : list A) :
  (a <= b)%nat →
  JS.Array_slice (Z.of_nat a) (Z.of_nat b) l = take (b - a) (drop a l).
Proof.
  intros Hab. unfold JS.Array_slice.
  destruct (Z.ltb_spec (Z.of_nat a) 0); [lia|].
  destruct (Z.ltb_spec (Z.of_nat b) 0); [lia|].
  destruct (decide (a <= length l)%nat) as [Ha|Ha].
  - rewrite (Z.min_l (Z.of_nat a)) by lia. rewrite Nat2Z.id.
    destruct (decide (b <= length l)%nat) as [Hb|Hb].
    + rewrite Z.min_l by lia. f_equal. lia.
    + rewrite Z.min_r by lia.
      rewrite !take_ge; [reflexivity | |]; rewrite length_drop; lia.
  - rewrite !Z.min_r by lia. rewrite Nat2Z.id.
    rewrite !drop_ge by lia. now rewrite !take_nil.
Qed.

Lemma pageData_take {A : Type} (i : nat) (l : list A) :
  UI.pageData (Z.of_nat i + 1) l = take 15 (drop (15 * i) l).
Proof.
  unfold UI.pageData, UI.startIndex, UI.ITEMS_PER_PAGE.
  replace ((Z.of_nat i + 1 - 1) * 15) with (Z.of_nat (15 * i)) by lia.
  replace (Z.of_nat (15 * i) + 15) with (Z.of_nat (15 * i + 15)) by lia.
  rewrite Array_slice_nonneg by lia. f_equal. lia.
Qed.

Lemma concat_chunks {A : Type} (k : nat) :
  ∀ l : list A,
    (length l <= 15 * k)%nat →
    concat ((λ i, take 15 (drop (15 * i) l)) <$> seq 0 k) = l.
Proof.
  induction k as [|k IH]; intros l Hl.
  - destruct l; [reflexivity | simpl in Hl; lia].
  - cbn [seq fmap list_fmap concat]. rewrite <- seq_shift.
    rewrite Nat.mul_0_r, drop_0.
    transitivity (take 15 l ++ drop 15 l); [|apply take_drop]. f_equal.
    transitivity
      (concat ((λ i, take 15 (drop (15 * i) (drop 15 l))) <$> seq 0 k));
      [|apply IH; rewrite length_drop; lia].
    f_equal. rewrite <- list_fmap_compose. apply list_fmap_ext.
    intros _ i _. cbn. rewrite drop_drop. do 2 f_equal. lia.
Qed.

(** X14: the pages of the rating table cut the list of players into
    consecutive pieces of 15 (the last one may be shorter): the pages
    1 to [totalPages] put together are the whole list, a page from 1 on
    is empty exactly when it lies beyond [totalPages], and the rank
    shown in front of a row is the position of the player in the whole
    list, counted from 1. *)
Theorem pages_partition {A : Type} (filteredPlayers : list A) :
  concat ((λ page, UI.pageData page filteredPlayers)
            <$> seqZ 1 (UI.totalPages filteredPlayers))
  = filteredPlayers
  ∧ (∀ page,
       1 <= page →
       (length (UI.pageData page filteredPlayers) <= 15)%nat
       ∧ (UI.pageData page filteredPlayers = []
          ↔ UI.totalPages filteredPlayers < page))
  ∧ (∀ page i rank player,
       1 <= page →
       UI.rankedPage page filteredPlayers !! i = Some (rank, player) →
       rank = (page - 1) * 15 + Z.of_nat i + 1
       ∧ filteredPlayers !! Z.to_nat (rank - 1) = Some player).
Proof.
  set (n := length filteredPlayers).
  assert (HT : UI.totalPages filteredPlayers = (Z.of_nat n + 14) / 15).
  { unfold UI.totalPages, UI.ITEMS_PER_PAGE. fold n. f_equal. lia. }
  pose proof (Z.div_mod (Z.of_nat n + 14) 15 ltac:(lia)) as Hdm.
  pose proof (Z.mod_pos_bound (Z.of_nat n + 14) 15 ltac:(lia)) as Hmb.
  rewrite <- HT in Hdm.
  split; [|split].
  - unfold seqZ. rewrite <- list_fmap_compose.
    rewrite <- (concat_chunks (Z.to_nat (UI.totalPages filteredPlayers))
                  filteredPlayers) at 2 by (fold n; lia).
    f_equal. apply list_fmap_ext. intros _ i _. unfold compose.
    apply pageData_take.
  - intros page Hpage.
    replace page with (Z.of_nat (Z.to_nat (page - 1)) + 1) at 1 2 by lia.
    rewrite pageData_take. split.
    + rewrite length_take. lia.
    + split.
      * intros E. apply (f_equal length) in E.
        rewrite length_take, length_drop in E. fold n in E.
        cbn [length] in E. lia.
      * intros Hlt. rewrite drop_ge; [apply take_nil | fold n; lia].
  - intros page i rank player Hpage. unfold UI.rankedPage.
    rewrite list_lookup_imap.
    replace page with (Z.of_nat (Z.to_nat (page - 1)) + 1) at 1 by lia.
    rewrite pageData_take.
    destruct (take 15 (drop _ filteredPlayers) !! i) as [x|] eqn:E;
      [|discriminate].
    cbn. intros [= <- <-]. unfold UI.startIndex, UI.ITEMS_PER_PAGE.
    split; [reflexivity|].
    apply lookup_take_Some in E as [E Hi]. rewrite lookup_drop in E.
    rewrite <- E. f_equal. lia.
Qed.

(** The list of page buttons, made explicit once the position of
    [currentPage] is known. *)
Ltac explicit_pages :=
  unfold UI.pagesToShow, UI.pushRange;
  repeat match goal with
         | |- context [?a <=? ?b] => destruct (Z.leb_spec a b); try lia
         | |- context [?a <? ?b] => destruct (Z.ltb_spec a b); try lia
         end;
  repeat first [ rewrite Z.max_l by lia | rewrite Z.max_r by lia
               | rewrite Z.min_l by lia | rewrite Z.min_r by lia ];
  repeat (rewrite seqZ_cons by lia);
  rewrite seqZ_nil by lia;
  cbn [fmap list_fmap app].

Ltac find_page :=
  rewrite !elem_of_cons;
  repeat match goal with
         | |- _ ∨ _ => first [ left; solve [f_equal; lia] | right ]
         end.

Ltac by_position i Hi Hj :=
  do 8 (destruct i as [|i];
        [ cbn [lookup list_lookup] in Hi, Hj; simplify_eq;
          try lia; try (eexists; split; [reflexivity | lia]) |]);
  cbn [lookup list_lookup] in Hi; discriminate.

Ltac check_pages :=
  explicit_pages;
  split; [reflexivity|];
  split; [reflexivity|];
  split; [find_page|];
  split; [cbn [length]; lia|];
  split;
  [ let i := fresh "i" in let Hi := fresh "Hi" in let Hj := fresh "Hj" in
    intros i a b Hi Hj; by_position i Hi Hj
  | let i := fresh "i" in let Hi := fresh "Hi" in let Hj := fresh "Hj" in
    intros i a Hi Hj; by_position i Hi Hj ].

(** X15: with a single page no page button is shown.  With more
    pages, and a current page between 1 and their number, the row of
    page buttons begins with page 1 and ends with the last page, holds
    the current page and at most 7 entries; two page numbers that
    stand side by side are consecutive, and an ellipsis always stands
    between two page numbers with at least one page left out between
    them. *)
Theorem page_buttons (totalPages currentPage : Z) :
  1 <= currentPage <= totalPages →
  let l := UI.pagesToShow totalPages currentPage in
  (totalPages = 1 → l = [])
  ∧ (1 < totalPages →
     head l = Some (UI.Page 1)
     ∧ last l = Some (UI.Page totalPages)
     ∧ UI.Page currentPage ∈ l
     ∧ (length l <= 7)%nat
     ∧ (∀ i a b,
          l !! i = Some (UI.Page a) → l !! S i = Some (UI.Page b) → b = a + 1)
     ∧ (∀ i a,
          l !! i = Some (UI.Page a) → l !! S i = Some UI.Ellipsis →
          ∃ b, l !! S (S i) = Some (UI.Page b) ∧ a + 1 < b)).
Proof.
  intros Hcp l. subst l. split; [now intros ->|]. intros Hmore.
  destruct (Z.le_gt_cases totalPages 5) as [Hle|Hgt].
  - assert (Ht : totalPages = 2 ∨ totalPages = 3
                 ∨ totalPages = 4 ∨ totalPages = 5) by lia.
    assert (Hc : currentPage = 1 ∨ currentPage = 2 ∨ currentPage = 3
                 ∨ currentPage = 4 ∨ currentPage = 5) by lia.
    destruct Ht as [->|[->|[->| ->]]];
      destruct Hc as [->|[->|[->|[->| ->]]]];
      try (exfalso; lia); check_pages.
  - assert (Hc : currentPage = 1 ∨ currentPage = 2 ∨ currentPage = 3
                 ∨ (4 <= currentPage <= totalPages - 3)
                 ∨ (4 <= currentPage ∧ currentPage = totalPages - 2)
                 ∨ currentPage = totalPages - 1
                 ∨ currentPage = totalPages) by lia.
    destruct Hc as [->|[->|[->|[Hc|[[Hc ->]|[->| ->]]]]]]; check_pages.
Qed.

Lemma page_buttons_witness :
  1 <= 5 <= 9
  ∧ UI.pagesToShow 9 5
    = [UI.Page 1; UI.Ellipsis; UI.Page 4; UI.Page 5; UI.Page 6; UI.Ellipsis;
       UI.Page 9]
  ∧ UI.Page 5 ∈ UI.pagesToShow 9 5.
Proof.
  split; [lia|]. split; [reflexivity|].
  apply (page_buttons 9 5); lia.
Defined.

(** ** The player's profile: ratings before and after each match *)

Lemma get_ratingEntries_skip h :
  ∀ prev acc k,
    Some k ∉ Elo.snap_matchId <$> h →
    JsMap.get k (UI.ratingEntries prev h acc) = JsMap.get k acc.
Proof.
  induction h as [|e h IH]; intros prev acc k Hk; [reflexivity|].
  rewrite fmap_cons, not_elem_of_cons in Hk. destruct Hk as [Hne Hk].
  cbn [UI.ratingEntries]. rewrite IH by assumption.
  destruct (Elo.snap_matchId e) as [mid|]; [|reflexivity].
  destruct (String.eqb mid EmptyString); [reflexivity|].
  apply get_set_ne. congruence.
Qed.

Lemma get_ratingEntries_at ext :
  ∀ p acc i s' k,
    NoDup (Elo.snap_matchId <$> ext) →
    ext !! i = Some s' → Elo.snap_matchId s' = Some k → k ≠ EmptyString →
    ∃ s,
      (p :: ext) !! i = Some s
      ∧ JsMap.get k (UI.ratingEntries (Some p) ext acc)
        = Some {| UI.info_before := Elo.snap_rating s;
                  UI.info_after := Elo.snap_rating s';
                  UI.info_change := Elo.snap_change s' |}.
Proof.
  induction ext as [|e ext IH]; intros p acc i s' k Hnd Hi Hk Hne;
    [now rewrite lookup_nil in Hi|].
  rewrite fmap_cons, NoDup_cons in Hnd. destruct Hnd as [He Hnd].
  destruct i as [|i].
  - injection Hi as ->. exists p. split; [reflexivity|].
    cbn [UI.ratingEntries]. rewrite Hk in *.
    apply String.eqb_neq in Hne. rewrite Hne.
    rewrite get_ratingEntries_skip by assumption. apply get_set_eq.
  - cbn [lookup list_lookup] in Hi.
    destruct (IH e (match Elo.snap_matchId e with
                    | Some matchId =>
                        if String.eqb matchId EmptyString then acc
                        else JsMap.set matchId
                               {| UI.info_before := Elo.snap_rating p;
                                  UI.info_after := Elo.snap_rating e;
                                  UI.info_change := Elo.snap_change e |} acc
                    | None => acc
                    end) i s' k Hnd Hi Hk Hne) as (s & Hs & Hget).
    exists s. split; [exact Hs | exact Hget].
Qed.

Section Profile.
Import Elo.
Variable Math_pow : float → float → float.

(** X16: when the matches have distinct, non-empty identifiers, the
    profile of a player not named [__proto__] shows for the player's
    i-th match the rating of snapshot i of the history as the rating
    before, the rating of snapshot i+1 as the rating after, which is
    the rating before plus the change, and the change is the one
    [getMatchDetails] reads from the match; the placeholder ['?'] is
    not shown.  For a player named [__proto__] the map [ratingByMatch]
    is empty: every match is shown with the placeholder. *)
Theorem profile_ratings (ms : list Match) :
  NoDup (id <$> ms) →
  Forall (λ m, id m ≠ EmptyString) ms →
  ∃ out,
    processAllMatches Math_pow ms = Some out
    ∧ Forall
        (λ rec,
           (player_id rec ≠ "__proto__"%string →
            ∀ i pm,
              DataManager.getPlayerMatches (matches out) (player_id rec) !! i
              = Some pm →
              ∃ s s',
                ratingHistory rec !! i = Some s
                ∧ ratingHistory rec !! S i = Some s'
                ∧ UI.ratingInfo (UI.ratingByMatch rec) pm
                  = Some {| UI.info_before := snap_rating s;
                            UI.info_after := snap_rating s';
                            UI.info_change := snap_change s' |}
                ∧ snap_rating s' = (snap_rating s + snap_change s')%float
                ∧ DataManager.ratingChange
                    (DataManager.getMatchDetails pm (player_id rec))
                  = JsObject.Own (snap_change s'))
           ∧ (player_id rec = "__proto__"%string →
              ∀ pm, UI.ratingInfo (UI.ratingByMatch rec) pm = None))
        (players out).
Proof.
  intros Hnd Hne.
  destruct (engine_outcome Math_pow ms) as (st & ps & Hout & Hms & _ & _ & Hall).
  eexists. split; [exact Hout|]. cbn [players matches]. rewrite Array_sort_perm.
  eapply Forall_impl; [exact Hall|].
  intros rec (_ & _ & _ & Hch & _ & m0 & ext & _ & Hh & Hlog). split.
  - intros Hp i pm Hi.
    rewrite getPlayerMatches_spec in Hi.
    assert (Hnd' : NoDup (snap_matchId <$> ext)).
    { rewrite (proj1 (Logged_ids _ _ _ Hlog)), Hms, list_fmap_compose.
      apply (NoDup_fmap_2 Some). now apply NoDup_fmap_filter. }
    unfold Logged in Hlog.
    rewrite (list_filter_iff (λ pm, rated (player_id rec) (pm_match pm))
               (λ pm, player_id rec ∈ participants (pm_match pm))) in Hlog
      by (intros pm'; unfold rated; tauto).
    destruct (Forall2_lookup_r _ _ _ _ _ Hlog Hi) as (s' & Hs' & Hid & _ & Hc).
    assert (Hin : pm_match pm ∈ ms).
    { rewrite <- Hms. apply list_elem_of_fmap. exists pm. split; [reflexivity|].
      apply list_elem_of_lookup_2 in Hi.
      now apply list_elem_of_filter in Hi as [_ Hi]. }
    rewrite Forall_forall in Hne.
    destruct (get_ratingEntries_at ext (firstSnapshot m0) [] i s'
                (id (pm_match pm)) Hnd' Hs' Hid (Hne _ Hin)) as (s & Hs & Hget).
    exists s, s'. unfold UI.ratingInfo, UI.ratingByMatch. rewrite Hh.
    split; [exact Hs|]. split; [exact Hs'|].
    split; [exact Hget|]. split.
    + apply (Hch i); rewrite Hh; assumption.
    + cbn [DataManager.getMatchDetails DataManager.ratingChange].
      unfold JsObject.get. now rewrite Hc.
  - intros Hp pm. unfold Logged in Hlog. rewrite Hp in Hlog.
    assert (E : filter (λ pm, rated "__proto__" (pm_match pm))
                  (processedMatches st) = []).
    { apply elem_of_nil_inv. intros pm' Hpm.
      apply list_elem_of_filter in Hpm as [[Hpm _] _]. now apply Hpm. }
    rewrite E in Hlog. inversion Hlog; subst.
    unfold UI.ratingInfo, UI.ratingByMatch. rewrite Hh. reflexivity.
Qed.

End Profile.

Lemma profile_ratings_witness :
  NoDup (id <$> [scenarioMatch])
  ∧ Forall (λ m, id m ≠ EmptyString) [scenarioMatch]
  ∧ ∃ out,
      Elo.processAllMatches RefPow.pow [scenarioMatch] = Some out
      ∧ Forall
          (λ rec,
             (Elo.player_id rec ≠ "__proto__"%string →
              ∀ i pm,
                DataManager.getPlayerMatches (Elo.matches out)
                  (Elo.player_id rec) !! i = Some pm →
                ∃ s s',
                  Elo.ratingHistory rec !! i = Some s
                  ∧ Elo.ratingHistory rec !! S i = Some s'
                  ∧ UI.ratingInfo (UI.ratingByMatch rec) pm
                    = Some {| UI.info_before := Elo.snap_rating s;
                              UI.info_after := Elo.snap_rating s';
                              UI.info_change := Elo.snap_change s' |}
                  ∧ Elo.snap_rating s'
                    = (Elo.snap_rating s + Elo.snap_change s')%float
                  ∧ DataManager.ratingChange
                      (DataManager.getMatchDetails pm (Elo.player_id rec))
                    = JsObject.Own (Elo.snap_change s'))
             ∧ (Elo.player_id rec = "__proto__"%string →
                ∀ pm, UI.ratingInfo (UI.ratingByMatch rec) pm = None))
          (Elo.players out).
Proof.
  assert (H1 : NoDup (id <$> [scenarioMatch]))
    by (apply NoDup_singleton).
  assert (H2 : Forall (λ m, id m ≠ EmptyString) [scenarioMatch])
    by (repeat constructor; discriminate).
  split; [exact H1|]. split; [exact H2|].
  exact (profile_ratings RefPow.pow [scenarioMatch] H1 H2).
Defined.

(** ** Reading the raw data *)

Lemma normalizeName_spec (n : string) :
  DataManager.normalizeName n
  = if bool_decide (n ∈ JsObject.prototypeMembers) then DataManager.Member n
    else DataManager.Str
           (default n (JsMap.get n DataManager.NAME_NORMALIZATIONS)).
Proof.
  unfold DataManager.normalizeName, JsObject.get.
  destruct (JsMap.get n DataManager.NAME_NORMALIZATIONS) as [full|] eqn:E.
  - unfold DataManager.NAME_NORMALIZATIONS in E. cbn [JsMap.get] in E.
    repeat match type of E with
           | (if String.eqb ?a ?b then _ else _) = _ =>
               destruct (String.eqb_spec a b) as [->|_]
           end;
      try discriminate; injection E as <-; vm_compute; reflexivity.
  - now destruct (bool_decide (n ∈ JsObject.prototypeMembers)).
Qed.

Lemma normalizeName_fixed (n s : string) :
  DataManager.normalizeName n = DataManager.Str s →
  DataManager.normalizeName s = DataManager.Str s.
Proof.
  unfold DataManager.normalizeName at 1. unfold JsObject.get.
  destruct (JsMap.get n DataManager.NAME_NORMALIZATIONS) as [full|] eqn:E.
  - unfold DataManager.NAME_NORMALIZATIONS in E. cbn [JsMap.get] in E.
    repeat match type of E with
           | (if String.eqb ?a ?b then _ else _) = _ =>
               destruct (String.eqb_spec a b) as [->|_]
           end;
      try discriminate; injection E as <-; vm_compute; now intros [= <-].
  - destruct (bool_decide (n ∈ JsObject.prototypeMembers)) eqn:Em;
      [discriminate|].
    intros [= <-]. unfold DataManager.normalizeName, JsObject.get.
    now rewrite E, Em.
Qed.

Lemma normalizeName_string (n : string) :
  n ∉ JsObject.prototypeMembers →
  ∃ s, DataManager.normalizeName n = DataManager.Str s.
Proof.
  intros Hn. rewrite normalizeName_spec, bool_decide_eq_false_2 by assumption.
  eauto.
Qed.

Lemma rawDecided_app l1 l2 : rawDecided (l1 ++ l2) = rawDecided l1 ++ rawDecided l2.
Proof. apply filter_app. Qed.

Lemma parseMatch_spec t d l g st playoff (m : DataManager.RawMatch) :
  engineFields <$> DataManager.parseMatch t d l g st playoff m
  = expectedFields d <$> rawDecided [m].
Proof.
  unfold DataManager.parseMatch, rawDecided.
  destruct (Z.eqb_spec (fst (DataManager.raw_score m))
              (snd (DataManager.raw_score m))) as [E|E].
  - now rewrite filter_cons_False by tauto.
  - now rewrite filter_cons_True by assumption.
Qed.

Lemma flat_map_fields {A : Type} (d : string)
  (f : A → list DataManager.ParsedMatch) (h : A → list DataManager.RawMatch)
  (l : list A) :
  (∀ x, engineFields <$> f x = expectedFields d <$> rawDecided (h x)) →
  engineFields <$> flat_map f l
  = expectedFields d <$> rawDecided (flat_map h l).
Proof.
  intros Hf. induction l as [|x l IH]; [reflexivity|].
  cbn [flat_map]. now rewrite rawDecided_app, !fmap_app, Hf, IH.
Qed.

Lemma parseMatches_spec t d l g st playoff (ms : list DataManager.RawMatch) :
  engineFields <$> flat_map (DataManager.parseMatch t d l g st playoff) ms
  = expectedFields d <$> rawDecided ms.
Proof.
  rewrite (flat_map_fields d _ (λ m, [m])) by (intros m; apply parseMatch_spec).
  f_equal. f_equal. induction ms as [|m ms IH]; [reflexivity|].
  cbn [flat_map app]. now rewrite IH.
Qed.

Lemma parse_spec (rawData : DataManager.RawData) :
  engineFields <$> DataManager.parseRawTournamentData rawData
  = expectedFields (DataManager.raw_date rawData)
      <$> rawDecided (rawMatches rawData).
Proof.
  unfold DataManager.parseRawTournamentData, rawMatches.
  apply flat_map_fields. intros league. unfold DataManager.parseLeague.
  rewrite rawDecided_app, !fmap_app. f_equal.
  - apply flat_map_fields. intros group. apply parseMatches_spec.
  - destruct (DataManager.league_playoff league) as [[[ms|]]|];
      [apply parseMatches_spec | reflexivity..].
Qed.

(** X17: [parseRawTournamentData] passes on the matches of the raw
    data, league by league and the groups of a league before its
    playoff, leaving out the draws and nothing else; every match passed
    on carries the date of the tournament, the score, as winner 1 when
    team 1 has the higher score and 2 otherwise, and in its teams what
    [normalizeName] makes of the four names: the member of
    [Object.prototype] for a name that is one of its member names, the
    full name for an abbreviation of the table, and the name itself
    otherwise; normalising a name a second time changes nothing. *)
Theorem parsed_matches_are_decided (rawData : DataManager.RawData) :
  (λ pm, (DataManager.parsed_date pm, DataManager.parsed_team1 pm,
          DataManager.parsed_team2 pm, DataManager.parsed_score pm,
          DataManager.parsed_winner pm))
    <$> DataManager.parseRawTournamentData rawData
  = (λ m, (DataManager.raw_date rawData,
           (DataManager.normalizeName (fst (DataManager.raw_team1 m)),
            DataManager.normalizeName (snd (DataManager.raw_team1 m))),
           (DataManager.normalizeName (fst (DataManager.raw_team2 m)),
            DataManager.normalizeName (snd (DataManager.raw_team2 m))),
           DataManager.raw_score m,
           if snd (DataManager.raw_score m) <? fst (DataManager.raw_score m)
           then 1 else 2))
      <$> filter (λ m, fst (DataManager.raw_score m)
                       ≠ snd (DataManager.raw_score m))
            (rawMatches rawData)
  ∧ (∀ n,
       DataManager.normalizeName n
       = if bool_decide (n ∈ JsObject.prototypeMembers)
         then DataManager.Member n
         else DataManager.Str
                (default n (JsMap.get n DataManager.NAME_NORMALIZATIONS)))
  ∧ ∀ n s,
      DataManager.normalizeName n = DataManager.Str s →
      DataManager.normalizeName s = DataManager.Str s.
Proof.
  split; [exact (parse_spec rawData)|].
  split; [exact normalizeName_spec | exact normalizeName_fixed].
Qed.

(** X18: two identifiers generated for the same tournament, league and
    group are equal only if the match numbers are. *)
Theorem match_ids_tell_numbers (tournament league group : string) (i j : Z) :
  DataManager.generateMatchId tournament league group i
  = DataManager.generateMatchId tournament league group j
  ↔ i = j.
Proof.
  split; [|now intros ->]. unfold DataManager.generateMatchId, JS.Number_toString.
  intros H. repeat apply String.app_inj in H. now apply pretty_Z_inj in H.
Qed.

Lemma parsed_origin (rawData : DataManager.RawData) pm :
  pm ∈ DataManager.parseRawTournamentData rawData →
  ∃ m,
    m ∈ rawMatches rawData
    ∧ fst (DataManager.raw_score m) ≠ snd (DataManager.raw_score m)
    ∧ engineFields pm = expectedFields (DataManager.raw_date rawData) m.
Proof.
  intros Hpm.
  assert (H : engineFields pm
              ∈ engineFields <$> DataManager.parseRawTournamentData rawData)
    by (apply list_elem_of_fmap; eauto).
  rewrite parse_spec in H. apply list_elem_of_fmap in H as (m & Hm & Hin).
  apply list_elem_of_filter in Hin as [Hne Hin]. eauto.
Qed.

Section Loading.
Import Elo.
Variable Math_pow : float → float → float.

(** X19: when no name of the raw data is a member name of
    [Object.prototype], every parsed match is a match between players
    named by strings, and [loadTournamentData] returns data.  Its
    matches are the parsed matches in their order; for every one of
    them and every player name, [getMatchDetails] reports a win exactly
    when the score it reports for the player is higher than the
    opponents'; and the win statistics of a player count the matches
    the player takes part in, the wins being among them. *)
Theorem loaded_data_winners (rawData : DataManager.RawData) :
  Forall (λ m, Forall (λ n, n ∉ JsObject.prototypeMembers) (rawNames m))
    (rawMatches rawData) →
  ∃ ms out,
    mapM DataManager.core (DataManager.parseRawTournamentData rawData) = Some ms
    ∧ DataManager.loadTournamentData Math_pow rawData = DataManager.Returns out
    ∧ pm_match <$> matches out = ms
    ∧ Forall
        (λ pm,
           ∀ p,
             DataManager.playerWon (DataManager.getMatchDetails pm p)
             = (DataManager.opponentScore (DataManager.getMatchDetails pm p)
                <? DataManager.playerScore (DataManager.getMatchDetails pm p)))
        (matches out)
    ∧ ∀ p,
        UI.total (UI.calculateWinRate (Some out) p) = playedBy p ms
        ∧ 0 <= UI.wins (UI.calculateWinRate (Some out) p)
            <= UI.total (UI.calculateWinRate (Some out) p).
Proof.
  intros Hnames. rewrite Forall_forall in Hnames.
  assert (Hcore : Forall
            (λ pm, ∃ m, DataManager.core pm = Some m
                        ∧ fst (score m) ≠ snd (score m)
                        ∧ winner m
                          = (if snd (score m) <? fst (score m) then 1 else 2))
            (DataManager.parseRawTournamentData rawData)).
  { apply Forall_forall. intros pm Hpm.
    destruct (parsed_origin rawData pm Hpm) as (m & Hm & Hne & Hf).
    injection Hf as _ Ht1 Ht2 Hs Hw.
    pose proof (Hnames m Hm) as Hn. unfold rawNames in Hn.
    rewrite !Forall_cons in Hn. destruct Hn as (Ha & Hb & Hc & Hd & _).
    destruct (normalizeName_string _ Ha) as [a Ea].
    destruct (normalizeName_string _ Hb) as [b Eb].
    destruct (normalizeName_string _ Hc) as [c Ec].
    destruct (normalizeName_string _ Hd) as [d Ed].
    unfold DataManager.core. rewrite Ht1, Ht2. unfold DataManager.normalizeTeam.
    cbn [fst snd]. rewrite Ea, Eb, Ec, Ed. cbn [DataManager.playerId].
    eexists. split; [reflexivity|]. cbn [score winner].
    rewrite Hs, Hw. auto. }
  assert (Hsome : is_Some (mapM DataManager.core
                             (DataManager.parseRawTournamentData rawData))).
  { apply mapM_is_Some. eapply Forall_impl; [exact Hcore|].
    intros pm (m & Hm & _). unfold compose. rewrite Hm. eauto. }
  destruct Hsome as [ms Hms]. exists ms.
  assert (Hdec : Forall
            (λ m, fst (score m) ≠ snd (score m)
                  ∧ winner m
                    = (if snd (score m) <? fst (score m) then 1 else 2)) ms).
  { apply mapM_Some in Hms. apply Forall_forall. intros m Hm.
    destruct (Forall2_elem_r _ _ _ _ Hms Hm) as (pm & Hpm & Hc).
    rewrite Forall_forall in Hcore. destruct (Hcore pm Hpm) as (m' & Hc' & H).
    rewrite Hc in Hc'. now injection Hc' as <-. }
  unfold DataManager.loadTournamentData. rewrite Hms.
  destruct (engine_outcome Math_pow ms) as (st & ps & Hout & Hpm & _).
  rewrite Hout. eexists. split; [reflexivity|]. split; [reflexivity|].
  cbn [matches]. split; [exact Hpm|]. split.
  - apply Forall_forall. intros pm Hin p.
    assert (Hm : pm_match pm ∈ ms).
    { rewrite <- Hpm. apply list_elem_of_fmap. eauto. }
    rewrite Forall_forall in Hdec. destruct (Hdec _ Hm) as [Hpl Hw].
    unfold DataManager.getMatchDetails.
    cbn [DataManager.playerWon DataManager.opponentScore DataManager.playerScore].
    rewrite Hw.
    destruct (DataManager.teamIncludes (team1 (pm_match pm)) p);
      destruct (Z.ltb_spec (snd (score (pm_match pm))) (fst (score (pm_match pm))));
      destruct (Z.ltb_spec (fst (score (pm_match pm))) (snd (score (pm_match pm))));
      cbn; try reflexivity; lia.
  - intros p. unfold UI.calculateWinRate. cbn [UI.total UI.wins matches].
    split.
    + rewrite getPlayerMatches_spec. unfold playedBy.
      rewrite <- Hpm, <- (filter_fmap_comm pm_match (λ m, p ∈ participants m)).
      now rewrite length_fmap.
    + split; [lia|]. apply inj_le, List.filter_length_le.
Qed.

End Loading.

Lemma loaded_data_winners_witness :
  Forall (λ m, Forall (λ n, n ∉ JsObject.prototypeMembers) (rawNames m))
    (rawMatches exampleRaw)
  ∧ ∃ out,
      DataManager.loadTournamentData RefPow.pow exampleRaw
      = DataManager.Returns out
      ∧ Elo.player_id <$> Elo.players out
        = ["A"; "Захарченко Владимир"; "C"; "D"]%string.
Proof.
  assert (H : Forall (λ m, Forall (λ n, n ∉ JsObject.prototypeMembers)
                             (rawNames m)) (rawMatches exampleRaw)).
  { apply (bool_decide_unpack _). vm_compute. exact I. }
  split; [exact H|].
  destruct (loaded_data_winners RefPow.pow exampleRaw H)
    as (ms & out & _ & Hout & _).
  exists out. split; [exact Hout|].
  vm_compute in Hout. now injection Hout as <-.
Defined.

(** ** The season rating *)

Section OMapFacts.
Context {K V : Type} `{EqDecision K}.
Implicit Types (k : K) (v : V) (m : list (K * V)).

Lemma oget_set k k' v m :
  OMap.get k (OMap.set k' v m)
  = if bool_decide (k = k') then Some v else OMap.get k m.
Proof.
  induction m as [|[k2 v2] m IH]; cbn [OMap.get OMap.set].
  - reflexivity.
  - destruct (decide (k' = k2)) as [->|Hne].
    + rewrite (bool_decide_eq_true_2 (k2 = k2)) by reflexivity.
      cbn [OMap.get]. now destruct (bool_decide (k = k2)).
    + rewrite (bool_decide_eq_false_2 (k' = k2)) by assumption.
      cbn [OMap.get]. rewrite IH.
      destruct (decide (k = k2)) as [->|Hne2].
      * rewrite !(bool_decide_eq_true_2 (k2 = k2)) by reflexivity.
        now rewrite bool_decide_eq_false_2 by congruence.
      * now rewrite (bool_decide_eq_false_2 (k = k2)) by assumption.
Qed.

Lemma oget_Some_elem k v m : OMap.get k m = Some v → (k, v) ∈ m.
Proof.
  induction m as [|[k' v'] m IH]; cbn [OMap.get]; [discriminate|].
  destruct (decide (k = k')) as [->|Hne].
  - rewrite bool_decide_eq_true_2 by reflexivity. intros [= ->]. left.
  - rewrite bool_decide_eq_false_2 by assumption. intros Hg. right. auto.
Qed.

Lemma oget_None_keys k m : OMap.get k m = None ↔ k ∉ OMap.keys m.
Proof.
  unfold OMap.keys. induction m as [|[k' v'] m IH]; cbn [OMap.get].
  - split; [intros _; apply not_elem_of_nil | reflexivity].
  - rewrite fmap_cons, not_elem_of_cons. cbn [fst].
    destruct (decide (k = k')) as [->|Hne].
    + rewrite bool_decide_eq_true_2 by reflexivity.
      split; [discriminate | intros [Hk _]; congruence].
    + rewrite bool_decide_eq_false_2 by assumption. rewrite IH. tauto.
Qed.

Lemma ohas_false k m : OMap.has k m = false ↔ k ∉ OMap.keys m.
Proof.
  rewrite <- oget_None_keys. unfold OMap.has.
  destruct (OMap.get k m); split; congruence.
Qed.

Lemma oset_absent k v m : k ∉ OMap.keys m → OMap.set k v m = m ++ [(k, v)].
Proof.
  unfold OMap.keys. induction m as [|[k' v'] m IH]; [reflexivity|].
  rewrite fmap_cons, not_elem_of_cons. cbn [fst OMap.set]. intros [Hne Hk].
  rewrite bool_decide_eq_false_2 by assumption. now rewrite IH.
Qed.

Lemma okeys_set_present k v v0 m :
  OMap.get k m = Some v0 → OMap.keys (OMap.set k v m) = OMap.keys m.
Proof.
  unfold OMap.keys. induction m as [|[k' v'] m IH]; cbn [OMap.get OMap.set];
    [discriminate|].
  destruct (decide (k = k')) as [->|Hne].
  - rewrite bool_decide_eq_true_2 by reflexivity. reflexivity.
  - rewrite bool_decide_eq_false_2 by assumption. intros Hg.
    rewrite !fmap_cons. f_equal. auto.
Qed.

Lemma okeys_set k v m :
  OMap.keys (OMap.set k v m)
  = if OMap.has k m then OMap.keys m else OMap.keys m ++ [k].
Proof.
  unfold OMap.has. destruct (OMap.get k m) as [v0|] eqn:E.
  - eapply okeys_set_present; eauto.
  - apply oget_None_keys in E. rewrite oset_absent by assumption.
    unfold OMap.keys. now rewrite fmap_app.
Qed.

Lemma oset_set k v v0 m : OMap.set k v (OMap.set k v0 m) = OMap.set k v m.
Proof.
  induction m as [|[k' v'] m IH]; cbn [OMap.set].
  - now rewrite bool_decide_eq_true_2 by reflexivity.
  - destruct (decide (k = k')) as [->|Hne].
    + rewrite !(bool_decide_eq_true_2 (k' = k')) by reflexivity.
      cbn [OMap.set]. now rewrite bool_decide_eq_true_2 by reflexivity.
    + rewrite !(bool_decide_eq_false_2 (k = k')) by assumption.
      cbn [OMap.set]. rewrite bool_decide_eq_false_2 by assumption.
      now rewrite IH.
Qed.

Lemma oForall_set (P : K * V → Prop) k v m :
  Forall P m → P (k, v) → Forall P (OMap.set k v m).
Proof.
  intros Hm Hkv. induction Hm as [|[k' v'] m Hx Hm IH]; cbn [OMap.set].
  - repeat constructor. assumption.
  - destruct (bool_decide (k = k')); constructor; auto.
Qed.

(** Replacing (or adding) a value changes a sum over the values by the
    difference. *)
Lemma osum_set (f : V → Z) k v m :
  sumZ ((f ∘ snd) <$> OMap.set k v m)
  = sumZ ((f ∘ snd) <$> m) - default 0 (f <$> OMap.get k m) + f v.
Proof.
  unfold sumZ. induction m as [|[k' v'] m IH]; cbn [OMap.get OMap.set].
  - cbn. lia.
  - destruct (bool_decide (k = k')).
    + cbn. lia.
    + rewrite !fmap_cons. cbn [fold_right compose snd]. rewrite IH. lia.
Qed.

End OMapFacts.

Section SeasonRating.
Import Db.
Implicit Types (M : list (Z * SeasonPlayer)) (row : MatchRow).



Lemma sumZ_snoc l x : sumZ (l ++ [x]) = sumZ l + x.
Proof.
  unfold sumZ. induction l as [|y l IH]; cbn [app fold_right]; lia.
Qed.

Lemma oget_Some_keys {K V : Type} `{EqDecision K} (k : K) (v : V) m :
  OMap.get k m = Some v → k ∈ OMap.keys m.
Proof.
  intros Hg. destruct (decide (k ∈ OMap.keys m)) as [|Hn]; [assumption|].
  apply oget_None_keys in Hn. congruence.
Qed.

Lemma stage_update stageKey pts line (stages0 : list (StageKey * StageData)) :
  LineOK line → sm_points line = pts →
  Forall (λ e, StageOK (snd e)) stages0 →
  ∃ sd,
    OMap.get stageKey
      (if OMap.has stageKey stages0 then stages0
       else OMap.set stageKey {| points := 0; stage_matches := [] |} stages0)
    = Some sd
    ∧ Forall (λ e, StageOK (snd e))
        (OMap.set stageKey
           {| points := points sd + pts;
              stage_matches := stage_matches sd ++ [line] |}
           (if OMap.has stageKey stages0 then stages0
            else OMap.set stageKey {| points := 0; stage_matches := [] |}
                   stages0))
    ∧ sumZ ((points ∘ snd)
              <$> OMap.set stageKey
                    {| points := points sd + pts;
                       stage_matches := stage_matches sd ++ [line] |}
                    (if OMap.has stageKey stages0 then stages0
                     else OMap.set stageKey
                            {| points := 0; stage_matches := [] |} stages0))
      = sumZ ((points ∘ snd) <$> stages0) + pts.
Proof.
  intros HL Hpts Hst. unfold OMap.has.
  destruct (OMap.get stageKey stages0) as [sd|] eqn:E.
  - exists sd. split; [exact E|].
    assert (Hsd : StageOK sd).
    { apply oget_Some_elem in E. rewrite Forall_forall in Hst.
      apply (Hst _ E). }
    destruct Hsd as (H1 & H2 & H3). split.
    + apply oForall_set; [assumption|]. cbn [snd]. split; [|split].
      * cbn [points stage_matches]. rewrite fmap_app.
        change (sm_points <$> [line]) with [sm_points line].
        rewrite sumZ_snoc. lia.
      * cbn [stage_matches]. now destruct (stage_matches sd).
      * cbn [stage_matches]. apply Forall_app. auto.
    + rewrite (osum_set points), E. cbn. lia.
  - eexists. split; [rewrite oget_set; now rewrite bool_decide_eq_true_2|].
    rewrite oset_set. split.
    + apply oForall_set; [assumption|]. cbn [snd]. split; [|split].
      * cbn. lia.
      * discriminate.
      * cbn [stage_matches app]. now constructor.
    + rewrite (osum_set points), E. cbn. lia.
Qed.

Lemma addLine_spec stageKey pts line M player :
  LineOK line → sm_points line = pts →
  SeasonInv M →
  SeasonInv (addLine stageKey pts line M player)
  ∧ ∀ k, k ∈ OMap.keys (addLine stageKey pts line M player)
         ↔ k = ref_id player ∨ k ∈ OMap.keys M.
Proof.
  intros HL Hpts [Hnd Hall]. unfold addLine.
  set (newP := {| sp_id := ref_id player; sp_name := ref_name player;
                  sp_gender := ref_gender player; stages := []; total := 0 |}).
  set (M1 := if OMap.has (ref_id player) M then M
             else OMap.set (ref_id player) newP M).
  assert (HM1 : SeasonInv M1
                ∧ (∀ k, k ∈ OMap.keys M1 ↔ k = ref_id player ∨ k ∈ OMap.keys M)
                ∧ ∃ p, OMap.get (ref_id player) M1 = Some p).
  { subst M1. unfold OMap.has.
    destruct (OMap.get (ref_id player) M) as [p|] eqn:E.
    - split; [split; assumption|]. split; [|eauto].
      intros k. split; [tauto|]. intros [->|Hk]; [|assumption].
      eapply oget_Some_keys; eauto.
    - pose proof E as Hn. apply oget_None_keys in Hn. split; [split|split].
      + rewrite oset_absent by assumption. unfold OMap.keys.
        rewrite fmap_app. apply NoDup_app. repeat split; [assumption| |].
        * intros x Hx Hk. apply list_elem_of_singleton in Hk. now subst.
        * apply NoDup_singleton.
      + apply oForall_set; [assumption|]. cbn. split; [reflexivity|].
        split; [reflexivity | constructor].
      + intros k. rewrite oset_absent by assumption. unfold OMap.keys.
        rewrite fmap_app, elem_of_app. cbn. rewrite list_elem_of_singleton.
        tauto.
      + exists newP. rewrite oget_set. now rewrite bool_decide_eq_true_2. }
  destruct HM1 as ([Hnd1 Hall1] & Hk1 & p & Hp). rewrite Hp.
  assert (Hpok : sp_id p = ref_id player ∧ PlayerOK p).
  { apply oget_Some_elem in Hp. rewrite Forall_forall in Hall1.
    apply (Hall1 _ Hp). }
  destruct Hpok as (Hid & Htot & Hst).
  destruct (stage_update stageKey pts line (stages p) HL Hpts Hst)
    as (sd & Hsd & Hst' & Hsum).
  rewrite Hsd. split; [split|].
  - now rewrite (okeys_set_present _ _ p).
  - apply oForall_set; [assumption|]. cbn [fst snd sp_id].
    split; [assumption|]. split; [|exact Hst'].
    cbn [total stages]. rewrite Hsum. lia.
  - intros k. now rewrite (okeys_set_present _ _ p).
Qed.

Lemma line_team1 (s1 s2 : Z) partner vs sc st :
  LineOK {| sm_partner := partner; sm_vs := vs; sm_score := sc;
            sm_won := s2 <? s1; sm_diff := Z.abs (s1 - s2);
            sm_points := getItalianPoints s1 s2; sm_stage := st |}.
Proof.
  unfold LineOK, getItalianPoints. cbn.
  destruct (Z.eqb_spec s1 s2), (Z.eqb_spec (Z.abs (s1 - s2)) 0),
    (Z.ltb_spec s2 s1), (Z.eqb_spec (Z.abs (s1 - s2)) 2);
    try reflexivity; lia.
Qed.

Lemma line_team2 (s1 s2 : Z) partner vs sc st :
  LineOK {| sm_partner := partner; sm_vs := vs; sm_score := sc;
            sm_won := negb (s2 <? s1); sm_diff := Z.abs (s1 - s2);
            sm_points := getItalianPoints s2 s1; sm_stage := st |}.
Proof.
  unfold LineOK, getItalianPoints. cbn.
  destruct (Z.eqb_spec s2 s1), (Z.eqb_spec (Z.abs (s1 - s2)) 0),
    (Z.ltb_spec s2 s1), (Z.ltb_spec s1 s2),
    (Z.eqb_spec (Z.abs (s1 - s2)) 2), (Z.eqb_spec (Z.abs (s2 - s1)) 2);
    cbn; try reflexivity; lia.
Qed.

Lemma addLine_chain stageKey pts line M player (Q : Z → Prop) :
  LineOK line → sm_points line = pts →
  SeasonInv M ∧ (∀ k, k ∈ OMap.keys M ↔ Q k) →
  SeasonInv (addLine stageKey pts line M player)
  ∧ ∀ k, k ∈ OMap.keys (addLine stageKey pts line M player)
         ↔ k = ref_id player ∨ Q k.
Proof.
  intros HL Hpts [HM HQ].
  destruct (addLine_spec stageKey pts line M player HL Hpts HM) as [H1 K1].
  split; [assumption|]. intros k. now rewrite K1, HQ.
Qed.

Lemma addRow_spec M row :
  SeasonInv M →
  SeasonInv (addRow M row)
  ∧ ∀ k, k ∈ OMap.keys (addRow M row) ↔ k ∈ rowIds row ∨ k ∈ OMap.keys M.
Proof.
  intros H0. unfold addRow. cbn [fold_left].
  match goal with
  | |- SeasonInv ?X ∧ _ =>
      assert (HX : SeasonInv X
                   ∧ ∀ k, k ∈ OMap.keys X
                          ↔ k = ref_id (p4 row)
                            ∨ (k = ref_id (p3 row)
                               ∨ (k = ref_id (p2 row)
                                  ∨ (k = ref_id (p1 row) ∨ k ∈ OMap.keys M))))
  end.
  { apply (addLine_chain _ _ _ _ _
             (λ k, k = ref_id (p3 row)
                   ∨ (k = ref_id (p2 row)
                      ∨ (k = ref_id (p1 row) ∨ k ∈ OMap.keys M))));
      [apply line_team2 | reflexivity |].
    apply (addLine_chain _ _ _ _ _
             (λ k, k = ref_id (p2 row)
                   ∨ (k = ref_id (p1 row) ∨ k ∈ OMap.keys M)));
      [apply line_team2 | reflexivity |].
    apply (addLine_chain _ _ _ _ _
             (λ k, k = ref_id (p1 row) ∨ k ∈ OMap.keys M));
      [apply line_team1 | reflexivity |].
    apply (addLine_chain _ _ _ _ _ (λ k, k ∈ OMap.keys M));
      [apply line_team1 | reflexivity |].
    split; [exact H0 | reflexivity]. }
  destruct HX as [HX KX]. split; [exact HX|].
  intros k. rewrite KX. unfold rowIds. rewrite !elem_of_cons, elem_of_nil.
  tauto.
Qed.

Lemma season_map_spec (rows : list MatchRow) :
  ∀ M,
    SeasonInv M →
    SeasonInv (fold_left addRow rows M)
    ∧ ∀ k, k ∈ OMap.keys (fold_left addRow rows M)
           ↔ (∃ row, row ∈ rows ∧ k ∈ rowIds row) ∨ k ∈ OMap.keys M.
Proof.
  induction rows as [|row rows IH]; intros M HM; cbn [fold_left].
  - split; [assumption|]. intros k. split; [tauto|].
    intros [(row & Hr & _)|Hk]; [now apply elem_of_nil in Hr | assumption].
  - destruct (addRow_spec M row HM) as [H1 K1].
    destruct (IH _ H1) as [H2 K2]. split; [assumption|].
    intros k. rewrite K2, K1. split.
    + intros [(r & Hr & Hk)|[Hk|Hk]]; [left; exists r | left; exists row | tauto];
        (split; [|assumption]); [now right | left].
    + intros [(r & Hr & Hk)|Hk]; [|tauto].
      apply elem_of_cons in Hr as [->|Hr]; [tauto | left; eauto].
Qed.

Lemma ids_values M :
  Forall (λ e, sp_id (snd e) = fst e ∧ PlayerOK (snd e)) M →
  sp_id <$> OMap.values M = OMap.keys M.
Proof.
  unfold OMap.values, OMap.keys.
  induction 1 as [|[k p] M [Hk _] _ IH]; [reflexivity|].
  rewrite !fmap_cons, IH. cbn in *. now rewrite Hk.
Qed.

Lemma byTotalDesc_asym a b : byTotalDesc a b = true → byTotalDesc b a = false.
Proof. unfold byTotalDesc. rewrite Z.ltb_lt, Z.ltb_ge. lia. Qed.

Lemma byTotalDesc_trans a b c :
  byTotalDesc a b = false → byTotalDesc b c = false → byTotalDesc a c = false.
Proof. unfold byTotalDesc. rewrite !Z.ltb_ge. lia. Qed.

(** X20: without a season [getSeasonRating] returns [null]; with one,
    it returns eleven stages, numbered 1 to 10 and the final, and one
    player for each identifier that occurs in a match row, no
    identifier twice, ordered by total: a player placed earlier has a
    total at least as large as any player placed later. *)
Theorem season_rating_order {Season : Type} (s : Season)
  (tournaments : list Tournament) (allMatches : list MatchRow) :
  getSeasonRating (@None Season) tournaments allMatches = None
  ∧ ∃ r,
      getSeasonRating (Some s) tournaments allMatches = Some r
      ∧ season r = s
      ∧ stageNumber <$> season_stages r = (Some <$> seqZ 1 10) ++ [None]
      ∧ NoDup (sp_id <$> season_players r)
      ∧ (∀ k, k ∈ sp_id <$> season_players r
              ↔ ∃ row, row ∈ allMatches ∧ k ∈ rowIds row)
      ∧ ∀ i j a b,
          (i < j)%nat →
          season_players r !! i = Some a → season_players r !! j = Some b →
          total b <= total a.
Proof.
  split; [reflexivity|]. eexists. split; [reflexivity|].
  cbn [season season_stages season_players].
  destruct (season_map_spec allMatches []) as [[Hnd Hall] Hkeys].
  { split; constructor. }
  split; [reflexivity|]. split; [reflexivity|].
  assert (Hids : sp_id <$> JS.Array_sort byTotalDesc
                             (OMap.values (fold_left addRow allMatches []))
                 ≡ₚ OMap.keys (fold_left addRow allMatches []))
    by now rewrite Array_sort_perm, ids_values.
  split; [now rewrite Hids|]. split.
  - intros k. rewrite Hids, Hkeys. cbn. rewrite elem_of_nil. tauto.
  - intros i j a b Hij Hi Hj.
    pose proof (Array_sort_sorted byTotalDesc byTotalDesc_asym byTotalDesc_trans
                  (OMap.values (fold_left addRow allMatches []))) as Hs.
    pose proof (StronglySorted_lookup _ _ Hs i j a b Hij Hi Hj) as Hab.
    unfold byTotalDesc in Hab. apply Z.ltb_ge in Hab. lia.
Qed.

(** X21: in the season rating the total of every player is the sum of
    the points of the player's stages; every stage holds at least one
    line and its points are the sum of the points of its lines; and the
    points of a line are those of its result and difference: none for
    a draw, 2 or 3 for a win and 1 or 0 for a loss, by two points or
    not. *)
Theorem season_totals_add_up {Season : Type} (s : Season)
  (tournaments : list Tournament) (allMatches : list MatchRow) :
  ∃ r,
    getSeasonRating (Some s) tournaments allMatches = Some r
    ∧ Forall
        (λ p,
           total p = sumZ ((points ∘ snd) <$> stages p)
           ∧ Forall
               (λ e,
                  points (snd e) = sumZ (sm_points <$> stage_matches (snd e))
                  ∧ stage_matches (snd e) ≠ []
                  ∧ Forall
                      (λ line,
                         sm_points line
                         = if sm_diff line =? 0 then 0
                           else if sm_won line
                                then (if sm_diff line =? 2 then 2 else 3)
                                else (if sm_diff line =? 2 then 1 else 0))
                      (stage_matches (snd e)))
               (stages p))
        (season_players r).
Proof.
  eexists. split; [reflexivity|]. cbn [season_players].
  destruct (season_map_spec allMatches []) as [[_ Hall] _].
  { split; constructor. }
  rewrite Array_sort_perm. unfold OMap.values. apply Forall_fmap.
  eapply Forall_impl; [exact Hall|].
  intros [k p] [_ Hp]. exact Hp.
Qed.

End SeasonRating.

(** ** An even match *)

Section EvenMatch.
Import Elo.
Variable Math_pow : float → float → float.

(** X22: against opponents whose average rating is the player's own
    rating, a win is worth half the K-factor and a loss costs as much:
    20 points while the player has fewer than 15 games, 16 after. *)
Theorem even_match_change (r : float) (isWinner : bool) (gamesPlayed : Z) :
  Math_pow 10 0 = 1%float →
  (r - r)%float = 0%float →
  calculateRatingChange Math_pow r r isWinner gamesPlayed
  = match isWinner, gamesPlayed <? 15 with
    | true, true => 20%float
    | true, false => 16%float
    | false, true => (-20)%float
    | false, false => (-16)%float
    end.
Proof.
  intros Hpow Hr. unfold calculateRatingChange.
  rewrite (expected_even Math_pow Hpow r Hr).
  unfold getKFactor, CALIBRATION_GAMES.
  destruct isWinner, (gamesPlayed <? 15); reflexivity.
Qed.

End EvenMatch.

Lemma even_match_change_witness :
  RefPow.pow 10 0 = 1%float
  ∧ (1500 - 1500)%float = 0%float
  ∧ Elo.calculateRatingChange RefPow.pow 1500 1500 false 15 = (-16)%float.
Proof.
  split; [reflexivity|]. split; [reflexivity|].
  exact (even_match_change RefPow.pow 1500 false 15 eq_refl eq_refl).
Defined.

(** ** What a match adds to the standings as a whole *)

Lemma sumZ_app l1 l2 : sumZ (l1 ++ l2) = sumZ l1 + sumZ l2.
Proof.
  unfold sumZ. induction l1 as [|x l1 IH]; cbn [app fold_right]; lia.
Qed.

Lemma sumZ_perm l l' : l ≡ₚ l' → sumZ l = sumZ l'.
Proof.
  unfold sumZ. induction 1; cbn [fold_right]; lia.
Qed.

Lemma jsum_set {V : Type} (f : V → Z) k v (m : list (string * V)) :
  sumZ (f <$> JsMap.values (JsMap.set k v m))
  = sumZ (f <$> JsMap.values m) - default 0 (f <$> JsMap.get k m) + f v.
Proof.
  unfold sumZ, JsMap.values.
  induction m as [|[k' v'] m IH]; cbn [JsMap.get JsMap.set].
  - cbn. lia.
  - destruct (String.eqb k k').
    + cbn. lia.
    + rewrite !fmap_cons. cbn [fold_right snd]. rewrite IH. lia.
Qed.

Section Conservation.
Import TournamentUI.
Implicit Types (M : list (string * PlayerAcc)) (m : Match) (p q : string).

Variable f : PlayerAcc → Z.
Hypothesis f_new : ∀ q, f (newPlayer q) = 0.

Lemma sum_ensurePlayer M q :
  sumZ (f <$> JsMap.values (ensurePlayer M q)) = sumZ (f <$> JsMap.values M).
Proof.
  unfold ensurePlayer, JsMap.has.
  destruct (JsMap.get q M) eqn:E; [reflexivity|].
  rewrite jsum_set, E, f_new. cbn. lia.
Qed.

Lemma sum_ensure_all l M :
  sumZ (f <$> JsMap.values (fold_left ensurePlayer l M))
  = sumZ (f <$> JsMap.values M).
Proof.
  revert M. induction l as [|q l IH]; intros M; [reflexivity|].
  cbn [fold_left]. now rewrite IH, sum_ensurePlayer.
Qed.

Lemma sum_creditPlayer i s o w c M q :
  (∀ a, f (credit i s o w a) = f a + c) →
  q ∈ JsMap.keys M →
  sumZ (f <$> JsMap.values (creditPlayer i s o w M q))
  = sumZ (f <$> JsMap.values M) + c.
Proof.
  intros Hc Hq. unfold creditPlayer.
  destruct (keys_get _ _ Hq) as [a Ha]. rewrite Ha, jsum_set, Ha, Hc. cbn. lia.
Qed.

Lemma sum_addMatch (c1 c2 : Z) M m :
  played m →
  (∀ a, f (credit (id m) (fst (score m)) (snd (score m))
             (snd (score m) <? fst (score m)) a) = f a + c1) →
  (∀ a, f (credit (id m) (snd (score m)) (fst (score m))
             (negb (snd (score m) <? fst (score m))) a) = f a + c2) →
  sumZ (f <$> JsMap.values (addMatch M m))
  = sumZ (f <$> JsMap.values M) + 2 * c1 + 2 * c2.
Proof.
  unfold played, addMatch. intros Hpl H1 H2.
  destruct (Z.eqb_spec (fst (score m)) (snd (score m))); [contradiction|].
  set (M1 := fold_left ensurePlayer (participants m) M).
  assert (Hk : ∀ q, q ∈ participants m → q ∈ JsMap.keys M1).
  { intros q Hq. destruct (creditPlayer_defined (participants m) M q Hq) as [a Ha].
    eapply get_Some_keys; eauto. }
  cbn [fold_left].
  rewrite (sum_creditPlayer _ _ _ _ c2), (sum_creditPlayer _ _ _ _ c2),
    (sum_creditPlayer _ _ _ _ c1), (sum_creditPlayer _ _ _ _ c1);
    rewrite ?keys_creditPlayer; try assumption;
    try (apply Hk; unfold participants; rewrite !elem_of_cons; tauto).
  unfold M1. rewrite sum_ensure_all. lia.
Qed.

End Conservation.

Section ConservationLaws.
Import TournamentUI.

Lemma sum_aggregate (f : PlayerAcc → Z) (c : Z) (ms : list Match) :
  (∀ q, f (newPlayer q) = 0) →
  (∀ m, played m →
        ∃ c1 c2,
          c1 + c2 = c
          ∧ (∀ a, f (credit (id m) (fst (score m)) (snd (score m))
                       (snd (score m) <? fst (score m)) a) = f a + c1)
          ∧ (∀ a, f (credit (id m) (snd (score m)) (fst (score m))
                       (negb (snd (score m) <? fst (score m))) a) = f a + c2)) →
  sumZ (f <$> JsMap.values (aggregate ms))
  = 2 * c * Z.of_nat (length (filter played ms)).
Proof.
  intros Hnew Hc. unfold aggregate.
  assert (H : ∀ M, sumZ (f <$> JsMap.values (fold_left addMatch ms M))
                   = sumZ (f <$> JsMap.values M)
                     + 2 * c * Z.of_nat (length (filter played ms))).
  { induction ms as [|m ms IH]; intros M; cbn [fold_left].
    - cbn. lia.
    - rewrite IH, filter_cons. destruct (decide (played m)) as [Hp|Hd].
      + destruct (Hc m Hp) as (c1 & c2 & Hsum & H1 & H2).
        rewrite (sum_addMatch f Hnew c1 c2) by assumption.
        cbn [length]. lia.
      + rewrite ui_addMatch_drawn; [lia|].
        unfold played, drawn in *.
        destruct (decide (fst (score m) = snd (score m))); tauto. }
  rewrite H. cbn. lia.
Qed.

(** X23: over the rows of the standings of all players, each match
    with unequal scores counts four games, two wins, two losses and six
    Italian points; and when the scores add up to at most 2^53 in
    size, the points differences of the rows sum to zero. *)
Theorem standings_conservation (ms : list Match) :
  let rows := calculateStandings FilterAll ms in
  let n := Z.of_nat (length (filter played ms)) in
  sumZ ((games ∘ row) <$> rows) = 4 * n
  ∧ sumZ ((wins ∘ row) <$> rows) = 2 * n
  ∧ sumZ ((losses ∘ row) <$> rows) = 2 * n
  ∧ sumZ ((italianPoints ∘ row) <$> rows) = 6 * n
  ∧ (SafeScores ms → sumZ (ballsDiff <$> rows) = 0).
Proof.
  intros rows n.
  assert (Hrows : ∀ g : StandingsRow → Z,
            sumZ (g <$> rows)
            = sumZ ((g ∘ withDiff) <$> JsMap.values (aggregate ms))).
  { intros g. unfold rows, calculateStandings.
    rewrite (sumZ_perm _ (g <$> (withDiff
               <$> filter (passesFilter FilterAll) (JsMap.values (aggregate ms)))))
      by (apply fmap_Permutation, Array_sort_perm).
    rewrite filter_all by (intros x; exact I).
    now rewrite <- list_fmap_compose. }
  rewrite !Hrows.
  split; [|split; [|split; [|split]]].
  - rewrite (sum_aggregate _ 2); [fold n; lia | reflexivity |].
    intros m _. exists 1, 1. split; [lia|]. split; reflexivity.
  - rewrite (sum_aggregate _ 1); [fold n; lia | reflexivity |].
    intros m Hp. unfold played in Hp.
    destruct (Z.ltb_spec (snd (score m)) (fst (score m))).
    + exists 1, 0. split; [lia|]. split; intros a; cbn; lia.
    + exists 0, 1. split; [lia|]. split; intros a; cbn; lia.
  - rewrite (sum_aggregate _ 1); [fold n; lia | reflexivity |].
    intros m Hp. unfold played in Hp.
    destruct (Z.ltb_spec (snd (score m)) (fst (score m))).
    + exists 0, 1. split; [lia|]. split; intros a; cbn; lia.
    + exists 1, 0. split; [lia|]. split; intros a; cbn; lia.
  - rewrite (sum_aggregate _ 3); [fold n; lia | reflexivity |].
    intros m Hp. unfold played in Hp.
    exists (getItalianPoints (fst (score m)) (snd (score m))),
      (getItalianPoints (snd (score m)) (fst (score m))).
    split; [|split; reflexivity].
    unfold getItalianPoints.
    replace (Z.abs (snd (score m) - fst (score m)))
      with (Z.abs (fst (score m) - snd (score m))) by lia.
    destruct (Z.ltb_spec (snd (score m)) (fst (score m))),
      (Z.ltb_spec (fst (score m)) (snd (score m))),
      (Z.abs (fst (score m) - snd (score m)) =? 2); lia.
  - intros _. rewrite (sum_aggregate _ 0); [lia | reflexivity |].
    intros m _. exists (fst (score m) - snd (score m)),
      (snd (score m) - fst (score m)).
    split; [lia|]. split; intros a; cbn; lia.
Qed.

Lemma standings_conservation_witness :
  SafeScores exampleGroup
  ∧ sumZ (ballsDiff <$> calculateStandings FilterAll exampleGroup) = 0.
Proof.
  assert (Hs : SafeScores exampleGroup) by (unfold SafeScores; simpl; lia).
  split; [exact Hs|].
  now apply (standings_conservation exampleGroup).
Defined.

End ConservationLaws.

(** ** Later matches do not change earlier results *)

Section Causality.
Import Elo.
Variable Math_pow : float → float → float.
Implicit Types (S T : State) (m : Match) (p q : string).

Lemma runMatches_same_log pre :
  ∀ S T,
    Coherent S → Coherent T → Agree S T →
    (∀ m q, m ∈ pre → q ∈ participants m → known T q) →
    ∃ S' T' pms,
      runMatches Math_pow S pre = Some S'
      ∧ runMatches Math_pow T pre = Some T'
      ∧ processedMatches S' = processedMatches S ++ pms
      ∧ processedMatches T' = processedMatches T ++ pms
      ∧ length pms = length pre
      ∧ Coherent S'
      ∧ JsMap.keys (playerRatings S') = JsMap.keys (playerRatings S).
Proof.
  unfold runMatches. induction pre as [|m pre IH]; intros S T HcS HcT Hag Hk.
  - exists S, T, []. rewrite !app_nil_r. auto 10.
  - assert (HkT : ∀ q, q ∈ participants m → known T q)
      by (intros q Hq; apply (Hk m); [left | assumption]).
    destruct (processOne_agree Math_pow m S T HcS HcT Hag HkT)
      as (S1 & T1 & HS1 & HT1 & HcS1 & HcT1 & HkS1 & HkT1 & Hag1 & _).
    assert (HkS : ∀ q, q ∈ participants m → known S q).
    { intros q Hq. apply (known_view_Some S q HcS). rewrite (Hag q (HkT q Hq)).
      now apply (known_view_Some T q HcT), HkT. }
    destruct (processOne_spec Math_pow m S HcS HkS) as (S1' & HS1' & _ & _ & HpS & _).
    destruct (processOne_spec Math_pow m T HcT HkT) as (T1' & HT1' & _ & _ & HpT & _).
    rewrite HS1 in HS1'. injection HS1' as <-.
    rewrite HT1 in HT1'. injection HT1' as <-.
    assert (Hes : processMatch Math_pow m (playerRatings S) (playerGames S)
                  = processMatch Math_pow m (playerRatings T) (playerGames T)).
    { apply processMatch_ext. intros q Hq.
      pose proof (Hag q (HkT q Hq)) as Hv. unfold view in Hv.
      injection Hv as -> -> _. auto. }
    rewrite Hes in HpS.
    destruct (IH S1 T1 HcS1 HcT1 Hag1)
      as (S' & T' & pms & HS' & HT' & HpS' & HpT' & Hlen & HcS' & HkS').
    { intros m' q Hm' Hq. unfold known. rewrite HkT1.
      apply (Hk m'); [now right | assumption]. }
    exists S', T'. eexists (_ :: pms). cbn [foldM]. rewrite HS1, HT1.
    split; [assumption|]. split; [assumption|].
    split; [rewrite HpS', HpS, <- app_assoc; reflexivity|].
    split; [rewrite HpT', HpT, <- app_assoc; reflexivity|].
    split; [cbn [length]; now rewrite Hlen|].
    split; [assumption | congruence].
Qed.

(** X24: the rating changes recorded for a match do not depend on the
    matches that come after it: the processed matches of a list are
    the first ones among the processed matches of any longer list that
    starts with it. *)
Theorem earlier_matches_unaffected (ms1 ms2 : list Match) :
  ∃ out1 out12,
    processAllMatches Math_pow ms1 = Some out1
    ∧ processAllMatches Math_pow (ms1 ++ ms2) = Some out12
    ∧ take (length ms1) (matches out12) = matches out1.
Proof.
  destruct (initPlayers_spec ms1 emptyState Coherent_empty Sound_empty)
    as (HcT & HsT & HkT & HpT).
  set (T0 := initPlayers ms1 emptyState) in *.
  assert (HS0 : initPlayers (ms1 ++ ms2) emptyState = initPlayers ms2 T0).
  { unfold initPlayers, T0. apply fold_left_app. }
  destruct (initPlayers_spec ms2 T0 HcT HsT) as (HcS & _ & HkS & HpS).
  destruct (initPlayers_keep ms2 T0) as [Hkeep _].
  set (S0 := initPlayers ms2 T0) in *.
  destruct (runMatches_same_log ms1 S0 T0 HcS HcT)
    as (S1 & T1 & pms & HS1 & HT1 & HpS1 & HpT1 & Hlen & HcS1 & HkS1).
  { intros q Hq. now apply Hkeep. }
  { intros m q Hm Hq. apply HkT. left. eauto. }
  destruct (runMatches_log Math_pow ms2 S1 HcS1)
    as (S2 & pms2 & HS2 & HpS2 & _).
  { intros m q Hm Hq. unfold known. rewrite HkS1. apply HkS. left. eauto. }
  destruct (engine_outcome Math_pow ms1) as (st1 & ps1 & Hout1 & _).
  destruct (engine_outcome Math_pow (ms1 ++ ms2)) as (st12 & ps12 & Hout12 & _).
  eexists. eexists. split; [exact Hout1|]. split; [exact Hout12|].
  cbn [matches].
  assert (E1 : processedMatches st1 = pms).
  { unfold processAllMatches in Hout1. fold T0 in Hout1. rewrite HT1 in Hout1.
    destruct (buildPlayers T1); [|discriminate].
    injection Hout1 as _ <-. rewrite HpT1, HpT. reflexivity. }
  assert (E12 : processedMatches st12 = pms ++ pms2).
  { unfold processAllMatches in Hout12. rewrite HS0 in Hout12. fold S0 in Hout12.
    unfold runMatches in *. rewrite foldM_app, HS1, HS2 in Hout12.
    destruct (buildPlayers S2); [|discriminate].
    injection Hout12 as _ <-. rewrite HpS2, HpS1, HpS, HpT. reflexivity. }
  rewrite E1, E12, <- Hlen. apply take_app_length.
Qed.

End Causality.

(** ** The order of the table ranked by wins *)

Section WinsOrder.
Import WinsTable.





End WinsOrder.

(** ** The playoff bracket *)

Lemma oelem_get {K V : Type} `{EqDecision K} (k : K) (v : V) m :
  NoDup (OMap.keys m) → (k, v) ∈ m → OMap.get k m = Some v.
Proof.
  unfold OMap.keys. induction m as [|[k' v'] m IH]; cbn [OMap.get].
  - intros _ Hin. now apply elem_of_nil in Hin.
  - rewrite fmap_cons, NoDup_cons, elem_of_cons. cbn [fst].
    intros [Hk Hnd] [E|Hin].
    + injection E as -> ->. now rewrite bool_decide_eq_true_2.
    + rewrite bool_decide_eq_false_2; [auto|]. intros ->. apply Hk.
      apply list_elem_of_fmap. exists (k', v). auto.
Qed.

Lemma oNoDup_keys_set {K V : Type} `{EqDecision K} (k : K) (v : V) m :
  NoDup (OMap.keys m) → NoDup (OMap.keys (OMap.set k v m)).
Proof.
  intros Hnd. rewrite okeys_set. destruct (OMap.has k m) eqn:E; [assumption|].
  apply ohas_false in E. apply NoDup_app. repeat split; [assumption| |].
  - intros x Hx Hk. apply list_elem_of_singleton in Hk. now subst.
  - apply NoDup_singleton.
Qed.

Lemma List_filter_stdpp {A : Type} (f : A → bool) (l : list A) :
  List.filter f l = filter (λ x, f x = true) l.
Proof.
  induction l as [|x l IH]; [reflexivity|].
  cbn [List.filter]. rewrite filter_cons, IH.
  destruct (f x); [now rewrite decide_True | now rewrite decide_False].
Qed.

Section BracketFacts.
Import Bracket.
Implicit Types (ms : list DataManager.RawMatch) (r : option string).

Lemma addToRound_spec rounds m :
  NoDup (OMap.keys rounds) →
  NoDup (OMap.keys (addToRound rounds m))
  ∧ ∀ r, OMap.get r (addToRound rounds m)
         = if bool_decide (r = DataManager.raw_round m)
           then Some (default [] (OMap.get r rounds) ++ [m])
           else OMap.get r rounds.
Proof.
  intros Hnd. unfold addToRound, OMap.has.
  destruct (OMap.get (DataManager.raw_round m) rounds) as [l|] eqn:E.
  - rewrite E. split; [now apply oNoDup_keys_set|].
    intros r. rewrite oget_set.
    destruct (decide (r = DataManager.raw_round m)) as [->|Hne].
    + rewrite !bool_decide_eq_true_2 by reflexivity. now rewrite E.
    + now rewrite !bool_decide_eq_false_2 by assumption.
  - rewrite oget_set, bool_decide_eq_true_2 by reflexivity. rewrite oset_set.
    split; [now apply oNoDup_keys_set|].
    intros r. rewrite oget_set.
    destruct (decide (r = DataManager.raw_round m)) as [->|Hne].
    + rewrite !bool_decide_eq_true_2 by reflexivity. now rewrite E.
    + now rewrite !bool_decide_eq_false_2 by assumption.
Qed.

Lemma groupByRound_from ms :
  ∀ rounds,
    NoDup (OMap.keys rounds) →
    NoDup (OMap.keys (fold_left addToRound ms rounds))
    ∧ ∀ r, OMap.get r (fold_left addToRound ms rounds)
           = match OMap.get r rounds with
             | Some l => Some (l ++ ofRound r ms)
             | None => match ofRound r ms with
                       | [] => None
                       | l => Some l
                       end
             end.
Proof.
  induction ms as [|m ms IH]; intros rounds Hnd; cbn [fold_left].
  - split; [assumption|]. intros r. unfold ofRound. rewrite filter_nil.
    destruct (OMap.get r rounds); [now rewrite app_nil_r | reflexivity].
  - destruct (addToRound_spec rounds m Hnd) as [Hnd1 Hget1].
    destruct (IH _ Hnd1) as [Hnd2 Hget2]. split; [assumption|].
    intros r. rewrite Hget2, Hget1. unfold ofRound. rewrite filter_cons.
    destruct (decide (DataManager.raw_round m = r)) as [<-|Hne].
    + rewrite bool_decide_eq_true_2 by reflexivity.
      destruct (OMap.get _ rounds); cbn [default from_option Datatypes.id];
        [now rewrite <- app_assoc | reflexivity].
    + rewrite bool_decide_eq_false_2 by congruence. reflexivity.
Qed.

Lemma groupByRound_spec ms :
  NoDup (OMap.keys (groupByRound ms))
  ∧ ∀ r l, (r, l) ∈ groupByRound ms ↔ l = ofRound r ms ∧ l ≠ [].
Proof.
  unfold groupByRound.
  destruct (groupByRound_from ms []) as [Hnd Hget]; [constructor|].
  split; [assumption|]. intros r l. split.
  - intros Hin. apply (oelem_get _ _ _ Hnd) in Hin. rewrite Hget in Hin.
    cbn [OMap.get] in Hin. destruct (ofRound r ms); [discriminate|].
    injection Hin as <-. split; [reflexivity | discriminate].
  - intros [-> Hne]. apply oget_Some_elem. rewrite Hget. cbn [OMap.get].
    destruct (ofRound r ms); [contradiction | reflexivity].
Qed.

Lemma byRoundOrder_asym a b : byRoundOrder a b = true → byRoundOrder b a = false.
Proof. unfold byRoundOrder. rewrite Z.ltb_lt, Z.ltb_ge. lia. Qed.

Lemma byRoundOrder_trans a b c :
  byRoundOrder a b = false → byRoundOrder b c = false →
  byRoundOrder a c = false.
Proof. unfold byRoundOrder. rewrite !Z.ltb_ge. lia. Qed.

Lemma panelMatch_spec (s : string) ms :
  isFinalRound (Some s) = true →
  panelMatch s ms = head (ofRound (Some s) ms).
Proof.
  intros Hs. unfold panelMatch, finalRounds, sortedRounds.
  destruct (groupByRound_spec ms) as [Hnd Hin].
  destruct (List.find _ _) as [[r l]|] eqn:E.
  - apply List.find_some in E as [Hel Hr]. cbn [fst snd] in *.
    apply bool_decide_eq_true in Hr. subst r.
    apply List.filter_In in Hel as [Hel _]. apply list_elem_of_In in Hel.
    rewrite Array_sort_perm in Hel. apply Hin in Hel as [-> _]. reflexivity.
  - destruct (ofRound (Some s) ms) as [|m l] eqn:El; [reflexivity|].
    exfalso.
    assert (Hel : (Some s, m :: l) ∈ groupByRound ms)
      by (apply Hin; rewrite El; split; [reflexivity | discriminate]).
    rewrite <- (Array_sort_perm byRoundOrder) in Hel.
    apply list_elem_of_In in Hel.
    assert (Hf : List.In (Some s, m :: l)
                   (List.filter (λ e, isFinalRound (fst e))
                      (JS.Array_sort byRoundOrder (groupByRound ms))))
      by (apply List.filter_In; split; [assumption | exact Hs]).
    apply (List.find_none _ _ E) in Hf. cbn [fst] in Hf.
    now rewrite bool_decide_eq_true_2 in Hf.
Qed.

(** X26: the bracket holds one column for each round other than
    'final' and '3rd_place' that has a match, with all the matches of
    the round in their order; the columns follow the order 1/8, 1/4,
    1/2, semifinal, rounds of any other name standing first; and the
    panel below shows of the rounds 'final' and '3rd_place' the first
    match each, when there is one. *)
Theorem bracket_columns (ms : list DataManager.RawMatch) :
  (∀ r l,
     (r, l) ∈ mainRounds ms
     ↔ isFinalRound r = false ∧ l = ofRound r ms ∧ l ≠ [])
  ∧ NoDup (fst <$> mainRounds ms)
  ∧ (∀ i j a b,
       (i < j)%nat → mainRounds ms !! i = Some a → mainRounds ms !! j = Some b →
       indexOf (fst a) <= indexOf (fst b))
  ∧ finalMatch ms = head (ofRound (Some "final"%string) ms)
  ∧ thirdPlaceMatch ms = head (ofRound (Some "3rd_place"%string) ms).
Proof.
  destruct (groupByRound_spec ms) as [Hnd Hin].
  unfold mainRounds, sortedRounds. rewrite List_filter_stdpp.
  split; [|split; [|split; [|split]]].
  - intros r l. rewrite list_elem_of_filter, Array_sort_perm, Hin. cbn [fst].
    rewrite negb_true_iff. tauto.
  - apply NoDup_fmap_filter. now rewrite Array_sort_perm.
  - intros i j a b Hij Hi Hj.
    rewrite (Array_sort_filter byRoundOrder _ byRoundOrder_asym
               byRoundOrder_trans) in Hi, Hj.
    pose proof (Array_sort_sorted byRoundOrder byRoundOrder_asym
                  byRoundOrder_trans
                  (filter (λ x, negb (isFinalRound (fst x)) = true)
                     (groupByRound ms))) as Hs.
    pose proof (StronglySorted_lookup _ _ Hs i j a b Hij Hi Hj) as Hab.
    unfold byRoundOrder in Hab. apply Z.ltb_ge in Hab. lia.
  - now apply panelMatch_spec.
  - now apply panelMatch_spec.
Qed.

End BracketFacts.
